(* ===== verification/_CoqProject ===== *)
-Q . S2P
Prelude.v
Utf8.v
Paths.v
Bookmarks.v
FileSys.v
ConfigStore.v
Toml.v
Main.v
Cli.v
Concurrency.v
Scenario.v
