(* ===== verification/Prelude.v ===== *)
(** * pomelo, verified: a model of [src/main.rs] and its correctness

    pomelo is a command-line tool that bookmarks directories under short
    aliases.  Its single source file [src/main.rs] has three parts:
    - the data ([struct Bookmark { alias, path }], [struct Config
      { bookmarks: Vec<Bookmark> }]) and the operations [main] performs on
      the list: [push], a first-match scan by alias ([iter().position],
      [iter_mut().find]), [Vec::remove] at the index found, in-place update
      of the alias, and the numbered listing;
    - the configuration store: [get_config_path] ([~/.pomelo/config.toml]),
      [load_or_initialize_config] (read the file, parse it with
      [toml::from_str(..).unwrap()], or start empty when it cannot be read)
      and [save_config] (create [~/.pomelo] when missing, serialize,
      [File::create] then [write_all]), each failure an [expect] panic;
    - [fn main]: parse the command line ([struct Cli], [Cli::parse()] of
      clap's derive), load, run one of [Add], [Remove], [Edit], [List],
      [Jump], and save after [Add], [Remove] and [Edit].
    They interact through the [Config] value and through the file system:
    one invocation loads, mutates in memory, and saves; the next invocation
    sees the file the previous one left.

    ** Files, in dependency order
    - [Prelude.v] (this file): Rust's [result], the [outcome] of a run (a
      value or a panic message), the [Exec] state monad with panics and its
      stdpp [x <- m; k] notation, Rust's [?] on a [result] ([let? x := r
      in k]), [expect] and [expect_some], Rust's
      [Iterator::position] and [Vec::remove] (out of range: [None], a
      panic), the hint databases [pomelo] and [pomelo_exec], and generic
      list and string lemmas.
    - [Utf8.v]: the standard library's UTF-8 rules on bytes: [utf8_valid]
      ([str::from_utf8], by the table of well-formed sequences) and
      [utf8_lossy] ([String::from_utf8_lossy], maximal invalid subparts
      replaced by U+FFFD), and [utf8_encode] ([char::encode_utf8], used by
      the TOML escapes [\uXXXX]).
    - [Paths.v]: a [PathBuf] as its bytes ([list ascii]), as on Unix:
      [join] ([PathBuf::push]: an absolute component replaces, a separator
      is added when missing), [parent] ([Components::next_back], with the
      root, [.] and repeated separators as std treats them), [display]
      (lossy UTF-8), and [comps], the components the kernel walks.
    - [Bookmarks.v]: [Bookmark], [Config], the list operations of [main]
      ([push_bookmark], [find_position], [set_alias], [bookmark_line]) and
      Module [Spec], the abstract collection of the specification
      (remove-first-match, rename-first-match, append, lookup, the
      non-empty-alias invariant), with the refinement lemmas between them.
    - [FileSys.v]: the world a run sees, a [Record World]: home path,
      working directory, directories ([gset Loc]), files ([gmap Loc
      string]), locations without permission, a full-disk flag, the lines
      printed; a location [Loc] is the list of names below [/].  [locate]
      is the kernel's path walk (relative paths from the working directory,
      [..], a file met on the way, a NUL byte), giving the errors
      [NotFound], [NotADirectory], [InvalidInput].  Each library call
      ([dirs::home_dir], [env::current_dir], [fs::read_to_string] with its
      UTF-8 check, [Path::exists], [fs::create_dir] and std's recursive
      [fs::create_dir_all], [File::create], [write_all], [println!]) is an
      [IO] action returning Rust's [result]; [wf_world] (a tree of
      directories holding files) is kept by every call.
    - [ConfigStore.v]: [get_config_path], [load_or_initialize_config],
      [save_config] in the order of the source, written against the
      typeclass [ConfigCodec] (encode, which fails exactly on a path that is
      not UTF-8, decode, and the laws decode-after-encode, UTF-8 output and
      reject-the-empty-file): the interface between the store and the TOML
      library.
    - [Toml.v]: the codec over bytes.  The printer writes the
      specification's schema ([bookmarks = [ { alias = .., path = .. },
      .. ]]); the parser reads a value tree as the [toml] crate does
      ([toml_parse]: top-level pairs, arrays of inline tables, tables
      [[[bookmarks]]], basic strings with every escape, literal strings,
      comments, no key twice) and deserializes it as the [serde] derives
      do ([de_config], [de_bookmark]: required fields, unknown keys
      ignored); its round trip
      discharges [ConfigCodec] ([toml_codec]).
    - [Main.v]: [enum Commands], the arms of [main] ([remove_arm],
      [edit_arm], [list_arm], [print_bookmarks]) and [main] itself; the
      relation [invocation] strings runs together, each with a command whose
      strings are UTF-8 ([cmd_ok], what clap guarantees).
    - [Cli.v]: [struct Cli] and the [#[arg]] attributes of [Commands] as
      the clap [Command] they derive ([top_command], [subcommand_of],
      [arg_alias], [arg_new], the generated [--help] and [--version]), and
      [Cli::parse()] as clap 4 runs it on the argument bytes
      ([cli_parse]: [classify] of each token, the loop [get_matches_with]
      with an option waiting for its value, [parse_long_arg],
      [parse_short_arg], [react] and [resolve_pending], validation, the
      derived [from_arg_matches]); [pomelo] is the whole process, clap
      then [Main.main], with its [exit_code].
    - [Concurrency.v]: invocations running at once (specification,
      section 5): each invocation is a program counter [pc] whose three
      atomic phases ([proc_step]) are the load, the arm up to
      [File::create] ([ConfigStore.save_open]) and the rest from
      [write_all] ([ConfigStore.save_write]); a system is a world with
      the invocations on it, moved by a schedule ([run_sched]) or by the
      relation [sys_step].
    - [Scenario.v]: concrete worlds, the specification's end-to-end
      scenario, and each theorem with hypotheses applied at a concrete
      world.

    ** What is proved
    - Commands (Main): on a world whose file holds [c], [Remove], [Edit]
      and [Add] leave in the file exactly the encoding of
      [Spec.remove_first], [Spec.rename_first] and [Spec.add] of [c], with
      the messages printed; [List] prints "Your bookmarks:" and the lines
      "[n]. Alias: '..', Path: '..'" numbered from 1 (or the empty
      message) and writes nothing, also when the file cannot be read;
      [Jump] changes nothing.  [Vec::remove] is never called out of range.
      [Add a] then [Remove a], for an alias not in use, give the world
      back but for the two confirmations.  Liveness: [Remove a] run once
      per bookmark with the alias [a] leaves exactly the other bookmarks,
      in order.
    - Refinement (Bookmarks): [position] then [Vec::remove], and
      [iter_mut().find] then assignment, are the specification's
      remove-first-match and rename-first-match.
    - Store (ConfigStore): [get_config_path] is the home directory's
      components followed by [.pomelo] and [config.toml]; load after a
      completed save returns what was
      saved, for every lawful codec; a missing file loads as the empty
      collection without creating anything; a UTF-8 file that does not
      decode panics; [save_config] panics only through its [expect]s, never
      the one on [parent()]; a path that is not UTF-8 makes it panic before
      any file is touched; the first save creates [~/.pomelo].
    - The models of the standard library are checked against its
      documented behaviour by lemmas the theorems above use: in FileSys,
      [create_dir_all] only adds directories, keeps the world well formed,
      makes the path resolve to a directory when it succeeds, and
      terminates ([create_dir_all_fuel_enough]); in Utf8, [utf8_valid]
      accepts exactly the encodings of sequences of Unicode scalar values
      ([utf8_valid_chars]); in Paths, [display] is UTF-8, at most three
      bytes per byte, and the path's own bytes when it is UTF-8.
    - Codec (Toml): [toml_decode s = Some c] whenever [toml_encode c = Some
      s], whatever the aliases and paths; a text with extra keys at the top
      or in the entries reads as the same configuration (forward
      compatibility, [toml_decode_extra_fields]); the text in the crate's
      own layout, a [[[bookmarks]]] table per entry, reads back for every
      configuration ([toml_decode_crate_layout]).
    - Invariant across invocations (Main): with a disk that never fills and
      a home without [..], every world reachable by any sequence of
      invocations keeps a configuration file that decodes when readable, so
      no invocation ever panics while parsing it.
    - Command line (Cli): every command is read back from each spelling
      of its options ([--alias v], [--alias=v], [-a v], [-a=v], [-av]), in
      either order ([parse_render]); a repeated option is refused with
      exit code 2 before any file is read ([option_twice_conflict]), and
      so is a required option left out ([missing_option_refused]); and
      every run of the process is either such a clap exit, leaving the
      world as it was, or an [invocation] of [main] with UTF-8 arguments
      ([pomelo_invocation]), so the theorems on invocations hold of the
      program run from a shell.
    - Concurrency: the phases run alone are [main]
      ([phases_refine_main]); two [Add]s loading before either saves lose
      the first bookmark, both reporting success ([lost_update]); a load
      between another invocation's [File::create] and [write_all] panics
      ([load_during_save_panics]); and, by rule induction over [sys_step],
      under any interleaving that is the only way a load can panic while
      parsing ([interleaved_parse_panic_is_truncation]).
    - Findings: a failed [write_all] after [File::create] leaves an empty
      file and every later invocation panics; [Remove] prints its
      confirmation before a save that can fail; [Remove] of a missing alias
      still creates the file; [Add] accepts the empty alias the
      specification forbids; [Add] in a directory whose path is not UTF-8
      panics; a configuration file that is not UTF-8 reads as empty and
      the next [Add] overwrites it, losing its bookmarks.

    ** Bounds and fuel
    [create_dir_all] recurses on [parent()], which is strictly shorter
    ([parent_shorter]): it runs with [S (length p)] units of fuel, and any
    fuel above [length p] gives the same run.  The TOML parser [p_items]
    takes one unit per entry, [p_top] and [p_lines] one per line and
    [p_tables] one per table; each is given the length of the text, which
    exceeds these counts for any text it reads, since each entry, line and
    table takes more than one byte ([length_items], [length_tables_text]).  The UTF-8 functions recurse on the tail
    structurally; their proofs use induction on the length ([bytes_ind]).
    Indices are [nat]: the program only uses them as [usize] positions in a
    [Vec] whose length is far below [usize::MAX].

    ** Approximations
    [..] is resolved by the walk of [locate] as the kernel does for real
    directories; symbolic links, file metadata and permissions on the
    directories of the walk are not represented.  A path ending in a
    separator names a directory.  [write_all] on a full disk writes
    nothing (the kernel may write a prefix: the file is then not valid
    TOML either).  Panic messages are the [expect] strings without the
    [: {e:?}] suffix Rust appends.

    ** Not modelled
    The text clap prints (help, usage, error messages) is generated from
    the doc comments and is not modelled: a clap exit is its [ErrorKind]
    and exit code.  A token [--=value] (an empty long name) is read as an
    unknown argument.  The [toml] crate and [serde] derives are
    library code, modelled from the specification's schema and the TOML
    grammar the file uses: values other than strings and arrays of inline
    tables (integers, booleans, dates, nested tables), dotted and quoted
    keys and multi-line strings are rejected by the model, where the crate
    accepts them (and [serde] ignores them when their key is unknown); the
    model lets an inline table span lines, which TOML 1.0 forbids.  The
    codec instance [toml_codec] prints the schema of the specification
    ([toml_encode]); the crate's own layout is [toml_encode_tables_l],
    with every string a basic string where the crate may choose a literal
    one.
    Concurrent invocations are modelled at the
    granularity of the load, [File::create] and [write_all]: the steps of
    [fs::create_dir_all] inside one phase are not interleaved with other
    invocations. *)

From stdpp Require Import base list options strings.


(** ** Notation scope of the development *)

Declare Scope pomelo_scope.
Delimit Scope pomelo_scope with pomelo.

(** ** Rust's [Result]: the value of a fallible library call *)

Inductive result (A E : Type) : Type :=
  | Ok (a : A)
  | Err (e : E).
Arguments Ok {A E} a.
Arguments Err {A E} e.

(** ** What a run of a command produces: a value, or a panic with its
    message.  A panic aborts the process; the state reached before it is
    kept, because the side effects already performed stay on disk. *)

Inductive outcome (A : Type) : Type :=
  | Done (a : A)
  | Panicked (msg : string).
Arguments Done {A} a.
Arguments Panicked {A} msg.

(** ** The execution monad: state passing over a world [S], with panics *)

Definition Exec (S A : Type) : Type := S -> outcome A * S.

#[export] Instance exec_ret {S} : MRet (Exec S) :=
  fun A a s => (Done a, s).
#[export] Instance exec_bind {S} : MBind (Exec S) :=
  fun A B f m s =>
    match m s with
    | (Done a, s') => f a s'
    | (Panicked e, s') => (Panicked e, s')
    end.

Definition run {S A} (m : Exec S A) (s : S) : outcome A * S := m s.

Definition panic {S A} (msg : string) : Exec S A := fun s => (Panicked msg, s).
Definition get_state {S} : Exec S S := fun s => (Done s, s).
Definition modify_state {S} (f : S -> S) : Exec S unit := fun s => (Done tt, f s).

(** [r.expect(msg)]: the value of an [Ok], a panic with [msg] on an [Err]. *)
Definition expect {S A E} (r : result A E) (msg : string) : Exec S A :=
  match r with
  | Ok a => mret a
  | Err _ => panic msg
  end.

(** [o.expect(msg)] on an [Option]. *)
Definition expect_some {S A} (o : option A) (msg : string) : Exec S A :=
  match o with
  | Some a => mret a
  | None => panic msg
  end.

Notation "'panic!' msg" := (panic msg%string) (at level 10) : pomelo_scope.

(** Rust's [?] operator on a [result]: the value of an [Ok], or the [Err]
    returned at once. *)
Definition result_bind {A B E} (r : result A E) (f : A -> result B E) : result B E :=
  match r with
  | Ok a => f a
  | Err e => Err e
  end.

Notation "'let?' x ':=' r 'in' k" := (result_bind r (fun x => k))
  (at level 10, x name, r at level 100, k at level 200) : pomelo_scope.

(** ** Rust's [Iterator::position]: the index of the first element on which
    the predicate holds. *)

Fixpoint position {A} (p : A -> bool) (l : list A) : option nat :=
  match l with
  | [] => None
  | x :: l' => if p x then Some 0 else S <$> position p l'
  end.

(** Rust's [Vec::remove(index)]: removes the element at [index] and shifts
    the rest left; it panics when [index >= len] (here: [None]). *)
Fixpoint vec_remove {A} (i : nat) (l : list A) : option (list A) :=
  match l, i with
  | [], _ => None
  | _ :: l', 0 => Some l'
  | x :: l', S i' => cons x <$> vec_remove i' l'
  end.

(** ** Generic lemmas on [result] *)

Lemma result_bind_Ok {A B E} (r : result A E) (f : A -> result B E) b :
  result_bind r f = Ok b -> exists a, r = Ok a /\ f a = Ok b.
Proof. destruct r; cbn; [eauto|done]. Qed.

Lemma result_bind_Err {A B E} (r : result A E) (f : A -> result B E) e :
  r = Err e -> result_bind r f = Err e.
Proof. by intros ->. Qed.

(** ** Generic lemmas on the monad *)

Create Rewrite HintDb pomelo_exec.
Create HintDb pomelo.

Lemma bind_ret_l {S A B} (a : A) (f : A -> Exec S B) :
  (mret a ≫= f) = f a.
Proof. reflexivity. Qed.

Lemma run_bind {S A B} (m : Exec S A) (f : A -> Exec S B) s :
  run (m ≫= f) s =
    match run m s with
    | (Done a, s') => run (f a) s'
    | (Panicked e, s') => (Panicked e, s')
    end.
Proof. reflexivity. Qed.

Lemma run_ret {S A} (a : A) (s : S) : run (mret a) s = (Done a, s).
Proof. reflexivity. Qed.

(** The monad laws a run sees: associativity, and binds with the same
    first action and continuations that run alike. *)
Lemma run_bind_assoc {S A B C} (m : Exec S A) (f : A -> Exec S B) (g : B -> Exec S C) s :
  run ((m ≫= f) ≫= g) s = run (m ≫= (fun x => f x ≫= g)) s.
Proof. rewrite !run_bind. destruct (run m s) as [[a|e] s']; [|done]. by rewrite run_bind. Qed.

Lemma run_bind_ret_r {S A} (m : Exec S A) s : run (x ← m; mret x) s = run m s.
Proof. rewrite run_bind. by destruct (run m s) as [[] ?]. Qed.

Lemma run_bind_ext {S A B} (m : Exec S A) (f g : A -> Exec S B) s :
  (forall a s', run (f a) s' = run (g a) s') -> run (m ≫= f) s = run (m ≫= g) s.
Proof. intros H. rewrite !run_bind. destruct (run m s) as [[a|e] s']; auto. Qed.

Lemma run_panic {S A} msg (s : S) : run (panic (A:=A) msg) s = (Panicked msg, s).
Proof. reflexivity. Qed.

#[export] Hint Rewrite @run_bind @run_ret @run_panic : pomelo_exec.

(** ** Generic lemmas on strings ([String.app] is [simpl never] in stdpp) *)

Lemma string_app_nil_r (s : string) : (s +:+ EmptyString)%string = s.
Proof. induction s as [|a s IH]; [done|]. by rewrite <- IH at 2. Qed.

Lemma string_app_assoc (s1 s2 s3 : string) :
  (s1 +:+ (s2 +:+ s3))%string = ((s1 +:+ s2) +:+ s3)%string.
Proof. induction s1 as [|a s1 IH]; [done|]. exact (f_equal (String a) IH). Qed.

Lemma list_ascii_of_string_app (s1 s2 : string) :
  String.list_ascii_of_string (s1 +:+ s2) =
    String.list_ascii_of_string s1 ++ String.list_ascii_of_string s2.
Proof. induction s1 as [|a s1 IH]; [done|]. exact (f_equal (cons a) IH). Qed.

(** ** Generic lemmas on [position] and [vec_remove] *)

Section ListOps.
Context {A : Type}.
Implicit Types (l : list A) (p : A -> bool).

Lemma position_Some p l i :
  position p l = Some i ->
  exists x, l !! i = Some x /\ p x = true /\
            forall j y, j < i -> l !! j = Some y -> p y = false.
Proof.
  revert i. induction l as [|x l IH]; intros i H; simpl in H; [done|].
  destruct (p x) eqn:Hx.
  - injection H as <-. exists x. split_and!; [done|done|]. intros j y Hj. lia.
  - destruct (position p l) as [i'|] eqn:Hi; simplify_eq/=.
    destruct (IH i' eq_refl) as (y & Hy & Hpy & Hfirst).
    exists y. split_and!; [done|done|].
    intros [|j] z Hj Hz; simplify_eq/=; [done|]. apply (Hfirst j); [lia|done].
Qed.

Lemma position_None p l : position p l = None <-> Forall (fun x => p x = false) l.
Proof.
  induction l as [|x l IH]; simpl; [split; by auto|].
  rewrite Forall_cons. destruct (p x); [split; [done|naive_solver]|].
  destruct (position p l); simpl; naive_solver.
Qed.

Lemma position_lt p l i : position p l = Some i -> i < length l.
Proof.
  intros (x & Hx & _) % position_Some. by eapply lookup_lt_Some.
Qed.

Lemma position_app_r p l1 l2 :
  Forall (fun x => p x = false) l1 ->
  position p (l1 ++ l2) = Nat.add (length l1) <$> position p l2.
Proof.
  induction 1 as [|x l1 Hx _ IH]; simpl.
  - by destruct (position p l2).
  - rewrite Hx, IH. by destruct (position p l2).
Qed.

Lemma vec_remove_lt i l :
  i < length l -> exists l', vec_remove i l = Some l'.
Proof.
  revert i. induction l as [|x l IH]; intros [|i] Hi; simpl in *; try lia; eauto.
  destruct (IH i) as [l' ->]; [lia|]. eauto.
Qed.

Lemma vec_remove_ge i l : length l <= i -> vec_remove i l = None.
Proof.
  revert i. induction l as [|x l IH]; intros [|i] Hi; simpl in *; try lia; try done.
  rewrite IH; [done|lia].
Qed.

Lemma vec_remove_take_drop i l :
  i < length l -> vec_remove i l = Some (take i l ++ drop (S i) l).
Proof.
  revert i. induction l as [|x l IH]; intros [|i] Hi; simpl in *; try lia; [done|].
  rewrite IH; [done|lia].
Qed.
(** [iter().enumerate()] seen as [imap]: the indices counted from [i]. *)
Lemma zip_with_seq_imap {B} (f : nat -> A -> B) i l :
  zip_with f (seq i (length l)) l = imap (fun j => f (i + j)) l.
Proof.
  revert i. induction l as [|x l IH]; intros i; simpl; [done|].
  rewrite IH, Nat.add_0_r. f_equal. apply imap_ext. intros j y _. cbn. by rewrite Nat.add_succ_r.
Qed.

Lemma filter_Forall_id (P : A -> Prop) `{!forall x, Decision (P x)} l :
  Forall P l -> filter P l = l.
Proof. induction 1; [done|]. rewrite filter_cons_True by done. by f_equal. Qed.
End ListOps.
