(* ===== verification/Utf8.v ===== *)
(** * Utf8: the UTF-8 checks of Rust's standard library on byte strings

    Text on disk and in an [OsString] is a sequence of bytes, here a
    [list ascii] (an [ascii] is one byte).  pomelo crosses from bytes to
    [str] at three places, each with the standard library's UTF-8 rules:
    [fs::read_to_string] fails with [InvalidData] on a file that is not
    UTF-8 ([str::from_utf8]); serde refuses to serialize a [PathBuf] that
    is not UTF-8 ([Path::to_str]); and [Path::display] replaces every
    invalid sequence by U+FFFD ([String::from_utf8_lossy], which substitutes
    the maximal invalid subparts, as the Unicode standard recommends).

    [lead_info] is the table of well-formed UTF-8 byte sequences (Unicode
    Table 3-7): the width of the sequence a leading byte starts, and the
    range of its second byte. *)

From stdpp Require Import base list strings numbers.
From Stdlib Require Import Ascii NArith ZArith Lia.
From S2P Require Import Prelude.

Definition byte_in (lo hi : nat) (c : ascii) : bool :=
  bool_decide (lo <= nat_of_ascii c <= hi).

Definition is_ascii_byte (c : ascii) : bool := bool_decide (nat_of_ascii c < 128).
Definition is_cont (c : ascii) : bool := byte_in 128 191 c.

(** Width of the sequence, and range of the second byte. *)
Definition lead_info (c : ascii) : option (nat * (nat * nat)) :=
  let n := nat_of_ascii c in
  if decide (194 <= n <= 223) then Some (2, (128, 191))
  else if decide (n = 224) then Some (3, (160, 191))
  else if decide (225 <= n <= 236) then Some (3, (128, 191))
  else if decide (n = 237) then Some (3, (128, 159))
  else if decide (238 <= n <= 239) then Some (3, (128, 191))
  else if decide (n = 240) then Some (4, (144, 191))
  else if decide (241 <= n <= 243) then Some (4, (128, 191))
  else if decide (n = 244) then Some (4, (128, 143))
  else None.

(** [str::from_utf8(bytes).is_ok()] *)
Fixpoint utf8_valid (l : list ascii) : bool :=
  match l with
  | [] => true
  | c :: r =>
      if is_ascii_byte c then utf8_valid r else
      match lead_info c, r with
      | Some (2, (lo, hi)), c2 :: r2 => byte_in lo hi c2 && utf8_valid r2
      | Some (3, (lo, hi)), c2 :: c3 :: r3 =>
          byte_in lo hi c2 && is_cont c3 && utf8_valid r3
      | Some (4, (lo, hi)), c2 :: c3 :: c4 :: r4 =>
          byte_in lo hi c2 && is_cont c3 && is_cont c4 && utf8_valid r4
      | _, _ => false
      end
  end.

(** U+FFFD, REPLACEMENT CHARACTER, in UTF-8. *)
Definition replacement : list ascii :=
  [ascii_of_nat 239; ascii_of_nat 191; ascii_of_nat 189].

(** [String::from_utf8_lossy]: a leading byte and the continuation bytes
    that fit after it, when the sequence stops short, are one invalid
    sequence and become one U+FFFD; the byte that did not fit is read
    again. *)
Fixpoint utf8_lossy (l : list ascii) : list ascii :=
  match l with
  | [] => []
  | c :: r =>
      if is_ascii_byte c then c :: utf8_lossy r else
      match lead_info c with
      | None => replacement ++ utf8_lossy r
      | Some (w, (lo, hi)) =>
          match r with
          | [] => replacement
          | c2 :: r2 =>
              if negb (byte_in lo hi c2) then replacement ++ utf8_lossy r
              else if decide (w = 2) then c :: c2 :: utf8_lossy r2
              else match r2 with
                   | [] => replacement
                   | c3 :: r3 =>
                       if negb (is_cont c3) then replacement ++ utf8_lossy r2
                       else if decide (w = 3) then c :: c2 :: c3 :: utf8_lossy r3
                       else match r3 with
                            | [] => replacement
                            | c4 :: r4 =>
                                if is_cont c4 then c :: c2 :: c3 :: c4 :: utf8_lossy r4
                                else replacement ++ utf8_lossy r3
                            end
                   end
          end
      end
  end.

(** [char::encode_utf8]: the bytes of a Unicode scalar value; a
    surrogate or a number beyond U+10FFFF is no [char]. *)
Definition utf8_encode (n : N) : option (list ascii) :=
  if decide (n < 128)%N then Some [ascii_of_N n]
  else if decide (n < 2048)%N then
    Some [ascii_of_N (192 + n / 64); ascii_of_N (128 + n mod 64)]
  else if decide (55296 <= n <= 57343)%N then None
  else if decide (n < 65536)%N then
    Some [ascii_of_N (224 + n / 4096); ascii_of_N (128 + (n / 64) mod 64);
          ascii_of_N (128 + n mod 64)]
  else if decide (n <= 1114111)%N then
    Some [ascii_of_N (240 + n / 262144); ascii_of_N (128 + (n / 4096) mod 64);
          ascii_of_N (128 + (n / 64) mod 64); ascii_of_N (128 + n mod 64)]
  else None.

(** [String::from_iter] over [char]s: the bytes of a sequence of scalar
    values, none when one of them is no [char]. *)
Fixpoint utf8_encode_all (ns : list N) : option (list ascii) :=
  match ns with
  | [] => Some []
  | n :: ns' => b ← utf8_encode n; r ← utf8_encode_all ns'; Some (b ++ r)
  end.

(** ** Lemmas *)

(** The widths [lead_info] gives are 2, 3 or 4. *)
Lemma lead_info_width c w lo hi : lead_info c = Some (w, (lo, hi)) -> w = 2 \/ w = 3 \/ w = 4.
Proof. unfold lead_info. repeat case_decide; intros; simplify_eq; lia. Qed.

(** Induction on the length of a byte list, for the functions above that
    recurse two to four bytes at a time. *)
Lemma bytes_ind (P : list ascii -> Prop) :
  (forall l, (forall l', length l' < length l -> P l') -> P l) -> forall l, P l.
Proof.
  intros Hstep l. remember (length l) as n eqn:Hn. revert l Hn.
  induction n as [n IH] using lt_wf_ind. intros l ->. apply Hstep.
  intros l' Hl'. by apply (IH (length l')).
Qed.

(** The three widths of a multi-byte sequence, with the tail left
    abstract so that [simpl] stops at the recursive call. *)
Ltac utf8_cases Hl r :=
  destruct (lead_info_width _ _ _ _ Hl) as [Hw|[Hw|Hw]]; subst;
  [destruct r as [|?c2 ?r] | destruct r as [|?c2 [|?c3 ?r]]
  | destruct r as [|?c2 [|?c3 [|?c4 ?r]]]].

Lemma utf8_valid_lossy l : utf8_valid l = true -> utf8_lossy l = l.
Proof.
  induction l as [l IH] using bytes_ind. destruct l as [|c r]; [done|]. simpl.
  destruct (is_ascii_byte c); [intros H; rewrite IH; simpl; auto with lia|].
  destruct (lead_info c) as [[w [lo hi]]|] eqn:Hl; [|done].
  utf8_cases Hl r; simpl; try done;
    rewrite ?andb_true_iff; intros; destruct_and?;
    repeat match goal with H : ?b = true |- context [?b] => rewrite H end; simpl;
    rewrite IH; simpl; auto with lia.
Qed.

(** UTF-8 is closed under concatenation. *)
Lemma utf8_valid_app l1 l2 :
  utf8_valid l1 = true -> utf8_valid l2 = true -> utf8_valid (l1 ++ l2) = true.
Proof.
  revert l2. induction l1 as [l1 IH] using bytes_ind. intros l2. destruct l1 as [|c r]; [done|]. simpl.
  intros H1 H2. destruct (is_ascii_byte c); [apply IH; simpl; auto with lia|].
  destruct (lead_info c) as [[w [lo hi]]|] eqn:Hl; [|done].
  utf8_cases Hl r; simpl in *; try done;
    rewrite ?andb_true_iff in *; destruct_and?; split_and?; try done;
    apply IH; simpl; auto with lia.
Qed.

(** Text made of ASCII bytes is UTF-8. *)
Lemma utf8_valid_ascii l : Forall (fun c => is_ascii_byte c = true) l -> utf8_valid l = true.
Proof. induction 1 as [|c l Hc _ IH]; simpl; [done|]. by rewrite Hc. Qed.

Lemma replacement_valid l : utf8_valid l = true -> utf8_valid (replacement ++ l) = true.
Proof. done. Qed.

(** What [from_utf8_lossy] gives is UTF-8: the lossy conversion lands in
    [String]. *)
Lemma utf8_lossy_valid l : utf8_valid (utf8_lossy l) = true.
Proof.
  induction l as [l IH] using bytes_ind. destruct l as [|c r]; [done|]. simpl.
  destruct (is_ascii_byte c) eqn:Ha; [simpl; rewrite Ha; apply IH; simpl; lia|].
  destruct (lead_info c) as [[w [lo hi]]|] eqn:Hl; [|apply replacement_valid, IH; simpl; lia].
  utf8_cases Hl r; cbn [negb]; try done;
    repeat match goal with
    | |- context [if ?b then _ else _] => destruct b eqn:?; cbn [utf8_valid]
    end; rewrite ?Ha, ?Hl in *; rewrite ?negb_false_iff in *; simplify_eq;
    try (apply replacement_valid, IH; simpl; lia);
    rewrite ?andb_true_iff; split_and?; try done; apply IH; simpl; lia.
Qed.

(** Each byte becomes at most the three bytes of U+FFFD. *)
Lemma utf8_lossy_length l : length (utf8_lossy l) <= 3 * length l.
Proof.
  induction l as [l IH] using bytes_ind. destruct l as [|c r]; [done|]. simpl.
  destruct (is_ascii_byte c); [simpl; specialize (IH r); simpl in IH; lia|].
  destruct (lead_info c) as [[w [lo hi]]|]; [|specialize (IH r); simpl in *; lia].
  destruct r as [|c2 r2]; [simpl; lia|].
  repeat match goal with
  | |- context [if ?b then _ else _] => destruct b
  | |- context [match ?r with [] => _ | _ :: _ => _ end] => destruct r
  end; unfold replacement; rewrite ?length_app; cbn [length app];
  repeat match goal with
  | |- context [length (utf8_lossy ?x)] =>
      let H := fresh in pose proof (IH x ltac:(simpl; lia)) as H; cbn [length] in H;
      generalize dependent (length (utf8_lossy x)); intros
  end; lia.
Qed.

(** *** [utf8_valid] accepts exactly the encodings of [char]s *)

#[local] Ltac Zify.zify_post_hook ::= Z.to_euclidean_division_equations.

Lemma nat_of_ascii_of_N n : (n < 256)%N -> nat_of_ascii (ascii_of_N n) = N.to_nat n.
Proof. intros H. unfold nat_of_ascii. by rewrite N_ascii_embedding. Qed.

(** The rows of the table, with the numbers of the leading byte. *)
Lemma lead_info_cases c w lo hi :
  lead_info c = Some (w, (lo, hi)) ->
  let a := nat_of_ascii c in
  (194 <= a <= 223 /\ w = 2 /\ lo = 128 /\ hi = 191) \/
  (a = 224 /\ w = 3 /\ lo = 160 /\ hi = 191) \/
  (225 <= a <= 236 /\ w = 3 /\ lo = 128 /\ hi = 191) \/
  (a = 237 /\ w = 3 /\ lo = 128 /\ hi = 159) \/
  (238 <= a <= 239 /\ w = 3 /\ lo = 128 /\ hi = 191) \/
  (a = 240 /\ w = 4 /\ lo = 144 /\ hi = 191) \/
  (241 <= a <= 243 /\ w = 4 /\ lo = 128 /\ hi = 191) \/
  (a = 244 /\ w = 4 /\ lo = 128 /\ hi = 143).
Proof. unfold lead_info. repeat case_decide; intros; simplify_eq; lia. Qed.

(** [utf8_valid] steps over one sequence whose tests hold. *)
Lemma utf8_valid_step1 c r : is_ascii_byte c = true -> utf8_valid (c :: r) = utf8_valid r.
Proof. intros Ha. simpl. by rewrite Ha. Qed.
Lemma utf8_valid_step2 c c2 r lo hi :
  is_ascii_byte c = false -> lead_info c = Some (2, (lo, hi)) -> byte_in lo hi c2 = true ->
  utf8_valid (c :: c2 :: r) = utf8_valid r.
Proof. intros Ha Hl H2. cbn [utf8_valid]. by rewrite Ha, Hl, H2. Qed.
Lemma utf8_valid_step3 c c2 c3 r lo hi :
  is_ascii_byte c = false -> lead_info c = Some (3, (lo, hi)) -> byte_in lo hi c2 = true ->
  is_cont c3 = true -> utf8_valid (c :: c2 :: c3 :: r) = utf8_valid r.
Proof. intros Ha Hl H2 H3. cbn [utf8_valid]. by rewrite Ha, Hl, H2, H3. Qed.
Lemma utf8_valid_step4 c c2 c3 c4 r lo hi :
  is_ascii_byte c = false -> lead_info c = Some (4, (lo, hi)) -> byte_in lo hi c2 = true ->
  is_cont c3 = true -> is_cont c4 = true -> utf8_valid (c :: c2 :: c3 :: c4 :: r) = utf8_valid r.
Proof. intros Ha Hl H2 H3 H4. cbn [utf8_valid]. by rewrite Ha, Hl, H2, H3, H4. Qed.

(** Evaluate one test of [utf8_valid] on a byte given by its number. *)
Ltac byte_eval :=
  unfold is_ascii_byte, is_cont, byte_in, lead_info; rewrite nat_of_ascii_of_N by lia;
  repeat first [ rewrite decide_True by lia | rewrite decide_False by lia
               | rewrite bool_decide_eq_true_2 by lia | rewrite bool_decide_eq_false_2 by lia ];
  reflexivity.

(** The bytes of a [char] are one well-formed sequence. *)
Lemma utf8_encode_valid n b r :
  utf8_encode n = Some b -> utf8_valid (b ++ r) = utf8_valid r.
Proof.
  unfold utf8_encode. intros H. repeat case_decide; simplify_eq; cbn [app].
  - apply utf8_valid_step1. byte_eval.
  - erewrite utf8_valid_step2; [done|byte_eval..].
  - (* the row of the leading byte: E0, E1-EC, ED, EE-EF *)
    assert (n < 4096 \/ 4096 <= n < 53248 \/ 53248 <= n < 57344 \/ 57344 <= n)%N
      as [?|[?|[?|?]]] by lia;
      (erewrite utf8_valid_step3; [done|byte_eval..]).
  - (* F0, F1-F3, F4 *)
    assert (n < 262144 \/ 262144 <= n < 1048576 \/ 1048576 <= n)%N as [?|[?|?]] by lia;
      (erewrite utf8_valid_step4; [done|byte_eval..]).
Qed.

Lemma ascii_of_N_eq c n : N_of_ascii c = n -> ascii_of_N n = c.
Proof. intros <-. apply ascii_N_embedding. Qed.

(** The number a sequence spells, as [char::from_u32] on its bits. *)
Ltac utf8_witness n b r' :=
  exists n, b, r'; split_and!;
  [ unfold utf8_encode; repeat case_decide; try lia; repeat f_equal; apply ascii_of_N_eq; lia
  | done | done | simpl; lia ].

(** A well-formed sequence at the head is the encoding of a [char]. *)
Lemma utf8_valid_encode c r :
  utf8_valid (c :: r) = true ->
  exists n b r', utf8_encode n = Some b /\ c :: r = b ++ r' /\ utf8_valid r' = true /\
    length r' < length (c :: r).
Proof.
  pose proof (N_ascii_bounded c). simpl. destruct (is_ascii_byte c) eqn:Ha.
  { intros Hr. unfold is_ascii_byte, nat_of_ascii in Ha. case_bool_decide; [|done].
    utf8_witness (N_of_ascii c) [c] r. }
  destruct (lead_info c) as [[w [lo hi]]|] eqn:Hl; [|done].
  pose proof (lead_info_cases _ _ _ _ Hl) as Hcase.
  utf8_cases Hl r; try done; unfold is_cont, byte_in, nat_of_ascii in *;
    rewrite ?andb_true_iff; intros; destruct_and?; repeat case_bool_decide; try done;
    pose proof (N_ascii_bounded c2); try pose proof (N_ascii_bounded c3);
    try pose proof (N_ascii_bounded c4).
  - utf8_witness ((N_of_ascii c - 192) * 64 + (N_of_ascii c2 - 128))%N [c; c2] r.
  - utf8_witness ((N_of_ascii c - 224) * 4096 + (N_of_ascii c2 - 128) * 64 +
                  (N_of_ascii c3 - 128))%N [c; c2; c3] r.
  - utf8_witness ((N_of_ascii c - 240) * 262144 + (N_of_ascii c2 - 128) * 4096 +
                  (N_of_ascii c3 - 128) * 64 + (N_of_ascii c4 - 128))%N [c; c2; c3; c4] r.
Qed.

(** [str::from_utf8] accepts exactly the strings of [char]s: the byte
    strings that [utf8_valid] accepts are the UTF-8 encodings of the
    sequences of Unicode scalar values, no more (no surrogate, nothing
    beyond U+10FFFF, no overlong form) and no less. *)
Theorem utf8_valid_chars l : utf8_valid l = true <-> exists ns, utf8_encode_all ns = Some l.
Proof.
  split.
  - induction l as [l IH] using bytes_ind. destruct l as [|c r]; [by exists []|].
    intros (n & b & r' & Hn & Heq & Hr' & Hlen)%utf8_valid_encode.
    destruct (IH r' Hlen Hr') as [ns Hns]. exists (n :: ns). simpl. by rewrite Hn, Hns, Heq.
  - intros [ns Hns]. revert l Hns. induction ns as [|n ns IH]; simpl; intros l Hl; [by simplify_eq|].
    destruct (utf8_encode n) as [b|] eqn:Hn; [|done]. simpl in Hl.
    destruct (utf8_encode_all ns) as [r|] eqn:Hr; simplify_eq/=.
    rewrite (utf8_encode_valid _ _ _ Hn). by apply IH.
Qed.

#[export] Hint Resolve utf8_valid_app : pomelo.
