(* ===== verification/Paths.v ===== *)
(** * Paths: the part of Rust's [std::path] that pomelo uses, on Unix

    A [PathBuf] is an [OsString], a sequence of bytes: here a [list ascii].
    pomelo builds the configuration path with [Path::join] ([PathBuf::push])
    of the relative components [".pomelo"] and ["config.toml"] onto the
    home directory, takes its [parent()], and prints bookmarks with
    [path.display()].  The three are the standard library's algorithms for
    Unix, where the only separator is [/]:
    - [join p c]: an absolute [c] replaces [p]; otherwise a separator is
      added when [p] is not empty and does not end with one;
    - [parent p]: the path without its last component, computed as
      [Components::next_back] then [Components::as_path] do: the pieces
      between separators after the root ([/]) or a leading [.] are read
      from the back, empty pieces and the pieces ["."] are no component, and the
      pieces no component trailing what is left are trimmed;
    - [display p]: the bytes decoded lossily ([Utf8.utf8_lossy]).

    The kernel resolves a path to a location, the list of names from the
    root ([Loc]); [comps] is the sequence of lookups a path asks for,
    which [FileSys.locate] performs. *)

From stdpp Require Import base list strings sets.
From Stdlib Require Import Ascii.
From S2P Require Import Prelude Utf8.

Abbreviation PathBuf := (list ascii).

Definition ch_sep : ascii := "/".
Definition ch_dot : ascii := ".".

(** The pieces between separators: [a//b/] is [a], [], [b], []. *)
Fixpoint split_on (sep : ascii) (l : list ascii) : list (list ascii) :=
  match l with
  | [] => [[]]
  | c :: l' =>
      if decide (c = sep) then [] :: split_on sep l'
      else match split_on sep l' with
           | x :: xs => (c :: x) :: xs
           | [] => [[c]]
           end
  end.

(** The inverse of [split_on]: the pieces joined by the separator. *)
Fixpoint unsplit (sep : ascii) (ps : list (list ascii)) : list ascii :=
  match ps with
  | [] => []
  | [x] => x
  | x :: ps' => x ++ sep :: unsplit sep ps'
  end.

(** [Path::is_absolute] on Unix: [has_root], a leading separator. *)
Definition is_absolute (p : PathBuf) : bool :=
  match p with
  | c :: _ => bool_decide (c = ch_sep)
  | [] => false
  end.

(** [PathBuf::push]: [need_sep] when the last byte is not a separator. *)
Definition need_sep (p : PathBuf) : bool :=
  match last p with
  | Some c => negb (bool_decide (c = ch_sep))
  | None => false
  end.

(** [p.join(c)], that is [PathBuf::push] on a copy of [p]. *)
Definition join (p c : PathBuf) : PathBuf :=
  if is_absolute c then c
  else if need_sep p then p ++ ch_sep :: c
  else p ++ c.

(** [Components::parse_single_component]: an empty piece and ["."] are no
    component; [".."] is [ParentDir], anything else [Normal]. *)
Definition is_comp (piece : PathBuf) : bool :=
  negb (bool_decide (piece = [] \/ piece = [ch_dot])).

(** [Components::include_cur_dir]: a relative path that is [.] or starts
    with [./] starts with the component [CurDir]. *)
Definition include_cur_dir (p : PathBuf) : bool :=
  negb (is_absolute p) &&
  match p with
  | [c] => bool_decide (c = ch_dot)
  | c :: d :: _ => bool_decide (c = ch_dot /\ d = ch_sep)
  | [] => false
  end.

(** [Components::len_before_body]: the root, or the leading [.]. *)
Definition len_before_body (p : PathBuf) : nat :=
  (if is_absolute p then 1 else 0) + (if include_cur_dir p then 1 else 0).

(** The reversed pieces of the body: drop those that are no component up
    to the last component ([next_back]); what precedes it, reversed. *)
Fixpoint last_comp_split (rps : list PathBuf) : option (list PathBuf) :=
  match rps with
  | [] => None
  | x :: r => if is_comp x then Some r else last_comp_split r
  end.

(** [Components::trim_right] on reversed pieces. *)
Fixpoint trim_rev (rps : list PathBuf) : list PathBuf :=
  match rps with
  | [] => []
  | x :: r => if is_comp x then rps else trim_rev r
  end.

(** [p.parent()]: [Normal], [CurDir] or [ParentDir] as the last
    component gives the path before it; [RootDir] or nothing gives
    [None]. *)
Definition parent (p : PathBuf) : option PathBuf :=
  let base := len_before_body p in
  match last_comp_split (rev (split_on ch_sep (drop base p))) with
  | Some rest => Some (take base p ++ unsplit ch_sep (rev (trim_rev rest)))
  | None =>
      if is_absolute p then None
      else if include_cur_dir p then Some (take (base - 1) p)
      else None
  end.

(** [p.display()]: the bytes as text, invalid UTF-8 replaced. *)
Definition display (p : PathBuf) : string := String.string_of_list_ascii (utf8_lossy p).

(** ** Locations: what the kernel resolves a path to *)

Abbreviation Loc := (list string).

(** One lookup of a path walk. *)
Inductive comp := CNormal (name : string) | CParent.

#[export] Instance comp_eq_dec : EqDecision comp.
Proof. solve_decision. Defined.

(** The lookups of a path: its components after the root, [.] and empty
    pieces dropped. *)
Definition comps (p : PathBuf) : list comp :=
  omap (fun piece =>
          if is_comp piece then
            Some (if decide (piece = [ch_dot; ch_dot]) then CParent
                  else CNormal (String.string_of_list_ascii piece))
          else None)
       (split_on ch_sep p).

Definition step_loc (l : Loc) (c : comp) : Loc :=
  match c with
  | CNormal s => l ++ [s]
  | CParent => removelast l
  end.

(** The absolute path of a location, as [getcwd] writes it. *)
Definition loc_path (l : Loc) : PathBuf :=
  match l with
  | [] => [ch_sep]
  | _ => concat (map (fun s => ch_sep :: String.list_ascii_of_string s) l)
  end.

(** A name in a directory: not empty, not [.] or [..], without [/] or
    NUL. *)
Definition valid_name (s : string) : bool :=
  let b := String.list_ascii_of_string s in
  is_comp b && negb (bool_decide (b = [ch_dot; ch_dot])) &&
  negb (bool_decide (ch_sep ∈ b)) && negb (bool_decide ("000"%char ∈ b)).

Arguments join : simpl never.
Arguments parent : simpl never.

(** ** Lemmas on pieces *)

Lemma split_on_not_nil sep l : split_on sep l <> [].
Proof.
  induction l as [|c l IH]; simpl; [done|].
  case_decide; [done|]. by destruct (split_on sep l).
Qed.

Lemma split_on_no_sep sep x : sep ∉ x -> split_on sep x = [x].
Proof.
  induction x as [|c x IH]; intros Hx; [done|]. simpl.
  rewrite decide_False by set_solver. rewrite IH by set_solver. done.
Qed.

(** A separator splits the pieces in two. *)
Lemma split_on_app sep x y :
  split_on sep (x ++ sep :: y) = split_on sep x ++ split_on sep y.
Proof.
  induction x as [|c x IH]; simpl; [by rewrite decide_True|].
  case_decide; [by rewrite IH|]. rewrite IH.
  destruct (split_on sep x) eqn:E; [by destruct (split_on_not_nil sep x)|]. done.
Qed.

Lemma unsplit_cons_cons sep c x xs :
  unsplit sep ((c :: x) :: xs) = c :: unsplit sep (x :: xs).
Proof. by destruct xs. Qed.

Lemma unsplit_split sep l : unsplit sep (split_on sep l) = l.
Proof.
  induction l as [|c l IH]; [done|]. simpl. case_decide.
  - subst. destruct (split_on sep l) eqn:E; [by destruct (split_on_not_nil sep l)|].
    simpl. by rewrite <- IH.
  - destruct (split_on sep l) eqn:E; [by destruct (split_on_not_nil sep l)|].
    by rewrite unsplit_cons_cons, IH.
Qed.

Lemma unsplit_app sep xs ys :
  xs <> [] -> ys <> [] ->
  unsplit sep (xs ++ ys) = unsplit sep xs ++ sep :: unsplit sep ys.
Proof.
  intros Hxs Hys. induction xs as [|x xs IH]; [done|].
  destruct xs as [|x' xs]; [by destruct ys|].
  transitivity (x ++ sep :: unsplit sep ((x' :: xs) ++ ys)); [done|].
  rewrite IH by done. simpl. by rewrite <- app_assoc.
Qed.

Lemma comps_app x y : comps (x ++ ch_sep :: y) = comps x ++ comps y.
Proof. unfold comps. by rewrite split_on_app, omap_app. Qed.

(** A path followed by its trailing separator has the same lookups. *)
Lemma comps_snoc_sep x : comps (x ++ [ch_sep]) = comps x.
Proof. rewrite comps_app. unfold comps at 2. simpl. by rewrite app_nil_r. Qed.

Lemma length_unsplit_app sep xs ys :
  length (unsplit sep xs) + length (unsplit sep ys) <= length (unsplit sep (xs ++ ys)).
Proof.
  destruct xs as [|x xs]; [done|]. destruct ys as [|y ys]; [rewrite app_nil_r; simpl; lia|].
  rewrite unsplit_app by done. rewrite length_app. simpl. lia.
Qed.

Lemma last_comp_split_Some rps rest :
  last_comp_split rps = Some rest -> exists mid x, rps = mid ++ x :: rest /\ is_comp x = true.
Proof.
  induction rps as [|y r IH]; simpl; [done|]. destruct (is_comp y) eqn:Hy.
  - intros [= <-]. by exists [], y.
  - intros (mid & x & -> & Hx)%IH. by exists (y :: mid), x.
Qed.

Lemma trim_rev_suffix rps : exists mid, rps = mid ++ trim_rev rps.
Proof.
  induction rps as [|y r IH]; simpl; [by exists []|].
  destruct (is_comp y); [by exists []|]. destruct IH as [mid Hmid].
  exists (y :: mid). simpl. by f_equal.
Qed.

Lemma is_comp_not_nil x : is_comp x = true -> x <> [].
Proof. unfold is_comp. intros H ->. by rewrite bool_decide_true in H by auto. Qed.

(** ** [parent] gives a shorter path: [create_dir_all] terminates *)

Lemma parent_shorter p q : parent p = Some q -> length q < length p.
Proof.
  unfold parent. set (b := len_before_body p).
  destruct (last_comp_split _) as [rest|] eqn:Hs.
  - intros [= <-]. apply last_comp_split_Some in Hs as (mid & x & Hrev & Hx).
    assert (HS : split_on ch_sep (drop b p) = rev rest ++ x :: rev mid).
    { rewrite <- (rev_involutive (split_on _ _)), Hrev, rev_app_distr. simpl.
      by rewrite <- app_assoc. }
    destruct (trim_rev_suffix rest) as [mid' Hmid'].
    pose proof (f_equal (fun ps => length (unsplit ch_sep ps)) HS) as Hl. simpl in Hl.
    rewrite unsplit_split in Hl.
    pose proof (length_unsplit_app ch_sep (rev rest) (x :: rev mid)) as H1.
    pose proof (length_unsplit_app ch_sep (rev (trim_rev rest)) (rev mid')) as H3.
    rewrite <- rev_app_distr, <- Hmid' in H3.
    pose proof (is_comp_not_nil x Hx) as Hxn. destruct x as [|a x]; [done|].
    pose proof (length_unsplit_app ch_sep [a :: x] (rev mid)) as H2.
    change ([a :: x] ++ rev mid) with ((a :: x) :: rev mid) in H2.
    change (unsplit ch_sep [a :: x]) with (a :: x) in H2. cbn [length] in H2.
    rewrite length_app. rewrite <- (take_drop b p) at 2. rewrite length_app. lia.
  - destruct (is_absolute p) eqn:Ha; [done|]. destruct (include_cur_dir p) eqn:Hc; [|done].
    intros [= <-]. subst b. unfold len_before_body. rewrite Ha, Hc. simpl.
    destruct p; [done|]. simpl. lia.
Qed.

(** ** [join] of one relative component, and its [parent] *)

(** A component to join: not empty, not [.], without separator. *)
Definition rel_comp (c : PathBuf) : Prop := (ch_sep ∉ c) /\ is_comp c = true.

(** The last piece of the path is a component: [parent] removes what
    [join] adds. *)
Definition ends_in_comp (q : PathBuf) : bool :=
  match last (split_on ch_sep q) with
  | Some x => is_comp x
  | None => false
  end.

Lemma is_absolute_no_sep c : ch_sep ∉ c -> is_absolute c = false.
Proof. destruct c as [|x c]; [done|]. intros Hc. apply bool_decide_eq_false. set_solver. Qed.

Lemma join_nil c : ch_sep ∉ c -> join [] c = c.
Proof. intros Hc. unfold join. by rewrite is_absolute_no_sep. Qed.

(** On a non-empty path, [join] writes one separator before [c]: the
    path's own trailing one, or a new one. *)
Lemma join_sep q c :
  ch_sep ∉ c -> q <> [] ->
  exists q0, join q c = q0 ++ ch_sep :: c /\ (q = q0 \/ q = q0 ++ [ch_sep]).
Proof.
  intros Hc Hq. unfold join, need_sep. rewrite is_absolute_no_sep by done.
  destruct (last q) as [x|] eqn:Hl; [|by apply last_None in Hl].
  apply last_Some in Hl as [q0 ->]. case_bool_decide; simpl.
  - subst. exists q0. split; [by rewrite <- app_assoc|by right].
  - exists (q0 ++ [x]). by split; [|left].
Qed.

Lemma comps_join q c :
  q <> [] -> ch_sep ∉ c -> comps (join q c) = comps q ++ comps c.
Proof.
  intros Hq Hc. destruct (join_sep q c Hc Hq) as (q0 & -> & [-> | ->]);
    rewrite comps_app; [done|]. by rewrite comps_snoc_sep.
Qed.

Lemma is_absolute_join q c :
  q <> [] -> ch_sep ∉ c -> is_absolute (join q c) = is_absolute q.
Proof.
  intros Hq Hc. destruct (join_sep q c Hc Hq) as (q0 & -> & [-> | ->]);
    destruct q0; simpl; done.
Qed.

(** Joining a relative component to any path, the empty one included,
    appends that component and keeps the path absolute or relative. *)
Lemma comps_join_comp q c : ch_sep ∉ c -> comps (join q c) = comps q ++ comps c.
Proof. intros Hc. destruct q as [|x q]; [by rewrite join_nil|by apply comps_join]. Qed.

Lemma is_absolute_join_comp q c : ch_sep ∉ c -> is_absolute (join q c) = is_absolute q.
Proof.
  intros Hc. destruct q as [|x q]; [|by apply is_absolute_join].
  rewrite join_nil by done. by apply is_absolute_no_sep.
Qed.

Lemma ends_in_comp_join q c : rel_comp c -> ends_in_comp (join q c) = true.
Proof.
  intros [Hc Hcomp]. unfold ends_in_comp. destruct (decide (q = [])) as [->|Hq].
  - rewrite join_nil, split_on_no_sep by done. by simpl.
  - destruct (join_sep q c Hc Hq) as (q0 & -> & _).
    rewrite split_on_app, (split_on_no_sep _ c), last_app by done. by simpl.
Qed.

Lemma ends_in_comp_nil_dot q : ends_in_comp q = true -> q <> [] /\ q <> [ch_dot].
Proof. intros H. split; intros ->; vm_compute in H; discriminate. Qed.

Lemma need_sep_ends_in_comp q : ends_in_comp q = true -> need_sep q = true.
Proof.
  unfold ends_in_comp, need_sep. intros H.
  destruct (last q) as [x|] eqn:Hl.
  - apply last_Some in Hl as [q' ->]. case_bool_decide; [|done]. subst.
    rewrite split_on_app, last_app in H. by vm_compute in H.
  - apply last_None in Hl as ->. by vm_compute in H.
Qed.

Lemma len_before_body_app q r :
  q <> [] -> q <> [ch_dot] -> len_before_body (q ++ r) = len_before_body q.
Proof.
  intros Hq Hd. unfold len_before_body, include_cur_dir.
  destruct q as [|x [|y q]]; [done| |done]. simpl. destruct r as [|y r]; [done|].
  repeat case_bool_decide; simpl; naive_solver.
Qed.

Lemma len_before_body_le q : len_before_body q <= 1.
Proof.
  unfold len_before_body, include_cur_dir. destruct (is_absolute q); simpl; [lia|].
  repeat case_match; lia.
Qed.

(** The root and a leading [.] are whole pieces: dropping them keeps the
    last piece. *)
Lemma last_split_drop q :
  q <> [ch_dot] ->
  last (split_on ch_sep (drop (len_before_body q) q)) = last (split_on ch_sep q).
Proof.
  intros Hd. unfold len_before_body, include_cur_dir.
  destruct q as [|x r]; [done|]. cbn [is_absolute].
  case_bool_decide as Hx; simpl.
  - subst. rewrite decide_True by done.
    rewrite drop_0. destruct (split_on ch_sep r) eqn:E; [by destruct (split_on_not_nil ch_sep r)|]. by simpl.
  - destruct r as [|y r]; [by rewrite bool_decide_false by (by intros ->)|].
    case_bool_decide as Hxy; [|done]. destruct Hxy as [-> ->]. cbn.
    destruct (split_on ch_sep r) eqn:E; [by destruct (split_on_not_nil ch_sep r)|]. done.
Qed.

(** [parent] undoes the separator and component [join] adds. *)
Lemma parent_sep q c :
  ends_in_comp q = true -> rel_comp c -> parent (q ++ ch_sep :: c) = Some q.
Proof.
  intros Hq [Hc Hcomp]. destruct (ends_in_comp_nil_dot q Hq) as [Hn Hd].
  pose proof (len_before_body_le q) as Hb.
  assert (Hbq : len_before_body q <= length q) by (destruct q; [done|simpl; lia]).
  unfold parent. rewrite len_before_body_app by done.
  rewrite drop_app_le, split_on_app, (split_on_no_sep _ c) by done. rewrite rev_app_distr. simpl.
  rewrite Hcomp. unfold ends_in_comp in Hq. rewrite <- last_split_drop in Hq by done.
  destruct (last (split_on ch_sep (drop _ q))) as [x|] eqn:Hl; [|done].
  apply last_Some in Hl as [S HS]. rewrite HS, rev_app_distr. simpl. rewrite Hq.
  change (rev (x :: rev S)) with (rev (rev S) ++ [x]).
  rewrite rev_involutive.
  rewrite <- HS, unsplit_split, take_app_le by done.
  by rewrite take_drop.
Qed.

Lemma parent_join q c :
  ends_in_comp q = true -> rel_comp c -> parent (join q c) = Some q.
Proof.
  intros Hq Hc. unfold join. rewrite is_absolute_no_sep by apply Hc.
  rewrite need_sep_ends_in_comp by done. by apply parent_sep.
Qed.

(** [path.display()] is a Rust string whatever the bytes of the
    path: what the [List] arm prints is always UTF-8. *)
Theorem display_utf8_valid p : utf8_valid (String.list_ascii_of_string (display p)) = true.
Proof. unfold display. rewrite String.list_ascii_of_string_of_list_ascii. apply utf8_lossy_valid. Qed.

(** [path.display()] is at most three times as long as the path:
    each invalid byte becomes at most one U+FFFD, and a valid path is
    printed with its own bytes. *)
Theorem display_length p :
  length (String.list_ascii_of_string (display p)) <= 3 * length p /\
  (utf8_valid p = true -> display p = String.string_of_list_ascii p).
Proof.
  unfold display. rewrite String.list_ascii_of_string_of_list_ascii.
  split; [apply utf8_lossy_length|]. intros H. by rewrite utf8_valid_lossy.
Qed.
