(* ===== verification/Bookmarks.v ===== *)
(** * Bookmarks: the bookmark collection of [src/main.rs]

    The data of the program ([struct Bookmark], [struct Config]), the
    operations [main] performs on [config.bookmarks] (push, the first-match
    scans by alias with [iter().position] and [iter_mut().find], in-place
    update of the found element, the listing lines), and an abstract
    specification [Spec] of the collection as the spec describes it
    (add-append, remove-first-match, rename-first-match, lookup-first-match)
    with the refinement lemmas that connect the two. *)

From stdpp Require Import base list strings pretty.
From S2P Require Import Prelude Utf8 Paths.

(** [struct Bookmark { alias: String, path: PathBuf }] *)
Record Bookmark := mkBookmark { alias : string; path : PathBuf }.

(** [struct Config { bookmarks: Vec<Bookmark> }] *)
Record Config := mkConfig { bookmarks : list Bookmark }.

#[export] Instance Bookmark_eq_dec : EqDecision Bookmark.
Proof. solve_decision. Defined.
#[export] Instance Config_eq_dec : EqDecision Config.
Proof. solve_decision. Defined.

(** The closure [|bookmark| bookmark.alias == *alias]. *)
Definition alias_is (a : string) (b : Bookmark) : bool := bool_decide (alias b = a).

(** [config.bookmarks.push(bookmark)] *)
Definition push_bookmark (c : Config) (b : Bookmark) : Config :=
  mkConfig (bookmarks c ++ [b]).

(** [config.bookmarks.iter().position(|bookmark| bookmark.alias == *alias)];
    [iter_mut().find(|b| b.alias == *alias)] yields the element at this same
    index, and we model the mutable reference it returns by that index. *)
Definition find_position (a : string) (bs : list Bookmark) : option nat :=
  position (alias_is a) bs.

(** [bookmark.alias = new.clone()] on the element found. *)
Definition set_alias (n : string) (b : Bookmark) : Bookmark :=
  mkBookmark n (path b).

(** The line [println!("{}. Alias: '{}', Path: '{}'", index + 1,
    bookmark.alias, bookmark.path.display())] for the [index]-th element of
    [config.bookmarks.iter().enumerate()]. *)
Definition bookmark_line (index : nat) (b : Bookmark) : string :=
  pretty (index + 1) +:+ ". Alias: '" +:+ alias b +:+ "', Path: '"
    +:+ display (path b) +:+ "'".

(** ** The abstract collection of the specification (section 4.2) *)

Module Spec.
Fixpoint remove_first (a : string) (bs : list Bookmark) : list Bookmark :=
  match bs with
  | [] => []
  | b :: bs' => if alias_is a b then bs' else b :: remove_first a bs'
  end.

Fixpoint rename_first (a n : string) (bs : list Bookmark) : list Bookmark :=
  match bs with
  | [] => []
  | b :: bs' =>
      if alias_is a b then mkBookmark n (path b) :: bs'
      else b :: rename_first a n bs'
  end.

Fixpoint lookup_first (a : string) (bs : list Bookmark) : option Bookmark :=
  match bs with
  | [] => None
  | b :: bs' => if alias_is a b then Some b else lookup_first a bs'
  end.

Definition add (a : string) (p : PathBuf) (bs : list Bookmark) : list Bookmark :=
  bs ++ [mkBookmark a p].

(** The spec's invariant on a bookmark: the alias is never empty. *)
Definition wf_bookmark (b : Bookmark) : bool := bool_decide (alias b <> EmptyString).
Definition wf (bs : list Bookmark) : bool := forallb wf_bookmark bs.
End Spec.

(** ** Lemmas on the scan by alias *)

Lemma alias_is_true a b : alias_is a b = true <-> alias b = a.
Proof. unfold alias_is. by rewrite bool_decide_eq_true. Qed.

Lemma alias_is_false a b : alias_is a b = false <-> alias b <> a.
Proof. unfold alias_is. by rewrite bool_decide_eq_false. Qed.

Lemma find_position_cons a b bs :
  find_position a (b :: bs) =
    if alias_is a b then Some 0 else S <$> find_position a bs.
Proof. reflexivity. Qed.

Lemma find_position_None_spec a bs :
  find_position a bs = None -> Spec.lookup_first a bs = None.
Proof.
  induction bs as [|b bs IH]; [done|]. rewrite find_position_cons. simpl.
  destruct (alias_is a b); [done|]. destruct (find_position a bs); [done|]. auto.
Qed.

Lemma find_position_lookup a bs i :
  find_position a bs = Some i -> bs !! i = Spec.lookup_first a bs.
Proof.
  revert i. induction bs as [|b bs IH]; intros i; [done|].
  rewrite find_position_cons. simpl. destruct (alias_is a b).
  - by intros [= <-].
  - destruct (find_position a bs) as [j|] eqn:Hj; intros [= <-]. by apply IH.
Qed.

(** Removing the element at the found index is removing the first match. *)
Lemma vec_remove_find_position a bs i :
  find_position a bs = Some i -> vec_remove i bs = Some (Spec.remove_first a bs).
Proof.
  revert i. induction bs as [|b bs IH]; intros i; [done|].
  rewrite find_position_cons. simpl. destruct (alias_is a b).
  - by intros [= <-].
  - destruct (find_position a bs) as [j|] eqn:Hj; intros [= <-]. simpl.
    by rewrite (IH j).
Qed.

(** Updating the alias of the found element is renaming the first match. *)
Lemma alter_find_position a n bs i :
  find_position a bs = Some i -> alter (set_alias n) i bs = Spec.rename_first a n bs.
Proof.
  revert i. induction bs as [|b bs IH]; intros i; [done|].
  rewrite find_position_cons. simpl. destruct (alias_is a b).
  - by intros [= <-].
  - destruct (find_position a bs) as [j|] eqn:Hj; intros [= <-]. simpl.
    by rewrite <- (IH j).
Qed.

Lemma remove_first_not_found a bs :
  find_position a bs = None -> Spec.remove_first a bs = bs.
Proof.
  induction bs as [|b bs IH]; [done|]. rewrite find_position_cons. simpl.
  destruct (alias_is a b); [done|]. destruct (find_position a bs); [done|].
  intros _. by rewrite IH.
Qed.

Lemma rename_first_not_found a n bs :
  find_position a bs = None -> Spec.rename_first a n bs = bs.
Proof.
  induction bs as [|b bs IH]; [done|]. rewrite find_position_cons. simpl.
  destruct (alias_is a b); [done|]. destruct (find_position a bs); [done|].
  intros _. by rewrite IH.
Qed.

Lemma find_position_app_l a bs1 bs2 i :
  find_position a bs1 = Some i -> find_position a (bs1 ++ bs2) = Some i.
Proof.
  revert i. induction bs1 as [|b bs IH]; intros i; [done|].
  cbn [app]. rewrite !find_position_cons. destruct (alias_is a b); [by intros|].
  destruct (find_position a bs) as [j|] eqn:Hj; intros [= <-]. by rewrite (IH j).
Qed.

(** C8: The [Remove] arm's list operation ([position], then [Vec::remove] at
    the index found, or nothing) is the specification's remove-first-match,
    and [Vec::remove] is never called out of range. *)
Theorem remove_by_position_refines a bs :
  match find_position a bs with
  | Some index => vec_remove index bs
  | None => Some bs
  end = Some (Spec.remove_first a bs).
Proof.
  destruct (find_position a bs) as [i|] eqn:Hi.
  - by apply vec_remove_find_position.
  - by rewrite remove_first_not_found.
Qed.

(** C9: The [Edit] arm's list operation ([iter_mut().find], then assignment of
    the alias) is the specification's rename-first-match in place. *)
Theorem rename_by_position_refines a n bs :
  match find_position a bs with
  | Some index => alter (set_alias n) index bs
  | None => bs
  end = Spec.rename_first a n bs.
Proof.
  destruct (find_position a bs) as [i|] eqn:Hi.
  - by apply alter_find_position.
  - by rewrite rename_first_not_found.
Qed.


(** ** The operations keep every property of the bookmarks *)

Section BookmarkProperty.
Context (P : Bookmark -> Prop).

Lemma remove_first_Forall a bs : Forall P bs -> Forall P (Spec.remove_first a bs).
Proof.
  induction 1 as [|b bs Hb Hbs IH]; simpl; [done|].
  destruct (alias_is a b); [done|]. by constructor.
Qed.

Lemma rename_first_Forall a n bs :
  (forall b, P b -> P (mkBookmark n (path b))) -> Forall P bs -> Forall P (Spec.rename_first a n bs).
Proof.
  intros HP. induction 1 as [|b bs Hb Hbs IH]; simpl; [done|].
  destruct (alias_is a b); constructor; auto.
Qed.

Lemma add_Forall a p bs : Forall P bs -> P (mkBookmark a p) -> Forall P (Spec.add a p bs).
Proof. intros Hbs Hp. unfold Spec.add. apply Forall_app. by split; [|constructor]. Qed.
End BookmarkProperty.

(** ** Removing the first match, repeatedly *)

Lemma remove_first_without a bs :
  filter (fun b => alias b <> a) (Spec.remove_first a bs) = filter (fun b => alias b <> a) bs.
Proof.
  induction bs as [|b bs IH]; [done|]. simpl. rewrite filter_cons.
  destruct (alias_is a b) eqn:Hb.
  - apply alias_is_true in Hb. by rewrite decide_False by auto.
  - rewrite filter_cons, IH. done.
Qed.

Lemma remove_first_with a bs k :
  length (filter (fun b => alias b = a) bs) = S k ->
  length (filter (fun b => alias b = a) (Spec.remove_first a bs)) = k.
Proof.
  revert k. induction bs as [|b bs IH]; intros k; [done|]. simpl. rewrite filter_cons.
  destruct (alias_is a b) eqn:Hb.
  - apply alias_is_true in Hb. rewrite decide_True by done. simpl. lia.
  - apply alias_is_false in Hb. rewrite filter_cons, !decide_False by done. apply IH.
Qed.

Lemma without_alias_all a bs :
  length (filter (fun b => alias b = a) bs) = 0 -> filter (fun b => alias b <> a) bs = bs.
Proof.
  induction bs as [|b bs IH]; [done|]. rewrite !filter_cons. intros Hl.
  case_decide; [done|]. rewrite decide_True by done. f_equal. by apply IH.
Qed.

(** An alias no bookmark has yet, once added, is found at the end, and
    removing its first match gives the list back. *)
Lemma find_position_add a p bs :
  Forall (fun b => alias b <> a) bs -> find_position a (Spec.add a p bs) = Some (length bs).
Proof.
  unfold Spec.add. induction 1 as [|b bs Hb _ IH]; cbn [app length]; rewrite find_position_cons.
  - by rewrite (proj2 (alias_is_true _ _)).
  - rewrite (proj2 (alias_is_false _ _)) by done. by rewrite IH.
Qed.

Lemma remove_first_add a p bs :
  Forall (fun b => alias b <> a) bs -> Spec.remove_first a (Spec.add a p bs) = bs.
Proof.
  unfold Spec.add. induction 1 as [|b bs Hb _ IH]; simpl.
  - by rewrite (proj2 (alias_is_true _ _)).
  - rewrite (proj2 (alias_is_false _ _)) by done. by rewrite IH.
Qed.
