(* ===== verification/FileSys.v ===== *)
(** * FileSys: the process environment pomelo runs in

    A model of the library calls of [src/main.rs] that touch the world:
    [dirs::home_dir], [env::current_dir], [fs::read_to_string],
    [Path::exists], [fs::create_dir_all] (with [fs::create_dir] and
    [Path::is_dir], the calls it makes), [File::create], [write_all] and
    [println!].  The world is a record: what [dirs::home_dir] returns, the
    working directory (unavailable when it was removed), a file system of
    directories ([gset Loc]) and regular files with their bytes
    ([gmap Loc string]), the locations the process may not read or create,
    whether the disk is full, and the lines printed so far.

    A path is resolved as the kernel does: [locate] walks the lookups of
    the path ([Paths.comps]) from the root or the working directory, and
    every directory it descends from must exist ([NotFound]) and be a
    directory ([NotADirectory]); the last name need not exist.  A path
    with a NUL byte is refused before any system call ([InvalidInput]).
    [fs::create_dir_all] is the standard library's recursive algorithm:
    [create_dir] the path; on [NotFound] create its [parent()] first and
    retry; an error is forgiven when the path is then a directory. *)

From stdpp Require Import base list gmap strings.
From Stdlib Require Import Ascii.
From S2P Require Import Prelude Utf8 Paths.

(** The [std::io::ErrorKind]s the calls can fail with. *)
Inductive io_error :=
  | NotFound
  | PermissionDenied
  | AlreadyExists
  | IsADirectory
  | NotADirectory
  | StorageFull
  | InvalidData
  | InvalidInput
  | Uncategorized.

Record World := mkWorld {
  w_home : option PathBuf;
  w_cwd : option Loc;
  w_dirs : gset Loc;
  w_files : gmap Loc string;
  w_denied : gset Loc;
  w_nospace : bool;
  w_stdout : list string;
}.

Definition set_dirs (d : gset Loc) (w : World) : World :=
  mkWorld (w_home w) (w_cwd w) d (w_files w) (w_denied w) (w_nospace w) (w_stdout w).
Definition set_files (f : gmap Loc string) (w : World) : World :=
  mkWorld (w_home w) (w_cwd w) (w_dirs w) f (w_denied w) (w_nospace w) (w_stdout w).
Definition set_stdout (o : list string) (w : World) : World :=
  mkWorld (w_home w) (w_cwd w) (w_dirs w) (w_files w) (w_denied w) (w_nospace w) o.

Arguments set_dirs : simpl never.
Arguments set_files : simpl never.
Arguments set_stdout : simpl never.

Abbreviation IO := (Exec World).

(** ** Path resolution *)

(** One lookup from the directory [l]. *)
Definition descend (w : World) (l : Loc) (c : comp) : result Loc io_error :=
  if decide (l ∈ w_dirs w) then Ok (step_loc l c)
  else if decide (is_Some (w_files w !! l)) then Err NotADirectory
  else Err NotFound.

Fixpoint walk (w : World) (l : Loc) (cs : list comp) : result Loc io_error :=
  match cs with
  | [] => Ok l
  | c :: cs' =>
      match descend w l c with
      | Ok l' => walk w l' cs'
      | Err e => Err e
      end
  end.

Definition ch_nul : ascii := "000".

Definition locate (w : World) (p : PathBuf) : result Loc io_error :=
  if decide (ch_nul ∈ p) then Err InvalidInput
  else if decide (p = []) then Err NotFound
  else if is_absolute p then walk w [] (comps p)
  else match w_cwd w with
       | Some l => walk w l (comps p)
       | None => Err NotFound
       end.

(** ** The library calls *)

(** [dirs::home_dir()] *)
Definition home_dir : IO (option PathBuf) := fun w => (Done (w_home w), w).

(** [env::current_dir()]: [getcwd]. *)
Definition current_dir : IO (result PathBuf io_error) :=
  fun w => (Done (match w_cwd w with Some l => Ok (loc_path l) | None => Err NotFound end), w).

(** What [fs::read_to_string(p)] returns: the bytes of a regular file,
    when they are UTF-8. *)
Definition read_file (w : World) (p : PathBuf) : result string io_error :=
  match locate w p with
  | Err e => Err e
  | Ok l =>
      if decide (l ∈ w_denied w) then Err PermissionDenied
      else match w_files w !! l with
           | Some s =>
               if utf8_valid (String.list_ascii_of_string s) then Ok s
               else Err InvalidData
           | None => if decide (l ∈ w_dirs w) then Err IsADirectory else Err NotFound
           end
  end.

(** [fs::read_to_string(p)] *)
Definition read_to_string (p : PathBuf) : IO (result string io_error) :=
  fun w => (Done (read_file w p), w).

(** [p.exists()]: [fs::metadata(p).is_ok()]. *)
Definition path_exists (p : PathBuf) : IO bool :=
  fun w =>
    (Done (match locate w p with
           | Ok l => bool_decide (l ∈ w_dirs w \/ is_Some (w_files w !! l))
           | Err _ => false
           end), w).

(** [p.is_dir()] *)
Definition is_dir (p : PathBuf) : IO bool :=
  fun w => (Done (match locate w p with Ok l => bool_decide (l ∈ w_dirs w) | Err _ => false end), w).

(** [fs::create_dir(p)]: [mkdir]. *)
Definition create_dir (p : PathBuf) : IO (result unit io_error) :=
  fun w =>
    match locate w p with
    | Err e => (Done (Err e), w)
    | Ok l =>
        if decide (l ∈ w_dirs w \/ is_Some (w_files w !! l)) then (Done (Err AlreadyExists), w)
        else if decide (l ∈ w_denied w) then (Done (Err PermissionDenied), w)
        else (Done (Ok tt), set_dirs ({[l]} ∪ w_dirs w) w)
    end.

(** An error of [create_dir] is forgiven when [p] is a directory. *)
Definition ok_if_dir (p : PathBuf) (e : io_error) : IO (result unit io_error) :=
  d ← is_dir p; mret (if d : bool then Ok tt else Err e).

(** [fs::create_dir_all(p)] ([DirBuilder::create_dir_all]):
    {v
    if path == Path::new(<empty string>) { return Ok(()) }
    match self.inner.mkdir(path) {
        Ok(()) => return Ok(()),
        Err(ref e) if e.kind() == io::ErrorKind::NotFound => {}
        Err(_) if path.is_dir() => return Ok(()),
        Err(e) => return Err(e),
    }
    match path.parent() {
        Some(p) => self.create_dir_all(p)?,
        None => return Err(.. "failed to create whole tree"),
    }
    match self.inner.mkdir(path) {
        Ok(()) => Ok(()),
        Err(_) if path.is_dir() => Ok(()),
        Err(e) => Err(e),
    }
    v}
    The recursion is on [parent()], which is shorter ([parent_shorter]):
    [S (length p)] units of fuel are enough ([create_dir_all_fuel_enough]). *)
Fixpoint create_dir_all_fuel (fuel : nat) (p : PathBuf) : IO (result unit io_error) :=
  match fuel with
  | 0 => mret (Err Uncategorized)
  | S f =>
      if decide (p = []) then mret (Ok tt) else
      r ← create_dir p;
      match r with
      | Ok _ => mret (Ok tt)
      | Err NotFound =>
          match parent p with
          | Some q =>
              r' ← create_dir_all_fuel f q;
              match r' with
              | Err e => mret (Err e)
              | Ok _ =>
                  r'' ← create_dir p;
                  match r'' with
                  | Ok _ => mret (Ok tt)
                  | Err e => ok_if_dir p e
                  end
              end
          | None => mret (Err Uncategorized)
          end
      | Err e => ok_if_dir p e
      end
  end.

Definition create_dir_all (p : PathBuf) : IO (result unit io_error) :=
  create_dir_all_fuel (S (length p)) p.

(** [File::create(p)]: [open] with [O_WRONLY | O_CREAT | O_TRUNC]; the
    file is created or truncated to the empty file.  A path ending with a
    separator, [.] or [..] names a directory.  The handle is modelled by
    the location it writes. *)
Definition file_create (p : PathBuf) : IO (result Loc io_error) :=
  fun w =>
    match locate w p with
    | Err e => (Done (Err e), w)
    | Ok l =>
        if decide (l ∈ w_dirs w) then (Done (Err IsADirectory), w)
        else if negb (ends_in_comp p) then (Done (Err IsADirectory), w)
        else if decide (l ∈ w_denied w) then (Done (Err PermissionDenied), w)
        else (Done (Ok l), set_files (<[l := EmptyString]> (w_files w)) w)
    end.

(** [file.write_all(bytes)] on a handle returned by [File::create]: the
    file receives the bytes, unless the disk is full. *)
Definition write_all (h : Loc) (s : string) : IO (result unit io_error) :=
  fun w =>
    if w_nospace w then (Done (Err StorageFull), w)
    else (Done (Ok tt), set_files (<[h := s]> (w_files w)) w).

(** [println!]: one more line on standard output. *)
Definition println (line : string) : IO unit :=
  fun w => (Done tt, set_stdout (w_stdout w ++ [line]) w).

(** ** Well-formed worlds: a tree of directories holding files, a working
    directory that is one of them, and names the kernel accepts. *)

Definition names_ok (l : Loc) : Prop := Forall (fun s => valid_name s = true) l.

Definition wf_world (w : World) : Prop :=
  [] ∈ w_dirs w /\
  (forall l, l ∈ w_dirs w -> removelast l ∈ w_dirs w /\ names_ok l) /\
  (forall l s, w_files w !! l = Some s -> l <> [] /\ removelast l ∈ w_dirs w /\ names_ok l) /\
  (forall l, l ∈ w_dirs w -> w_files w !! l = None) /\
  (forall l, w_cwd w = Some l -> l ∈ w_dirs w).

Arguments locate : simpl never.
Arguments read_file : simpl never.

(** ** Evaluating [IO] programs *)

(** Unfold the monad and the primitives, leaving [decide]s on the world. *)
Ltac io_norm :=
  cbv [run mbind exec_bind mret exec_ret expect expect_some panic
       home_dir current_dir read_to_string path_exists is_dir create_dir ok_if_dir
       file_create write_all println] in *; cbn in *.

(** Resolve the [decide]s whose condition or its negation is a hypothesis. *)
Ltac decide_by_hyps :=
  repeat first [ rewrite decide_True by (first [done | tauto])
               | rewrite decide_False by (first [done | tauto]) ]; cbn.

Lemma set_dirs_set_dirs d1 d2 w : set_dirs d2 (set_dirs d1 w) = set_dirs d2 w.
Proof. by destruct w. Qed.
Lemma set_dirs_id w : set_dirs (w_dirs w) w = w.
Proof. by destruct w. Qed.
Lemma set_stdout_id w : set_stdout (w_stdout w) w = w.
Proof. by destruct w. Qed.
Lemma set_files_set_dirs f d w : set_files f (set_dirs d w) = set_dirs d (set_files f w).
Proof. by destruct w. Qed.
Lemma set_files_set_files f1 f2 w : set_files f2 (set_files f1 w) = set_files f2 w.
Proof. by destruct w. Qed.

(** The fields a setter leaves alone, for [autorewrite]. *)
Section Projections.
Context (d : gset Loc) (f : gmap Loc string) (o : list string) (w : World).
Lemma w_home_set_dirs : w_home (set_dirs d w) = w_home w. Proof. by destruct w. Qed.
Lemma w_cwd_set_dirs : w_cwd (set_dirs d w) = w_cwd w. Proof. by destruct w. Qed.
Lemma w_dirs_set_dirs : w_dirs (set_dirs d w) = d. Proof. by destruct w. Qed.
Lemma w_files_set_dirs : w_files (set_dirs d w) = w_files w. Proof. by destruct w. Qed.
Lemma w_denied_set_dirs : w_denied (set_dirs d w) = w_denied w. Proof. by destruct w. Qed.
Lemma w_nospace_set_dirs : w_nospace (set_dirs d w) = w_nospace w. Proof. by destruct w. Qed.
Lemma w_stdout_set_dirs : w_stdout (set_dirs d w) = w_stdout w. Proof. by destruct w. Qed.
Lemma w_home_set_files : w_home (set_files f w) = w_home w. Proof. by destruct w. Qed.
Lemma w_cwd_set_files : w_cwd (set_files f w) = w_cwd w. Proof. by destruct w. Qed.
Lemma w_dirs_set_files : w_dirs (set_files f w) = w_dirs w. Proof. by destruct w. Qed.
Lemma w_files_set_files : w_files (set_files f w) = f. Proof. by destruct w. Qed.
Lemma w_denied_set_files : w_denied (set_files f w) = w_denied w. Proof. by destruct w. Qed.
Lemma w_nospace_set_files : w_nospace (set_files f w) = w_nospace w. Proof. by destruct w. Qed.
Lemma w_stdout_set_files : w_stdout (set_files f w) = w_stdout w. Proof. by destruct w. Qed.
Lemma w_home_set_stdout : w_home (set_stdout o w) = w_home w. Proof. by destruct w. Qed.
Lemma w_cwd_set_stdout : w_cwd (set_stdout o w) = w_cwd w. Proof. by destruct w. Qed.
Lemma w_dirs_set_stdout : w_dirs (set_stdout o w) = w_dirs w. Proof. by destruct w. Qed.
Lemma w_files_set_stdout : w_files (set_stdout o w) = w_files w. Proof. by destruct w. Qed.
Lemma w_denied_set_stdout : w_denied (set_stdout o w) = w_denied w. Proof. by destruct w. Qed.
Lemma w_nospace_set_stdout : w_nospace (set_stdout o w) = w_nospace w. Proof. by destruct w. Qed.
Lemma w_stdout_set_stdout : w_stdout (set_stdout o w) = o. Proof. by destruct w. Qed.
End Projections.

#[export] Hint Rewrite set_dirs_set_dirs set_dirs_id set_files_set_dirs set_files_set_files
  w_dirs_set_dirs w_files_set_dirs w_home_set_dirs w_cwd_set_dirs w_denied_set_dirs
  w_nospace_set_dirs w_stdout_set_dirs w_home_set_files w_cwd_set_files w_dirs_set_files
  w_files_set_files w_denied_set_files w_nospace_set_files w_stdout_set_files
  w_home_set_stdout w_cwd_set_stdout w_dirs_set_stdout w_files_set_stdout
  w_denied_set_stdout w_nospace_set_stdout w_stdout_set_stdout : pomelo_exec.

(** ** Path resolution *)

Lemma walk_app w l cs1 cs2 :
  walk w l (cs1 ++ cs2) = match walk w l cs1 with Ok l' => walk w l' cs2 | Err e => Err e end.
Proof.
  revert l. induction cs1 as [|c cs1 IH]; intros l; [done|]. simpl.
  destruct (descend w l c); [apply IH|done].
Qed.

Lemma walk_snoc w l cs c :
  walk w l (cs ++ [c]) = match walk w l cs with Ok l' => descend w l' c | Err e => Err e end.
Proof. rewrite walk_app. destruct (walk w l cs) as [l'|]; [|done]. simpl. by destruct (descend _ _ _). Qed.

Lemma descend_Ok w l c l' : descend w l c = Ok l' -> l ∈ w_dirs w /\ l' = step_loc l c.
Proof. unfold descend. by repeat case_decide; intros; simplify_eq. Qed.

(** Resolution reads the directories, the files and the working
    directory only. *)
Lemma walk_ext w w' l cs :
  w_dirs w = w_dirs w' -> w_files w = w_files w' -> walk w l cs = walk w' l cs.
Proof.
  intros Hd Hf. revert l. induction cs as [|c cs IH]; intros l; [done|]. simpl.
  unfold descend. rewrite Hd, Hf. repeat case_decide; auto.
Qed.

Lemma locate_ext w w' p :
  w_dirs w = w_dirs w' -> w_files w = w_files w' -> w_cwd w = w_cwd w' ->
  locate w p = locate w' p.
Proof.
  intros Hd Hf Hc. unfold locate. rewrite Hc.
  repeat case_decide; try done; repeat case_match; try done; by apply walk_ext.
Qed.

Lemma read_file_set_stdout o w p : read_file (set_stdout o w) p = read_file w p.
Proof.
  unfold read_file. rewrite (locate_ext (set_stdout o w) w) by (by destruct w).
  by destruct w.
Qed.

(** Resolution only needs directories: more of them resolve as much. *)
Lemma walk_mono w w' l cs l' :
  w_dirs w ⊆ w_dirs w' -> walk w l cs = Ok l' -> walk w' l cs = Ok l'.
Proof.
  intros Hsub. revert l. induction cs as [|c cs IH]; intros l; [done|]. simpl.
  destruct (descend w l c) as [l1|] eqn:Hd; [|done].
  apply descend_Ok in Hd as [Hl ->]. unfold descend at 1. rewrite decide_True by set_solver.
  apply IH.
Qed.

Lemma locate_mono w w' p l :
  w_dirs w ⊆ w_dirs w' -> w_cwd w' = w_cwd w -> locate w p = Ok l -> locate w' p = Ok l.
Proof.
  intros Hsub Hcwd. unfold locate. rewrite Hcwd.
  repeat case_decide; try done. case_match; [by apply walk_mono|].
  case_match; [by apply walk_mono|done].
Qed.

(** The pieces of a path hold no separator, and only bytes of the path. *)
Lemma split_on_elem sep l x :
  x ∈ split_on sep l -> (sep ∉ x) /\ (forall a, a ∈ x -> a ∈ l).
Proof.
  revert x. induction l as [|c l IH]; intros x; simpl.
  - intros ->%list_elem_of_singleton. set_solver.
  - case_decide.
    + intros [->|Hx%IH]%elem_of_cons; [set_solver|]. set_solver.
    + destruct (split_on sep l) as [|y ys] eqn:E; [by destruct (split_on_not_nil sep l)|].
      intros [->|Hx]%elem_of_cons.
      * destruct (IH y) as [Hy Hyl]; [by left|]. split; [set_solver|].
        intros a [->|Ha]%elem_of_cons; [by left|]. right. by apply Hyl.
      * destruct (IH x) as [Hx1 Hx2]; [by right|]. split; [done|].
        intros a Ha. right. by apply Hx2.
Qed.

(** A name looked up by a path without NUL is a valid name. *)
Lemma comps_valid_name p s :
  ch_nul ∉ p -> CNormal s ∈ comps p -> valid_name s = true.
Proof.
  intros Hnul Hs. unfold comps in Hs. apply list_elem_of_omap in Hs as (x & Hx & Hf).
  destruct (is_comp x) eqn:Hc; [|done]. case_decide; [done|]. injection Hf as <-.
  destruct (split_on_elem _ _ _ Hx) as [Hsep Hsub].
  unfold valid_name. rewrite String.list_ascii_of_string_of_list_ascii, Hc.
  rewrite bool_decide_false by done. rewrite bool_decide_false by done. simpl.
  rewrite bool_decide_false; [done|]. intros Hn. by apply Hnul, Hsub.
Qed.

(** What a well-formed world resolves a path to: an existing directory,
    or a valid name in one. *)
Lemma locate_shape w p l :
  wf_world w -> locate w p = Ok l ->
  l ∈ w_dirs w \/ exists l0 s, l = l0 ++ [s] /\ l0 ∈ w_dirs w /\ valid_name s = true.
Proof.
  intros (Hroot & Hdirs & _ & _ & Hcwd) Hl. unfold locate in Hl.
  case_decide as Hnul; [done|]. case_decide; [done|].
  assert (exists l1, l1 ∈ w_dirs w /\ walk w l1 (comps p) = Ok l) as (l1 & Hl1 & Hw).
  { destruct (is_absolute p); [by exists []|].
    destruct (w_cwd w) as [c|] eqn:Hc; [|done]. exists c. split; [by apply Hcwd|done]. }
  remember (comps p) as cs eqn:Ecs.
  destruct cs as [|c cs _] using rev_ind; [left; by injection Hw as <-|].
  rewrite walk_snoc in Hw. destruct (walk w l1 cs) as [l0|]; [|done].
  apply descend_Ok in Hw as [Hl0 ->]. destruct c as [s|]; simpl.
  - right. exists l0, s. split_and!; [done|done|]. apply (comps_valid_name p s Hnul).
    rewrite <- Ecs. set_solver.
  - left. by apply Hdirs.
Qed.

Lemma comps_rel_comp c :
  rel_comp c -> c <> [ch_dot; ch_dot] -> comps c = [CNormal (String.string_of_list_ascii c)].
Proof.
  intros [Hc Hcomp] Hdd. unfold comps. rewrite split_on_no_sep by done. simpl.
  rewrite Hcomp. by rewrite decide_False.
Qed.

(** Resolving [join q c] is resolving [q], then looking [c] up in it. *)
Lemma locate_join w q c :
  q <> [] -> rel_comp c -> ch_nul ∉ c -> c <> [ch_dot; ch_dot] ->
  locate w (join q c) =
    match locate w q with
    | Ok l => descend w l (CNormal (String.string_of_list_ascii c))
    | Err e => Err e
    end.
Proof.
  intros Hq Hc Hnul Hdd. pose proof Hc as [Hsep _].
  destruct (join_sep q c Hsep Hq) as (q0 & Hj & Hq0).
  assert (ch_nul ∈ join q c <-> ch_nul ∈ q) as Hiff.
  { assert (ch_nul <> ch_sep) by done.
    rewrite Hj. destruct Hq0 as [-> | ->]; set_solver. }
  assert (join q c <> []) by (rewrite Hj; by destruct q0).
  unfold locate. rewrite is_absolute_join, comps_join, (comps_rel_comp c) by done.
  case_decide; [rewrite decide_True by tauto; done|]. rewrite decide_False by tauto.
  rewrite !decide_False by (done || tauto).
  destruct (is_absolute q); [by rewrite walk_snoc|].
  destruct (w_cwd w); [by rewrite walk_snoc|done].
Qed.

(** ** Creating directories *)

Lemma wf_world_add_dir w l0 s :
  wf_world w -> l0 ∈ w_dirs w -> valid_name s = true -> w_files w !! (l0 ++ [s]) = None ->
  wf_world (set_dirs ({[l0 ++ [s]]} ∪ w_dirs w) w).
Proof.
  intros (Hroot & Hdirs & Hfiles & Hdisj & Hcwd) Hl0 Hs Hnf.
  unfold wf_world. autorewrite with pomelo_exec. split_and!.
  - set_solver.
  - intros l [->%elem_of_singleton | Hl]%elem_of_union.
    + rewrite removelast_last. split; [set_solver|].
      apply Forall_app. split; [by apply Hdirs|by constructor].
    + destruct (Hdirs l Hl). split; [set_solver|done].
  - intros l s' Hf. destruct (Hfiles l s' Hf) as (? & ? & ?). split_and!; [done|set_solver|done].
  - intros l [->%elem_of_singleton | Hl]%elem_of_union; auto.
  - intros l Hl. apply elem_of_union_r. auto.
Qed.

(** [create_dir] on a well-formed world only adds a directory, keeps the
    world well formed, and on success [p] resolves to a directory. *)
Lemma create_dir_wf p w :
  wf_world w ->
  exists r ds, run (create_dir p) w = (Done r, set_dirs ds w) /\ w_dirs w ⊆ ds /\
          wf_world (set_dirs ds w) /\ (r = Ok tt -> exists l, locate w p = Ok l /\ l ∈ ds).
Proof.
  intros Hwf. unfold run, create_dir.
  destruct (locate w p) as [l|e] eqn:Hl;
    [|exists (Err e), (w_dirs w); rewrite set_dirs_id; naive_solver].
  case_decide; [exists (Err AlreadyExists), (w_dirs w); rewrite set_dirs_id; naive_solver|].
  case_decide; [exists (Err PermissionDenied), (w_dirs w); rewrite set_dirs_id; naive_solver|].
  exists (Ok tt), ({[l]} ∪ w_dirs w). split_and!; [done|set_solver| |set_solver].
  destruct (locate_shape w p l Hwf Hl) as [Hd | (l0 & s & -> & Hl0 & Hs)]; [naive_solver|].
  apply wf_world_add_dir; [done|done|done|]. apply eq_None_not_Some. naive_solver.
Qed.

Lemma run_ok_if_dir p e w :
  run (ok_if_dir p e) w =
    (Done (match locate w p with
           | Ok l => if decide (l ∈ w_dirs w) then Ok tt else Err e
           | Err _ => Err e
           end), w).
Proof. unfold ok_if_dir. io_norm. destruct (locate w p); [|done]. by case_bool_decide; case_decide. Qed.

Lemma ok_if_dir_spec p e w :
  exists r, run (ok_if_dir p e) w = (Done r, w) /\
    (r = Ok tt -> exists l, locate w p = Ok l /\ l ∈ w_dirs w).
Proof.
  rewrite run_ok_if_dir. eexists. split; [done|].
  destruct (locate w p) as [l|]; [|done]. case_decide; naive_solver.
Qed.

(** [create_dir_all] with any fuel, on a well-formed world: it only adds
    directories, keeps the world well formed, and on success the path
    resolves to a directory. *)
Lemma create_dir_all_fuel_wf f p w :
  wf_world w ->
  exists r ds, run (create_dir_all_fuel f p) w = (Done r, set_dirs ds w) /\ w_dirs w ⊆ ds /\
    wf_world (set_dirs ds w) /\
    (r = Ok tt -> p <> [] -> exists l, locate (set_dirs ds w) p = Ok l /\ l ∈ ds).
Proof.
  revert p w. induction f as [|f IH]; intros p w Hwf.
  { exists (Err Uncategorized), (w_dirs w). rewrite set_dirs_id. naive_solver. }
  cbn [create_dir_all_fuel]. case_decide as Hp.
  { exists (Ok tt), (w_dirs w). rewrite set_dirs_id. naive_solver. }
  (* The forgiving branch, in a world reached by [create_dir]. *)
  assert (Hforgive : forall e ds, w_dirs w ⊆ ds -> wf_world (set_dirs ds w) ->
    exists r ds', run (ok_if_dir p e) (set_dirs ds w) = (Done r, set_dirs ds' w) /\
      w_dirs w ⊆ ds' /\ wf_world (set_dirs ds' w) /\
      (r = Ok tt -> p <> [] -> exists l, locate (set_dirs ds' w) p = Ok l /\ l ∈ ds')).
  { intros e ds Hsub Hwf'. destruct (ok_if_dir_spec p e (set_dirs ds w)) as (r & Hr & Hok).
    exists r, ds. rewrite Hr. autorewrite with pomelo_exec in Hok. naive_solver. }
  destruct (create_dir_wf p w Hwf) as (r & ds1 & Hr & Hsub1 & Hwf1 & Hok1).
  rewrite run_bind, Hr. destruct r as [[]|e].
  { exists (Ok tt), ds1. split_and!; [done|done|done|]. intros _ _.
    destruct Hok1 as (l & Hl & Hin); [done|]. exists l. split; [|done].
    eapply locate_mono; [| |exact Hl]; by autorewrite with pomelo_exec. }
  destruct e; try (apply Hforgive; done).
  destruct (parent p) as [q|]; [|exists (Err Uncategorized), ds1; naive_solver].
  destruct (IH q (set_dirs ds1 w) Hwf1) as (r2 & ds2 & Hr2 & Hsub2 & Hwf2 & _).
  autorewrite with pomelo_exec in *. rewrite Hr2. destruct r2 as [[]|e2];
    [|exists (Err e2), ds2; split_and!; [done|set_solver|done|done]].
  destruct (create_dir_wf p (set_dirs ds2 w) Hwf2) as (r3 & ds3 & Hr3 & Hsub3 & Hwf3 & Hok3).
  autorewrite with pomelo_exec in *. rewrite Hr3. destruct r3 as [[]|e3].
  - exists (Ok tt), ds3. split_and!; [done|set_solver|done|]. intros _ _.
    destruct Hok3 as (l & Hl & Hin); [done|]. exists l. split; [|done].
    eapply locate_mono; [| |exact Hl]; by autorewrite with pomelo_exec.
  - apply Hforgive; [set_solver|done].
Qed.

Lemma create_dir_all_fuel_irrel f1 f2 p w :
  length p < f1 -> length p < f2 ->
  run (create_dir_all_fuel f1 p) w = run (create_dir_all_fuel f2 p) w.
Proof.
  revert f2 p w. induction f1 as [|f1 IH]; intros [|f2] p w H1 H2; try lia.
  cbn [create_dir_all_fuel]. case_decide; [done|]. rewrite !run_bind.
  destruct (run (create_dir p) w) as [[[[]|e]|m] w1]; try done. destruct e; try done.
  destruct (parent p) as [q|] eqn:Hq; [|done]. apply parent_shorter in Hq.
  rewrite !run_bind, (IH f2 q w1) by lia. done.
Qed.

(** [create_dir_all] terminates: it recurses on [parent()], which is
    shorter, so any fuel above the length of the path gives the same run
    as [create_dir_all], and the fuel never runs out. *)
Theorem create_dir_all_fuel_enough f p w :
  length p < f -> run (create_dir_all_fuel f p) w = run (create_dir_all p) w.
Proof. intros Hf. apply create_dir_all_fuel_irrel; lia. Qed.

(** [fs::create_dir_all(p)] on a well-formed world only adds
    directories, keeps the world well formed, and when it succeeds on a
    non-empty path, the path resolves to a directory. *)
Theorem create_dir_all_spec p w :
  wf_world w ->
  exists r ds, run (create_dir_all p) w = (Done r, set_dirs ds w) /\ w_dirs w ⊆ ds /\
    wf_world (set_dirs ds w) /\
    (r = Ok tt -> p <> [] -> exists l, locate (set_dirs ds w) p = Ok l /\ l ∈ ds).
Proof. apply create_dir_all_fuel_wf. Qed.

(** On any world, creating directories only adds directories. *)
Lemma create_dir_frame p w :
  exists r ds, run (create_dir p) w = (Done r, set_dirs ds w) /\ w_dirs w ⊆ ds.
Proof.
  unfold run, create_dir. destruct (locate w p) as [l|e];
    [|exists (Err e), (w_dirs w); by rewrite set_dirs_id].
  case_decide; [exists (Err AlreadyExists), (w_dirs w); by rewrite set_dirs_id|].
  case_decide; [exists (Err PermissionDenied), (w_dirs w); by rewrite set_dirs_id|].
  exists (Ok tt), ({[l]} ∪ w_dirs w). split; [done|set_solver].
Qed.

Lemma create_dir_all_frame p w :
  exists r ds, run (create_dir_all p) w = (Done r, set_dirs ds w) /\ w_dirs w ⊆ ds.
Proof.
  unfold create_dir_all. generalize (S (length p)) as f. intros f. revert p w.
  induction f as [|f IH]; intros p w; cbn [create_dir_all_fuel].
  { exists (Err Uncategorized), (w_dirs w). by rewrite set_dirs_id. }
  case_decide; [exists (Ok tt), (w_dirs w); by rewrite set_dirs_id|].
  assert (Hforgive : forall e ds, w_dirs w ⊆ ds -> exists r ds',
    run (ok_if_dir p e) (set_dirs ds w) = (Done r, set_dirs ds' w) /\ w_dirs w ⊆ ds').
  { intros e ds Hsub. destruct (ok_if_dir_spec p e (set_dirs ds w)) as (r & Hr & _).
    exists r, ds. by rewrite Hr. }
  destruct (create_dir_frame p w) as (r & ds1 & Hr & Hs1). rewrite run_bind, Hr.
  destruct r as [[]|e]; [by eexists _, _|]. destruct e; try by apply Hforgive.
  destruct (parent p) as [q|]; [|by eexists _, _].
  destruct (IH q (set_dirs ds1 w)) as (r2 & ds2 & Hr2 & Hs2).
  rewrite run_bind, Hr2, set_dirs_set_dirs. autorewrite with pomelo_exec in Hs2.
  destruct r2 as [[]|e2]; [|exists (Err e2), ds2; split; [done|set_solver]].
  destruct (create_dir_frame p (set_dirs ds2 w)) as (r3 & ds3 & Hr3 & Hs3).
  autorewrite with pomelo_exec in Hs3.
  rewrite run_bind, Hr3, set_dirs_set_dirs. destruct r3 as [[]|e3];
    [exists (Ok tt), ds3; split; [done|set_solver]|].
  apply Hforgive. set_solver.
Qed.

(** [create_dir_all] of an existing directory does nothing. *)
Lemma create_dir_all_existing p l w :
  p <> [] -> locate w p = Ok l -> l ∈ w_dirs w -> run (create_dir_all p) w = (Done (Ok tt), w).
Proof.
  intros Hp Hl Hd. unfold create_dir_all. cbn [create_dir_all_fuel].
  rewrite decide_False, run_bind by done. unfold run at 1, create_dir. rewrite Hl.
  rewrite decide_True by tauto. rewrite run_ok_if_dir, Hl. by rewrite decide_True.
Qed.

(** [create_dir_all] of a missing directory in an existing one creates
    exactly that directory. *)
Lemma create_dir_all_fresh p l w :
  p <> [] -> locate w p = Ok l -> l ∉ w_dirs w -> w_files w !! l = None -> l ∉ w_denied w ->
  run (create_dir_all p) w = (Done (Ok tt), set_dirs ({[l]} ∪ w_dirs w) w).
Proof.
  intros Hp Hl Hd Hf Hden. unfold create_dir_all. cbn [create_dir_all_fuel].
  rewrite decide_False, run_bind by done. unfold run at 1, create_dir. rewrite Hl, Hf.
  rewrite !decide_False by (done || by intros [?|[]]). done.
Qed.

Lemma wf_world_set_stdout o w : wf_world w -> wf_world (set_stdout o w).
Proof. by destruct w. Qed.

(** ** Well-formedness, computed *)

Definition names_okb (l : Loc) : bool := forallb valid_name l.

Definition wf_worldb (w : World) : bool :=
  bool_decide ([] ∈ w_dirs w) &&
  forallb (fun l => bool_decide (removelast l ∈ w_dirs w) && names_okb l &&
                    bool_decide (w_files w !! l = None)) (elements (w_dirs w)) &&
  forallb (fun '(l, _) => bool_decide (l <> []) && bool_decide (removelast l ∈ w_dirs w) &&
                          names_okb l) (map_to_list (w_files w)) &&
  match w_cwd w with Some l => bool_decide (l ∈ w_dirs w) | None => true end.

Lemma names_okb_sound l : names_okb l = true -> names_ok l.
Proof. unfold names_okb, names_ok. intros H. apply Forall_forall. intros x Hx.
  rewrite forallb_forall in H. by apply H, list_elem_of_In. Qed.

Lemma wf_worldb_sound w : wf_worldb w = true -> wf_world w.
Proof.
  unfold wf_worldb, wf_world. rewrite !andb_true_iff, !forallb_forall.
  intros [[[Hroot%bool_decide_eq_true Hdirs] Hfiles] Hcwd].
  assert (Hd : forall l, l ∈ w_dirs w ->
    removelast l ∈ w_dirs w /\ names_ok l /\ w_files w !! l = None).
  { intros l Hl. specialize (Hdirs l (proj1 (list_elem_of_In _ _) (proj2 (elem_of_elements _ _) Hl))).
    rewrite !andb_true_iff, !bool_decide_eq_true in Hdirs.
    destruct Hdirs as [[? ?%names_okb_sound] ?]. done. }
  split_and!.
  - done.
  - intros l Hl. by destruct (Hd l Hl) as (? & ? & _).
  - intros l s Hl. specialize (Hfiles (l, s) (proj1 (list_elem_of_In _ _)
      (proj2 (elem_of_map_to_list _ _ _) Hl))). simpl in Hfiles.
    rewrite !andb_true_iff, !bool_decide_eq_true in Hfiles.
    destruct Hfiles as [[? ?] ?%names_okb_sound]. done.
  - intros l Hl. by destruct (Hd l Hl) as (_ & _ & ?).
  - intros l Hl. rewrite Hl in Hcwd. by apply bool_decide_eq_true in Hcwd.
Qed.

(** ** Paths without [..] *)

Lemma comps_no_parent (cs : list comp) :
  CParent ∉ cs -> exists ns : list string, cs = CNormal <$> ns.
Proof.
  induction cs as [|[n|] cs IH]; intros Hc; [by exists []| |set_solver].
  destruct IH as [ns ->]; [set_solver|]. by exists (n :: ns).
Qed.

Lemma walk_normals w st (ns : list string) l : walk w st (CNormal <$> ns) = Ok l -> l = st ++ ns.
Proof.
  revert st. induction ns as [|n ns IH]; intros st; simpl; [intros [= <-]; by rewrite app_nil_r|].
  destruct (descend w st (CNormal n)) as [l1|] eqn:Hd; [|done].
  apply descend_Ok in Hd as [_ ->]. intros ->%IH. simpl. by rewrite <- app_assoc.
Qed.

Lemma walk_normals_prefix w st (ns : list string) :
  (forall k, k < length ns -> st ++ take k ns ∈ w_dirs w) ->
  walk w st (CNormal <$> ns) = Ok (st ++ ns).
Proof.
  revert st. induction ns as [|n ns IH]; intros st Hpre; simpl; [by rewrite app_nil_r|].
  unfold descend. rewrite decide_True by (specialize (Hpre 0); rewrite app_nil_r in Hpre;
    apply Hpre; simpl; lia).
  simpl. rewrite IH; [by rewrite <- app_assoc|].
  intros k Hk. rewrite <- app_assoc. apply (Hpre (S k)). simpl. lia.
Qed.

(** The directories of a well-formed world are closed under prefixes. *)
Lemma wf_dirs_prefix w l1 l2 : wf_world w -> l1 ++ l2 ∈ w_dirs w -> l1 ∈ w_dirs w.
Proof.
  intros Hwf. induction l2 as [|x l2 IH] using rev_ind; [by rewrite app_nil_r|].
  intros Hl. apply IH. destruct Hwf as (_ & Hdirs & _).
  rewrite app_assoc in Hl. apply Hdirs in Hl as [Hl _]. by rewrite removelast_last in Hl.
Qed.

(** In a well-formed world, a path without [..] resolves to a location
    as soon as the parent of that location is a directory, whatever other
    directories a larger world adds. *)
Lemma locate_back w w' p l :
  wf_world w -> w_cwd w' = w_cwd w -> CParent ∉ comps p -> locate w' p = Ok l ->
  (l = [] \/ removelast l ∈ w_dirs w) -> locate w p = Ok l.
Proof.
  intros Hwf Hcwd Hnp Hl Hpar. destruct (comps_no_parent _ Hnp) as [ns Hns].
  pose proof Hwf as (Hroot & _ & _ & _ & Hcwdd).
  unfold locate in *. rewrite Hcwd in Hl. rewrite Hns in *.
  repeat case_decide; try done.
  assert (Hgo : forall st, st ∈ w_dirs w -> walk w' st (CNormal <$> ns) = Ok l ->
                walk w st (CNormal <$> ns) = Ok l).
  { intros st Hst Hw. apply walk_normals in Hw as ->. apply walk_normals_prefix.
    destruct ns as [|n ns'] using rev_ind; [simpl; lia|]. intros k Hk.
    rewrite length_app in Hk. simpl in Hk.
    destruct Hpar as [Hnil|Hpar]; [by destruct st, ns'|].
    rewrite app_assoc, removelast_last in Hpar.
    rewrite take_app_le by lia. rewrite <- (take_drop k ns'), app_assoc in Hpar.
    by eapply wf_dirs_prefix. }
  destruct (is_absolute p); [by apply Hgo|].
  destruct (w_cwd w) as [c|]; [apply Hgo; [by apply Hcwdd|done]|done].
Qed.

(** ** The path of a location *)

Lemma valid_name_spec s :
  valid_name s = true ->
  rel_comp (String.list_ascii_of_string s) /\
  String.list_ascii_of_string s <> [ch_dot; ch_dot] /\ ch_nul ∉ String.list_ascii_of_string s.
Proof.
  unfold valid_name. rewrite !andb_true_iff, !negb_true_iff, !bool_decide_eq_false.
  intros [[[Hc Hdd] Hsep] Hnul]. by split_and!.
Qed.

Lemma comps_sep_cons x : comps (ch_sep :: x) = comps x.
Proof. unfold comps. simpl. by rewrite ?decide_True. Qed.

Lemma comps_name s : valid_name s = true -> comps (String.list_ascii_of_string s) = [CNormal s].
Proof.
  intros (Hrel & Hdd & _)%valid_name_spec. rewrite comps_rel_comp by done.
  by rewrite String.string_of_list_ascii_of_string.
Qed.

Lemma loc_path_cons s l :
  loc_path (s :: l) = ch_sep :: String.list_ascii_of_string s ++ (if l is [] then [] else loc_path l).
Proof. by destruct l. Qed.

Lemma comps_loc_path l : names_ok l -> comps (loc_path l) = CNormal <$> l.
Proof.
  induction 1 as [|s l Hs Hl IH]; [done|]. rewrite loc_path_cons, comps_sep_cons.
  destruct l as [|s' l]; [rewrite app_nil_r; by apply comps_name|].
  rewrite loc_path_cons in *. rewrite comps_app, comps_name by done.
  rewrite comps_sep_cons in IH. by rewrite IH.
Qed.

Lemma loc_path_no_nul l : names_ok l -> ch_nul ∉ loc_path l.
Proof.
  induction 1 as [|s l Hs Hl IH]; [set_solver|]. rewrite loc_path_cons.
  destruct (valid_name_spec s Hs) as (_ & _ & Hn).
  destruct l; rewrite ?app_nil_r; set_solver.
Qed.

(** [env::current_dir()] gives a path that names the working directory:
    resolving it in a well-formed world gives the working directory back. *)
Lemma current_dir_resolves w l :
  wf_world w -> w_cwd w = Some l -> locate w (loc_path l) = Ok l.
Proof.
  intros Hwf Hc. pose proof Hwf as (_ & Hdirs & _ & _ & Hcwd).
  pose proof (Hcwd l Hc) as Hl. destruct (Hdirs l Hl) as [_ Hnames].
  unfold locate. rewrite decide_False by (by apply loc_path_no_nul).
  rewrite decide_False by (by destruct l). replace (is_absolute (loc_path l)) with true
    by (destruct l; [done|]; rewrite loc_path_cons; simpl; by rewrite ?bool_decide_true).
  rewrite comps_loc_path by done. change l with ([] ++ l) at 2. apply walk_normals_prefix.
  intros k Hk. simpl. eapply (wf_dirs_prefix _ _ (drop k l)); [done|].
  by rewrite take_drop.
Qed.
