(* ===== verification/ConfigStore.v ===== *)
(** * ConfigStore: locating, loading and saving the configuration file

    [get_config_path], [load_or_initialize_config] and [save_config] of
    [src/main.rs] as [IO] actions over the world of [FileSys].  The store
    is written against the interface [ConfigCodec] of the structured-text
    codec ([toml::to_string] and [toml::from_str]); its laws are what the
    store needs of the codec, and [Toml.v] discharges them for the format
    of the specification. *)

From stdpp Require Import base list gmap strings.
From Stdlib Require Import Ascii.
From S2P Require Import Prelude Utf8 Paths Bookmarks FileSys.

(** A Rust [String] is UTF-8: every alias of a configuration the program
    builds is ([string_ok]).  A [PathBuf] need not be; a configuration
    that also has UTF-8 paths can be written ([valid_config]). *)
Definition text_ok (s : string) : bool := utf8_valid (String.list_ascii_of_string s).

Definition string_ok (c : Config) : Prop :=
  Forall (fun b => text_ok (alias b) = true) (bookmarks c).

Definition valid_config (c : Config) : Prop :=
  Forall (fun b => text_ok (alias b) = true /\ utf8_valid (path b) = true) (bookmarks c).

(** What the store asks of the codec: serializing fails exactly on a path
    that is not UTF-8 (serde's [Serialize for Path] uses [to_str]), the text
    of a configuration whose aliases are UTF-8 is UTF-8, decoding the text
    of a configuration gives it back, and the empty document is rejected:
    it has no [bookmarks] key, which [struct Config] requires. *)
Class ConfigCodec := {
  encode : Config -> option string;
  decode : string -> option Config;
  encode_Some c : is_Some (encode c) <-> Forall (fun b => utf8_valid (path b) = true) (bookmarks c);
  encode_utf8 c s : encode c = Some s -> string_ok c -> text_ok s = true;
  decode_encode c s : encode c = Some s -> decode s = Some c;
  decode_empty : decode EmptyString = None;
}.

Definition msg_home := "Failed to find home directory"%string.
Definition msg_parse := "called `Result::unwrap()` on an `Err` value"%string.
Definition msg_parent := "Failed to get config directory path"%string.
Definition msg_mkdir := "Failed to create config directory"%string.
Definition msg_serialize := "Failed to serialize the config"%string.
Definition msg_create := "Failed to create config file"%string.
Definition msg_write := "Failed to write to config file"%string.

Definition pomelo_name : PathBuf := String.list_ascii_of_string ".pomelo".
Definition config_name : PathBuf := String.list_ascii_of_string "config.toml".

(** [home_dir.join(".pomelo")], the parent of the configuration file. *)
Definition config_dir_of (home : PathBuf) : PathBuf := join home pomelo_name.

(** [home_dir.join(".pomelo").join("config.toml")] *)
Definition config_path_of (home : PathBuf) : PathBuf := join (config_dir_of home) config_name.

Section ConfigStore.
Context `{!ConfigCodec}.

(** [fn get_config_path() -> PathBuf] *)
Definition get_config_path : IO PathBuf :=
  home ← home_dir;
  home_dir ← expect_some home msg_home;
  mret (config_path_of home_dir).

(** [fn load_or_initialize_config() -> Config] *)
Definition load_or_initialize_config : IO Config :=
  config_path ← get_config_path;
  r ← read_to_string config_path;
  match r with
  | Ok contents => expect_some (decode contents) msg_parse
  | Err _ => mret (mkConfig [])
  end.

(** [fn save_config(config: &Config)] *)
Definition save_config (config : Config) : IO unit :=
  config_path ← get_config_path;
  config_dir ← expect_some (parent config_path) msg_parent;
  dir_exists ← path_exists config_dir;
  _ ← (if (dir_exists : bool) then mret tt
       else r ← create_dir_all config_dir; expect r msg_mkdir : IO unit);
  toml ← expect_some (encode config) msg_serialize;
  r ← file_create config_path;
  file ← expect r msg_create;
  r ← write_all file toml;
  expect r msg_write.

(** The two halves of [save_config] that another process can tell apart:
    up to [File::create] (lines 75-83), which truncates the file, and the
    [write_all] of line 84. *)
Definition save_open (config : Config) : IO (Loc * string) :=
  config_path ← get_config_path;
  config_dir ← expect_some (parent config_path) msg_parent;
  dir_exists ← path_exists config_dir;
  _ ← (if (dir_exists : bool) then mret tt
       else r ← create_dir_all config_dir; expect r msg_mkdir : IO unit);
  toml ← expect_some (encode config) msg_serialize;
  r ← file_create config_path;
  file ← expect r msg_create;
  mret (file, toml).

Definition save_write (file : Loc) (toml : string) : IO unit :=
  r ← write_all file toml;
  expect r msg_write.
End ConfigStore.

(** ** The configuration path *)

(** The location of the configuration file in the location of [~/.pomelo]. *)
Definition cfg_loc (d : Loc) : Loc := d ++ ["config.toml"%string].

Lemma rel_comp_pomelo : rel_comp pomelo_name.
Proof. split; [apply (bool_decide_unpack _); by vm_compute|reflexivity]. Qed.
Lemma rel_comp_config : rel_comp config_name.
Proof. split; [apply (bool_decide_unpack _); by vm_compute|reflexivity]. Qed.

Lemma config_dir_not_nil h : config_dir_of h <> [].
Proof.
  unfold config_dir_of, join. rewrite is_absolute_no_sep by apply rel_comp_pomelo.
  destruct (need_sep h); by destruct h.
Qed.

(** [config_path.parent()] is [home_dir.join(".pomelo")], whatever the
    home directory. *)
Lemma parent_config_path h : parent (config_path_of h) = Some (config_dir_of h).
Proof. apply parent_join; [apply ends_in_comp_join, rel_comp_pomelo|apply rel_comp_config]. Qed.

Lemma ends_in_comp_config_path h : ends_in_comp (config_path_of h) = true.
Proof. apply ends_in_comp_join, rel_comp_config. Qed.

(** The configuration file is looked up in the directory [~/.pomelo]
    resolves to. *)
Lemma locate_config_path w h :
  locate w (config_path_of h) =
    match locate w (config_dir_of h) with
    | Ok d => descend w d (CNormal "config.toml")
    | Err e => Err e
    end.
Proof.
  unfold config_path_of. rewrite locate_join; [done|apply config_dir_not_nil|apply rel_comp_config|
    apply (bool_decide_unpack _); by vm_compute|done].
Qed.

Lemma locate_cfg w h d :
  locate w (config_dir_of h) = Ok d -> d ∈ w_dirs w -> locate w (config_path_of h) = Ok (cfg_loc d).
Proof. intros Hd Hdir. rewrite locate_config_path, Hd. unfold descend. by rewrite decide_True. Qed.

(** The configuration path adds two names to the home directory: no
    [..] when the home directory has none. *)
Lemma config_path_no_parent h : CParent ∉ comps h -> CParent ∉ comps (config_path_of h).
Proof.
  intros Hh. unfold config_path_of, config_dir_of.
  rewrite comps_join by (apply config_dir_not_nil || apply (proj1 rel_comp_config)).
  rewrite (comps_rel_comp config_name) by (apply rel_comp_config || done).
  destruct (decide (h = [])) as [->|Hne].
  - rewrite join_nil by apply (proj1 rel_comp_pomelo). apply (bool_decide_unpack _). by vm_compute.
  - rewrite comps_join, (comps_rel_comp pomelo_name)
      by (done || apply rel_comp_pomelo || apply (proj1 rel_comp_pomelo)).
    set_solver.
Qed.

(** A directory is not the configuration file in it. *)
Lemma cfg_loc_not_dir w d : wf_world w -> d ∉ w_dirs w -> cfg_loc d ∉ w_dirs w.
Proof.
  intros (_ & Hdirs & _) Hd Hc. apply Hd. destruct (Hdirs _ Hc) as [Hp _].
  unfold cfg_loc in Hp. by rewrite removelast_last in Hp.
Qed.

(** The stored configuration file is read when it is UTF-8. *)
Lemma read_config_file w h d s :
  locate w (config_dir_of h) = Ok d -> d ∈ w_dirs w -> cfg_loc d ∉ w_denied w ->
  w_files w !! cfg_loc d = Some s ->
  read_file w (config_path_of h) = if text_ok s then Ok s else Err InvalidData.
Proof.
  intros Hd Hdir Hden Hf. unfold read_file. rewrite (locate_cfg w h d) by done.
  rewrite decide_False, Hf by done. done.
Qed.

Lemma read_config_missing w h d :
  locate w (config_dir_of h) = Ok d -> d ∈ w_dirs w -> cfg_loc d ∉ w_denied w ->
  w_files w !! cfg_loc d = None -> cfg_loc d ∉ w_dirs w ->
  read_file w (config_path_of h) = Err NotFound.
Proof.
  intros Hd Hdir Hden Hf Hc. unfold read_file. rewrite (locate_cfg w h d) by done.
  rewrite decide_False, Hf by done. by rewrite decide_False.
Qed.

(** ** Lemmas on the store *)

Section ConfigStoreProofs.
Context `{!ConfigCodec}.

(** C17: [get_config_path] is [~/.pomelo/config.toml]: when the home
    directory [h] is known, the path it returns has the components of [h]
    followed by [.pomelo] and [config.toml], and is absolute exactly when
    [h] is (so it equals [h/.pomelo/config.toml] as a Rust [Path], whose
    equality compares components); otherwise it panics with "Failed to
    find home directory".  It never changes the world. *)
Theorem get_config_path_spec w :
  match w_home w with
  | Some h =>
      exists p, run get_config_path w = (Done p, w) /\
        comps p = comps h ++ [CNormal ".pomelo"; CNormal "config.toml"] /\
        is_absolute p = is_absolute h
  | None => run get_config_path w = (Panicked "Failed to find home directory", w)
  end.
Proof.
  unfold get_config_path. io_norm. destruct (w_home w) as [h|]; [|done].
  exists (config_path_of h). split; [done|]. unfold config_path_of, config_dir_of.
  pose proof rel_comp_pomelo as [Hp _]. pose proof rel_comp_config as [Hc _].
  rewrite !comps_join_comp, !is_absolute_join_comp by done.
  by rewrite <-app_assoc.
Qed.

(** What [load_or_initialize_config] returns with a home directory [h]. *)
Lemma load_spec w h :
  w_home w = Some h ->
  run load_or_initialize_config w =
    (match read_file w (config_path_of h) with
     | Ok s => match decode s with Some c => Done c | None => Panicked msg_parse end
     | Err _ => Done (mkConfig [])
     end, w).
Proof.
  intros Hh. unfold load_or_initialize_config, get_config_path. io_norm.
  rewrite Hh. cbn. destruct (read_file w _); [by destruct (decode _)|done].
Qed.

(** Reading the configuration never changes the world. *)
Lemma load_read_only w : snd (run load_or_initialize_config w) = w.
Proof.
  destruct (w_home w) as [h|] eqn:Hh; [by rewrite (load_spec w h Hh)|].
  unfold load_or_initialize_config, get_config_path. io_norm. by rewrite Hh.
Qed.

(** C18: With no configuration file, loading gives the empty collection and
    changes nothing: no file is created. *)
Theorem load_missing_is_empty w h d :
  w_home w = Some h -> locate w (config_dir_of h) = Ok d -> d ∈ w_dirs w ->
  cfg_loc d ∉ w_denied w -> w_files w !! cfg_loc d = None -> cfg_loc d ∉ w_dirs w ->
  run load_or_initialize_config w = (Done (mkConfig []), w).
Proof. intros Hh Hd Hdir Hden Hf Hc. by rewrite (load_spec w h Hh), (read_config_missing w h d). Qed.

(** C19: A configuration file that is UTF-8 but does not decode makes
    loading panic. *)
Theorem load_malformed_panics w h d s :
  w_home w = Some h -> locate w (config_dir_of h) = Ok d -> d ∈ w_dirs w ->
  cfg_loc d ∉ w_denied w -> w_files w !! cfg_loc d = Some s -> text_ok s = true ->
  decode s = None ->
  run load_or_initialize_config w = (Panicked msg_parse, w).
Proof.
  intros Hh Hd Hdir Hden Hf Hs Hdec.
  by rewrite (load_spec w h Hh), (read_config_file w h d s), Hs, Hdec.
Qed.

(** Loading a stored configuration written by the codec gives it back. *)
Lemma load_stored c s w h d :
  w_home w = Some h -> locate w (config_dir_of h) = Ok d -> d ∈ w_dirs w ->
  cfg_loc d ∉ w_denied w -> w_files w !! cfg_loc d = Some s -> encode c = Some s ->
  string_ok c ->
  run load_or_initialize_config w = (Done c, w).
Proof.
  intros Hh Hd Hdir Hden Hf Hs Hc.
  rewrite (load_spec w h Hh), (read_config_file w h d s), (encode_utf8 c s) by done.
  by rewrite (decode_encode c s).
Qed.

(** The two halves of [save_config], once the path is known: make sure
    the directory exists, then serialize and write the file. *)
Local Abbreviation save_dir h :=
  (dir_exists ← path_exists (config_dir_of h);
   if (dir_exists : bool) then mret tt
   else r ← create_dir_all (config_dir_of h); expect r msg_mkdir : IO unit).
Local Abbreviation save_file c h :=
  (toml ← expect_some (encode c) msg_serialize;
   r ← file_create (config_path_of h);
   file ← expect r msg_create;
   r ← write_all file toml;
   expect r msg_write).

Lemma run_save_config c w h :
  w_home w = Some h ->
  run (save_config c) w =
    match run (save_dir h) w with
    | (Done _, w1) => run (save_file c h) w1
    | (Panicked m, w1) => (Panicked m, w1)
    end.
Proof.
  intros Hh. unfold save_config, get_config_path.
  cbv [run mbind exec_bind mret exec_ret home_dir expect_some path_exists].
  rewrite Hh, parent_config_path. reflexivity.
Qed.

(** [save_config] is its two halves in sequence. *)
Lemma save_config_split c w :
  run (save_config c) w = run ('(file, toml) ← save_open c; save_write file toml) w.
Proof.
  unfold save_config, save_open, save_write.
  repeat (rewrite run_bind_assoc; apply run_bind_ext; intros ? ?).
  by rewrite bind_ret_l.
Qed.

Lemma save_dir_existing w h d :
  locate w (config_dir_of h) = Ok d -> d ∈ w_dirs w -> run (save_dir h) w = (Done tt, w).
Proof. intros Hd Hdir. io_norm. rewrite Hd. by rewrite bool_decide_true by auto. Qed.

Lemma save_dir_fresh w h d :
  locate w (config_dir_of h) = Ok d -> d ∉ w_dirs w -> w_files w !! d = None ->
  d ∉ w_denied w ->
  run (save_dir h) w = (Done tt, set_dirs ({[d]} ∪ w_dirs w) w).
Proof.
  intros Hd Hdir Hf Hden. rewrite run_bind. unfold run at 1, path_exists. rewrite Hd, Hf.
  rewrite bool_decide_false by (by intros [?|[]]). simpl.
  rewrite run_bind, (create_dir_all_fresh _ d) by (done || apply config_dir_not_nil). done.
Qed.

Lemma save_dir_frame w h :
  exists o ds, run (save_dir h) w = (o, set_dirs ds w) /\ w_dirs w ⊆ ds.
Proof.
  rewrite run_bind. unfold run at 1, path_exists. cbn -[create_dir_all].
  case_match; [exists (Done tt), (w_dirs w); by rewrite set_dirs_id|].
  destruct (create_dir_all_frame (config_dir_of h) w) as (r & ds & Hr & Hs).
  rewrite run_bind, Hr. destruct r; io_norm; by eexists _, _.
Qed.

(** Writing the file: created (truncated), then written unless the disk
    is full. *)
Lemma save_file_spec c s w h l :
  encode c = Some s -> locate w (config_path_of h) = Ok l -> l ∉ w_dirs w -> l ∉ w_denied w ->
  run (save_file c h) w =
    if w_nospace w then (Panicked msg_write, set_files (<[l := EmptyString]> (w_files w)) w)
    else (Done tt, set_files (<[l := s]> (w_files w)) w).
Proof.
  intros Hs Hl Hd Hden. io_norm. rewrite Hs, Hl. decide_by_hyps.
  rewrite ends_in_comp_config_path. cbn. decide_by_hyps. autorewrite with pomelo_exec.
  destruct (w_nospace w); [done|]. by rewrite insert_insert_eq.
Qed.

Lemma save_file_no_encoding c w h :
  encode c = None -> run (save_file c h) w = (Panicked msg_serialize, w).
Proof. intros Hs. io_norm. by rewrite Hs. Qed.

(** A file step that completes wrote the encoding at the configuration
    path. *)
Lemma save_file_done c w h w' :
  run (save_file c h) w = (Done tt, w') ->
  exists s l, encode c = Some s /\ locate w (config_path_of h) = Ok l /\ (l ∉ w_denied w) /\
    w' = set_files (<[l := s]> (w_files w)) w.
Proof.
  intros Hrun. io_norm. destruct (encode c) as [s|]; [|done].
  destruct (locate w (config_path_of h)) as [l|]; [|done]. cbn in Hrun.
  rewrite ends_in_comp_config_path in Hrun. cbn in Hrun.
  repeat case_decide; try done. autorewrite with pomelo_exec in Hrun.
  destruct (w_nospace w); [done|]. injection Hrun as <-.
  exists s, l. split_and!; [done|done|done|]. by rewrite insert_insert_eq.
Qed.

(** A save that completes has written the encoding at the location the
    configuration path resolves to, and changed nothing but files and
    directories. *)
Lemma save_config_done c w w' :
  run (save_config c) w = (Done tt, w') ->
  exists h s l ds, w_home w = Some h /\ encode c = Some s /\ w_dirs w ⊆ ds /\
    locate (set_dirs ds w) (config_path_of h) = Ok l /\ (l ∉ w_denied w) /\
    w' = set_files (<[l := s]> (w_files w)) (set_dirs ds w).
Proof.
  destruct (w_home w) as [h|] eqn:Hh; [|unfold save_config, get_config_path; io_norm; by rewrite Hh].
  rewrite (run_save_config c w h Hh). destruct (save_dir_frame w h) as (o & ds & Hd & Hsub).
  rewrite Hd. destruct o as [[]|m]; [|done].
  intros (s & l & Hs & Hl & Hden & ->)%save_file_done. autorewrite with pomelo_exec in *.
  by exists h, s, l, ds.
Qed.

Lemma read_file_Ok w p l s :
  locate w p = Ok l -> l ∉ w_denied w -> w_files w !! l = Some s -> text_ok s = true ->
  read_file w p = Ok s.
Proof.
  intros Hl Hden Hf Hs. unfold read_file. rewrite Hl, decide_False, Hf by done.
  unfold text_ok in Hs. by rewrite Hs.
Qed.

(** C4: Round trip through the disk: after a save that completes, loading
    gives back the configuration that was saved. *)
Theorem load_after_save c w w' :
  string_ok c ->
  run (save_config c) w = (Done tt, w') ->
  run load_or_initialize_config w' = (Done c, w').
Proof.
  intros Hc (h & s & l & ds & Hh & Hs & _ & Hl & Hden & ->)%save_config_done.
  rewrite (load_spec _ h) by (by autorewrite with pomelo_exec).
  rewrite (read_file_Ok _ _ l s); [by rewrite (decode_encode c s)| | | |].
  - eapply locate_mono; [| |exact Hl]; by autorewrite with pomelo_exec.
  - by autorewrite with pomelo_exec.
  - autorewrite with pomelo_exec. by rewrite lookup_insert_eq.
  - by apply (encode_utf8 c).
Qed.

(** Saving when [~/.pomelo] is already a directory: the configuration
    file is created or overwritten with the encoded configuration. *)
Lemma save_config_existing_dir c s w h d :
  w_home w = Some h -> locate w (config_dir_of h) = Ok d -> d ∈ w_dirs w ->
  encode c = Some s -> cfg_loc d ∉ w_dirs w -> cfg_loc d ∉ w_denied w ->
  w_nospace w = false ->
  run (save_config c) w = (Done tt, set_files (<[cfg_loc d := s]> (w_files w)) w).
Proof.
  intros Hh Hd Hdir Hs Hc Hden Hns. rewrite (run_save_config c w h Hh).
  rewrite (save_dir_existing w h d), (save_file_spec c s w h (cfg_loc d)) by
    (done || by apply locate_cfg). by rewrite Hns.
Qed.

(** The first half of the save on a ready store: [File::create] has
    truncated the configuration file, which [write_all] will fill. *)
Lemma save_open_existing_dir c s w h d :
  w_home w = Some h -> locate w (config_dir_of h) = Ok d -> d ∈ w_dirs w ->
  encode c = Some s -> cfg_loc d ∉ w_dirs w -> cfg_loc d ∉ w_denied w ->
  run (save_open c) w = (Done (cfg_loc d, s), set_files (<[cfg_loc d := EmptyString]> (w_files w)) w).
Proof.
  intros Hh Hd Hdir Hs Hc Hden. unfold save_open, get_config_path.
  cbv [run mbind exec_bind mret exec_ret home_dir expect_some path_exists].
  rewrite Hh, parent_config_path, Hd, bool_decide_true by auto. cbn. rewrite Hs.
  unfold file_create. rewrite (locate_cfg w h d) by done. decide_by_hyps.
  by rewrite ends_in_comp_config_path.
Qed.

Lemma save_write_spec file toml w :
  run (save_write file toml) w =
    if w_nospace w then (Panicked msg_write, w)
    else (Done tt, set_files (<[file := toml]> (w_files w)) w).
Proof. unfold save_write. io_norm. by destruct (w_nospace w). Qed.

(** Saving on a first run, when [~/.pomelo] does not exist yet: the
    directory is created, then the configuration file. *)
Lemma save_config_fresh_dir c s w h d :
  wf_world w -> w_home w = Some h -> locate w (config_dir_of h) = Ok d ->
  d ∉ w_dirs w -> w_files w !! d = None -> d ∉ w_denied w ->
  encode c = Some s -> cfg_loc d ∉ w_denied w -> w_nospace w = false ->
  run (save_config c) w =
    (Done tt, set_files (<[cfg_loc d := s]> (w_files w)) (set_dirs ({[d]} ∪ w_dirs w) w)).
Proof.
  intros Hwf Hh Hd Hdir Hf Hdd Hs Hden Hns. rewrite (run_save_config c w h Hh).
  rewrite (save_dir_fresh w h d) by done.
  assert (Hc : cfg_loc d ∉ {[d]} ∪ w_dirs w).
  { pose proof (cfg_loc_not_dir w d Hwf Hdir). unfold cfg_loc in *.
    intros [Heq%elem_of_singleton|]%elem_of_union; [|done].
    apply (f_equal length) in Heq. rewrite length_app in Heq. simpl in Heq. lia. }
  rewrite (save_file_spec c s _ h (cfg_loc d)); autorewrite with pomelo_exec; try done.
  - by rewrite Hns.
  - apply locate_cfg; [|set_solver]. eapply locate_mono; [| |exact Hd];
      autorewrite with pomelo_exec; [set_solver|done].
Qed.

(** [File::create] truncates before [write_all] writes: when the write
    fails, the process panics and leaves an empty configuration file
    behind, in place of the bookmarks it had. *)
Lemma save_config_write_fails c s w h d :
  w_home w = Some h -> locate w (config_dir_of h) = Ok d -> d ∈ w_dirs w ->
  encode c = Some s -> cfg_loc d ∉ w_dirs w -> cfg_loc d ∉ w_denied w ->
  w_nospace w = true ->
  run (save_config c) w =
    (Panicked msg_write, set_files (<[cfg_loc d := EmptyString]> (w_files w)) w).
Proof.
  intros Hh Hd Hdir Hs Hc Hden Hns. rewrite (run_save_config c w h Hh).
  rewrite (save_dir_existing w h d), (save_file_spec c s w h (cfg_loc d)) by
    (done || by apply locate_cfg). by rewrite Hns.
Qed.

(** C7: After such a failed save, every later load panics: the empty file
    is UTF-8 but has no [bookmarks] key. *)
Theorem failed_save_breaks_load c s w h d :
  w_home w = Some h -> locate w (config_dir_of h) = Ok d -> d ∈ w_dirs w ->
  encode c = Some s -> cfg_loc d ∉ w_dirs w -> cfg_loc d ∉ w_denied w ->
  w_nospace w = true ->
  let w' := snd (run (save_config c) w) in
  fst (run (save_config c) w) = Panicked msg_write /\
  run load_or_initialize_config w' = (Panicked msg_parse, w').
Proof.
  intros Hh Hd Hdir Hs Hc Hden Hns. rewrite (save_config_write_fails c s w h d) by done.
  simpl. split; [done|]. rewrite (load_spec _ h) by (by autorewrite with pomelo_exec).
  rewrite (read_file_Ok _ _ (cfg_loc d) EmptyString); [by rewrite decode_empty| | | |done].
  - apply locate_cfg; [eapply locate_mono; [| |exact Hd]|]; by autorewrite with pomelo_exec.
  - by autorewrite with pomelo_exec.
  - autorewrite with pomelo_exec. by rewrite lookup_insert_eq.
Qed.

(** C22: [toml::to_string] fails when a path is not UTF-8: the save panics
    with "Failed to serialize the config" after the directory step, and
    leaves every file as it was. *)
Theorem save_config_serialize_fails c w :
  encode c = None ->
  exists m ds, run (save_config c) w = (Panicked m, set_dirs ds w) /\ w_dirs w ⊆ ds.
Proof.
  intros Hs. destruct (w_home w) as [h|] eqn:Hh.
  - rewrite (run_save_config c w h Hh). destruct (save_dir_frame w h) as (o & ds & Hd & Hsub).
    rewrite Hd. destruct o as [[]|m]; [|by exists m, ds].
    rewrite save_file_no_encoding by done. by exists msg_serialize, ds.
  - exists msg_home, (w_dirs w). rewrite set_dirs_id.
    unfold save_config, get_config_path. io_norm. by rewrite Hh.
Qed.

Lemma save_dir_panic w h m w' : run (save_dir h) w = (Panicked m, w') -> m = msg_mkdir.
Proof.
  rewrite run_bind. unfold run at 1, path_exists. cbn -[create_dir_all].
  case_match; [done|]. destruct (create_dir_all_frame (config_dir_of h) w) as (r & ds & Hr & _).
  rewrite run_bind, Hr. destruct r; io_norm; congruence.
Qed.

Lemma save_file_panic c w h m w' :
  run (save_file c h) w = (Panicked m, w') -> m = msg_serialize \/ m = msg_create \/ m = msg_write.
Proof.
  io_norm. destruct (encode c); [|naive_solver]. cbn.
  destruct (locate w _); cbn; [|naive_solver].
  rewrite ends_in_comp_config_path. cbn.
  case_decide; [naive_solver|]. case_decide; [naive_solver|]. cbn.
  autorewrite with pomelo_exec. destruct (w_nospace w); cbn; naive_solver.
Qed.

(** C20: [save_config] panics only with the messages of its [expect]s on
    the home directory, the directory creation, the serialization, the
    file creation and the write: [config_path.parent().expect(..)] never
    fires, the configuration path always having a parent. *)
Theorem save_config_panics c w m w' :
  run (save_config c) w = (Panicked m, w') ->
  m ∈ [msg_home; msg_mkdir; msg_serialize; msg_create; msg_write].
Proof.
  destruct (w_home w) as [h|] eqn:Hh.
  - rewrite (run_save_config c w h Hh). destruct (run (save_dir h) w) as [[[]|m'] w1] eqn:Hd.
    + intros Hf. apply save_file_panic in Hf as [ -> | [ -> | -> ] ]; set_solver.
    + intros [= -> _]. apply save_dir_panic in Hd as ->. set_solver.
  - unfold save_config, get_config_path. io_norm. rewrite Hh. intros [= <- _]. set_solver.
Qed.

(** ** What a save does to a well-formed world *)

Lemma wf_world_add_file w l s :
  wf_world w -> (exists l0 n, l = l0 ++ [n] /\ l0 ∈ w_dirs w /\ valid_name n = true) ->
  l ∉ w_dirs w -> wf_world (set_files (<[l := s]> (w_files w)) w).
Proof.
  intros (Hroot & Hdirs & Hfiles & Hdisj & Hcwd) (l0 & n & -> & Hl0 & Hn) Hl.
  unfold wf_world. autorewrite with pomelo_exec. split_and!; try done.
  - intros l' s' Hf. destruct (decide (l' = l0 ++ [n])) as [->|Hne].
    + rewrite removelast_last. split_and!; [by destruct l0|done|].
      apply Forall_app. split; [by apply Hdirs|by constructor].
    + rewrite lookup_insert_ne in Hf by done. eauto.
  - intros l' Hl'. rewrite lookup_insert_ne by set_solver. auto.
Qed.

Lemma save_dir_wf w h :
  wf_world w ->
  exists o ds, run (save_dir h) w = (o, set_dirs ds w) /\ w_dirs w ⊆ ds /\ wf_world (set_dirs ds w).
Proof.
  intros Hwf. rewrite run_bind. unfold run at 1, path_exists. cbn -[create_dir_all].
  case_match; [exists (Done tt), (w_dirs w); by rewrite set_dirs_id|].
  destruct (create_dir_all_fuel_wf (S (length (config_dir_of h))) (config_dir_of h) w Hwf)
    as (r & ds & Hr & Hs & Hwf' & _).
  unfold create_dir_all. rewrite run_bind, Hr. destruct r; io_norm; by eexists _, _.
Qed.

(** A file step on a disk that is not full either changes nothing or
    writes the encoding at the configuration path. *)
Lemma save_file_cases c w h o w' :
  wf_world w -> w_nospace w = false -> run (save_file c h) w = (o, w') ->
  w' = w \/ exists s l, encode c = Some s /\ locate w (config_path_of h) = Ok l /\
    l ∉ w_dirs w /\ w' = set_files (<[l := s]> (w_files w)) w /\ wf_world w'.
Proof.
  intros Hwf Hns. io_norm. destruct (encode c) as [s|]; [|naive_solver]. cbn.
  destruct (locate w (config_path_of h)) as [l|] eqn:Hl; cbn; [|naive_solver].
  rewrite ends_in_comp_config_path. cbn.
  case_decide; [naive_solver|]. case_decide; [naive_solver|]. cbn.
  autorewrite with pomelo_exec. rewrite Hns. cbn. intros [= _ <-]. right.
  exists s, l. rewrite ?set_files_set_files, insert_insert_eq. split_and!; try done.
  apply wf_world_add_file; [done| |done].
  by destruct (locate_shape w _ l Hwf Hl) as [?|(l0 & n & ? & ? & ?)]; [|eauto].
Qed.

(** [save_config] on a well-formed world with room on the disk: either
    only directories were added, or the encoding was written at the
    location the configuration path resolves to.  The world stays well
    formed. *)
Lemma save_config_cases c w :
  wf_world w -> w_nospace w = false ->
  exists ds, w_dirs w ⊆ ds /\ wf_world (set_dirs ds w) /\
    (snd (run (save_config c) w) = set_dirs ds w \/
     exists h s l, w_home w = Some h /\ encode c = Some s /\
       locate (set_dirs ds w) (config_path_of h) = Ok l /\
       snd (run (save_config c) w) = set_files (<[l := s]> (w_files w)) (set_dirs ds w) /\
       wf_world (snd (run (save_config c) w))).
Proof.
  intros Hwf Hns. destruct (w_home w) as [h|] eqn:Hh.
  2:{ exists (w_dirs w). rewrite set_dirs_id. split_and!; [done|done|left].
      unfold save_config, get_config_path. io_norm. by rewrite Hh. }
  rewrite (run_save_config c w h Hh).
  destruct (save_dir_wf w h Hwf) as (o & ds & Hd & Hsub & Hwf').
  exists ds. split_and!; [done|done|]. rewrite Hd. destruct o as [[]|m]; [|by left].
  destruct (run (save_file c h) (set_dirs ds w)) as [o' w'] eqn:Hf.
  destruct (save_file_cases c _ h o' w' Hwf') as [->|(s & l & Hs & Hl & _ & -> & Hwf'')];
    [by autorewrite with pomelo_exec|done|by left|].
  right. exists h, s, l. simpl. autorewrite with pomelo_exec in *. by split_and!.
Qed.
Local Abbreviation save_open_file c h :=
  (toml ← expect_some (encode c) msg_serialize;
   r ← file_create (config_path_of h);
   file ← expect r msg_create;
   mret (file, toml)).

Lemma save_open_file_cases c h w o w' :
  wf_world w -> run (save_open_file c h) w = (o, w') ->
  (exists e, o = Panicked e /\ w' = w) \/
  exists s l, encode c = Some s /\ locate w (config_path_of h) = Ok l /\ o = Done (l, s) /\
    w' = set_files (<[l := EmptyString]> (w_files w)) w /\ wf_world w'.
Proof.
  intros Hwf. io_norm. destruct (encode c) as [s|]; [|naive_solver]. cbn.
  destruct (locate w (config_path_of h)) as [l|] eqn:Hl; cbn; [|naive_solver].
  rewrite ends_in_comp_config_path. cbn.
  case_decide; [naive_solver|]. case_decide; [naive_solver|]. cbn.
  intros [= <- <-]. right. exists s, l. split_and!; try done.
  apply wf_world_add_file; [done| |done].
  by destruct (locate_shape w _ l Hwf Hl) as [?|(l0 & n & ? & ? & ?)]; [|eauto].
Qed.

(** The first half of the save: either it panics having only added
    directories, or it has truncated the file the configuration path
    resolves to and returns it with the encoding.  The world stays well
    formed. *)
Lemma save_open_cases c w o w' :
  wf_world w -> run (save_open c) w = (o, w') ->
  exists ds, w_dirs w ⊆ ds /\ wf_world (set_dirs ds w) /\
    ((exists e, o = Panicked e /\ w' = set_dirs ds w) \/
     exists h s l, w_home w = Some h /\ encode c = Some s /\
       locate (set_dirs ds w) (config_path_of h) = Ok l /\ o = Done (l, s) /\
       w' = set_files (<[l := EmptyString]> (w_files w)) (set_dirs ds w) /\ wf_world w').
Proof.
  intros Hwf. destruct (w_home w) as [h|] eqn:Hh.
  2:{ intros Hrun. exists (w_dirs w). rewrite set_dirs_id. split_and!; [done|done|left].
      unfold save_open, get_config_path in Hrun. io_norm. rewrite Hh in Hrun. naive_solver. }
  assert (Hopen : run (save_open c) w =
    match run (save_dir h) w with
    | (Done _, w1) => run (save_open_file c h) w1
    | (Panicked m, w1) => (Panicked m, w1)
    end).
  { unfold save_open, get_config_path.
    cbv [run mbind exec_bind mret exec_ret home_dir expect_some path_exists].
    rewrite Hh, parent_config_path. reflexivity. }
  destruct (save_dir_wf w h Hwf) as (o1 & ds & Hd & Hsub & Hwf').
  rewrite Hopen, Hd. intros Hrun. exists ds. split_and!; [done|done|].
  destruct o1 as [[]|m]; [|left; naive_solver].
  destruct (save_open_file_cases c h _ o w' Hwf' Hrun)
    as [He|(s & l & Hs & Hl & -> & -> & Hwf'')]; [by left|].
  right. exists h, s, l. autorewrite with pomelo_exec in *. by split_and!.
Qed.

End ConfigStoreProofs.
