(* ===== verification/Toml.v ===== *)
(** * Toml: the structured-text format of the configuration file

    [toml::to_string] and [toml::from_str], with the [serde] derives of
    [struct Bookmark] and [struct Config], are library code; the printer is
    modelled from the schema of the specification (section 6):
    {v
    bookmarks = [
      { alias = "<string>", path = "<absolute-path-string>" },
    ]
    v}
    It writes every string as a TOML basic string, escaping the quote, the
    backslash and the control characters as the [toml] crate does ([\b],
    [\t], [\n], [\f], [\r], [\uXXXX]); a path is written as its text,
    and a path that is not UTF-8 cannot be written (serde's [Serialize for
    Path]).

    The parser reads as the crate does, in two stages.  [toml_parse] reads
    the text into a value tree: top-level [key = value] lines whose value
    is a string or an array of inline tables [{ k = "v", .. }], then the
    tables [[[bookmarks]]] (the form the crate prints for a [Vec] of
    structs), each table a list of [key = "string"] pairs; whitespace and
    [#] comments between tokens, basic strings with every escape
    ([\uXXXX] and [\UXXXXXXXX] give the UTF-8 bytes of the scalar
    value), literal strings ['...'], a trailing comma in an array; a key
    defined twice is an error.  [de_config] and [de_bookmark] are the
    derived [Deserialize]: [bookmarks], [alias] and [path] are required,
    every other key is ignored.  Text is a [list ascii] of bytes.

    The round trip [toml_decode (toml_encode c) = Some c] and the UTF-8 of
    the text discharge the [ConfigCodec] interface of [ConfigStore]; the
    same round trip holds for a text with extra keys at the top or in the
    entries ([toml_decode_extra_fields]), and for the text in the crate's
    own layout, a [[[bookmarks]]] table per entry ([toml_encode_tables_l],
    [toml_decode_crate_layout]). *)

From stdpp Require Import base list strings sets.
From Stdlib Require Import Ascii NArith.
From S2P Require Import Prelude Utf8 Paths Bookmarks FileSys ConfigStore.

Local Open Scope char_scope.

Definition ch_quote : ascii := "034".
Definition ch_bslash : ascii := "092".
Definition ch_nl : ascii := "010".
Definition ch_tab : ascii := "009".
Definition ch_cr : ascii := "013".
Definition ch_bs : ascii := "008".
Definition ch_ff : ascii := "012".
Definition ch_apos : ascii := "039".

(** The characters TOML forbids raw in a basic string (tab apart). *)
Definition is_control (c : ascii) : bool :=
  bool_decide (nat_of_ascii c < 32 \/ nat_of_ascii c = 127).

Definition hex_digit (n : nat) : ascii :=
  if decide (n < 10) then ascii_of_nat (48 + n) else ascii_of_nat (55 + n).

Definition hex_value (c : ascii) : option nat :=
  let n := nat_of_ascii c in
  if decide (48 <= n <= 57) then Some (n - 48)
  else if decide (65 <= n <= 70) then Some (n - 55)
  else if decide (97 <= n <= 102) then Some (n - 87)
  else None.

(** ** Printing a basic string *)

Definition esc_char (c : ascii) : list ascii :=
  if decide (c = ch_quote) then [ch_bslash; ch_quote]
  else if decide (c = ch_bslash) then [ch_bslash; ch_bslash]
  else if decide (c = ch_bs) then [ch_bslash; "b"]
  else if decide (c = ch_tab) then [ch_bslash; "t"]
  else if decide (c = ch_nl) then [ch_bslash; "n"]
  else if decide (c = ch_ff) then [ch_bslash; "f"]
  else if decide (c = ch_cr) then [ch_bslash; "r"]
  else if is_control c then
    [ch_bslash; "u"; "0"; "0"; hex_digit (nat_of_ascii c / 16); hex_digit (nat_of_ascii c mod 16)]
  else [c].

Fixpoint esc (s : list ascii) : list ascii :=
  match s with
  | [] => []
  | c :: s' => esc_char c ++ esc s'
  end.

Definition quote (s : list ascii) : list ascii := ch_quote :: esc s ++ [ch_quote].

(** ** Parsing a string, after its opening quote *)

Definition cons_fst {A B} (x : A) (o : option (list A * B)) : option (list A * B) :=
  (fun '(xs, r) => (x :: xs, r)) <$> o.
Definition app_fst {A B} (xs : list A) (o : option (list A * B)) : option (list A * B) :=
  (fun '(ys, r) => (xs ++ ys, r)) <$> o.

(** A hexadecimal number. *)
Fixpoint hex_acc (acc : N) (ds : list ascii) : option N :=
  match ds with
  | [] => Some acc
  | d :: ds' => v ← hex_value d; hex_acc (16 * acc + N.of_nat v)%N ds'
  end.

(** [\uXXXX] and [\UXXXXXXXX]. *)
Definition unicode_escape (ds : list ascii) : option (list ascii) :=
  hex_acc 0%N ds ≫= utf8_encode.

Fixpoint p_body (l : list ascii) : option (list ascii * list ascii) :=
  match l with
  | [] => None
  | c :: r =>
      if decide (c = ch_quote) then Some ([], r)
      else if decide (c = ch_bslash) then
        match r with
        | [] => None
        | e :: r' =>
            if decide (e = ch_quote) then cons_fst ch_quote (p_body r')
            else if decide (e = ch_bslash) then cons_fst ch_bslash (p_body r')
            else if decide (e = "b") then cons_fst ch_bs (p_body r')
            else if decide (e = "t") then cons_fst ch_tab (p_body r')
            else if decide (e = "n") then cons_fst ch_nl (p_body r')
            else if decide (e = "f") then cons_fst ch_ff (p_body r')
            else if decide (e = "r") then cons_fst ch_cr (p_body r')
            else if decide (e = "u") then
              match r' with
              | d1 :: d2 :: d3 :: d4 :: r'' =>
                  match unicode_escape [d1; d2; d3; d4] with
                  | Some bs => app_fst bs (p_body r'')
                  | None => None
                  end
              | _ => None
              end
            else if decide (e = "U") then
              match r' with
              | d1 :: d2 :: d3 :: d4 :: d5 :: d6 :: d7 :: d8 :: r'' =>
                  match unicode_escape [d1; d2; d3; d4; d5; d6; d7; d8] with
                  | Some bs => app_fst bs (p_body r'')
                  | None => None
                  end
              | _ => None
              end
            else None
        end
      else if is_control c && negb (bool_decide (c = ch_tab)) then None
      else cons_fst c (p_body r)
  end.

(** A literal string ['...']: no escapes. *)
Fixpoint p_literal (l : list ascii) : option (list ascii * list ascii) :=
  match l with
  | [] => None
  | c :: r =>
      if decide (c = ch_apos) then Some ([], r)
      else if is_control c && negb (bool_decide (c = ch_tab)) then None
      else cons_fst c (p_literal r)
  end.

(** One escaped character is read back, whatever follows; checked on all
    256 characters. *)
Lemma p_body_esc_char c rest :
  p_body (esc_char c ++ rest) = cons_fst c (p_body rest).
Proof. destruct c as [[] [] [] [] [] [] [] []]; reflexivity. Qed.

Lemma p_body_esc s rest :
  p_body (esc s ++ ch_quote :: rest) = Some (s, rest).
Proof.
  induction s as [|c s IH]; [done|].
  simpl. by rewrite <- app_assoc, p_body_esc_char, IH.
Qed.

(** ** The text of a basic string is UTF-8 when the string is *)

Lemma esc_char_ascii c :
  is_ascii_byte c = true -> Forall (fun d => is_ascii_byte d = true) (esc_char c).
Proof. destruct c as [[] [] [] [] [] [] [] []]; intros H; vm_compute in H; try done; by repeat constructor. Qed.

Lemma esc_char_non_ascii c : is_ascii_byte c = false -> esc_char c = [c].
Proof. destruct c as [[] [] [] [] [] [] [] []]; intros H; vm_compute in H; done. Qed.

Lemma lead_info_lo c w lo hi : lead_info c = Some (w, (lo, hi)) -> 128 <= lo.
Proof. unfold lead_info. repeat case_decide; intros; simplify_eq; lia. Qed.

Lemma byte_in_non_ascii lo hi c : 128 <= lo -> byte_in lo hi c = true -> is_ascii_byte c = false.
Proof. unfold byte_in, is_ascii_byte. intros ? ?%bool_decide_eq_true. apply bool_decide_eq_false. lia. Qed.

Lemma esc_utf8 s : utf8_valid s = true -> utf8_valid (esc s) = true.
Proof.
  induction s as [s IH] using bytes_ind. destruct s as [|c r]; [done|]. simpl.
  destruct (is_ascii_byte c) eqn:Ha.
  { intros Hr. apply utf8_valid_app; [by apply utf8_valid_ascii, esc_char_ascii|].
    apply IH; [simpl; lia|done]. }
  rewrite esc_char_non_ascii by done. simpl. rewrite Ha.
  destruct (lead_info c) as [[w [lo hi]]|] eqn:Hl; [|done].
  pose proof (lead_info_lo _ _ _ _ Hl) as Hlo.
  utf8_cases Hl r; simpl; try done; rewrite ?andb_true_iff; intros; destruct_and?;
    repeat match goal with
    | H : byte_in lo hi ?d = true |- _ =>
        rewrite (esc_char_non_ascii d) by (eapply byte_in_non_ascii; [|exact H]; lia)
    | H : is_cont ?d = true |- _ =>
        rewrite (esc_char_non_ascii d) by (eapply (byte_in_non_ascii 128); [lia|exact H])
    end; simpl; rewrite ?Hl; repeat match goal with H : ?b = true |- context [?b] => rewrite H end;
    simpl; rewrite ?IH; simpl; auto with lia.
Qed.

(** ** The document *)

Definition is_ws (c : ascii) : bool :=
  bool_decide (c = " " \/ c = ch_tab \/ c = ch_nl \/ c = ch_cr).

(** Skip whitespace and comments (from [#] to the end of the line). *)
Fixpoint skip_ws_from (in_comment : bool) (l : list ascii) : list ascii :=
  match l with
  | [] => []
  | c :: r =>
      if in_comment then skip_ws_from (negb (bool_decide (c = ch_nl))) r
      else if is_ws c then skip_ws_from false r
      else if decide (c = "#") then skip_ws_from true r
      else l
  end.
Definition skip_ws : list ascii -> list ascii := skip_ws_from false.

(** Match a fixed token. *)
Fixpoint lit (s l : list ascii) : option (list ascii) :=
  match s, l with
  | [], _ => Some l
  | c :: s', d :: l' => if decide (c = d) then lit s' l' else None
  | _ :: _, [] => None
  end.

Definition is_key_char (c : ascii) : bool :=
  let n := nat_of_ascii c in
  bool_decide ((48 <= n <= 57) \/ (65 <= n <= 90) \/ (97 <= n <= 122) \/ c = "_" \/ c = "-").

(** A bare key. *)
Fixpoint p_key (l : list ascii) : list ascii * list ascii :=
  match l with
  | c :: r => if is_key_char c then let '(k, r') := p_key r in (c :: k, r') else ([], l)
  | [] => ([], [])
  end.

(** A basic or a literal string. *)
Definition p_string (l : list ascii) : option (list ascii * list ascii) :=
  match l with
  | c :: r =>
      if decide (c = ch_quote) then p_body r
      else if decide (c = ch_apos) then p_literal r
      else None
  | [] => None
  end.

(** [key = "value"] *)
Definition p_kv (l : list ascii) : option (list ascii * list ascii * list ascii) :=
  let '(k, r) := p_key l in
  if decide (k = []) then None else
  r ← lit ["="] (skip_ws r);
  '(v, r) ← p_string (skip_ws r);
  Some (k, v, r).

Definition s_alias : list ascii := String.list_ascii_of_string "alias".
Definition s_path : list ascii := String.list_ascii_of_string "path".
Definition s_bookmarks : list ascii := String.list_ascii_of_string "bookmarks".

(** ** The document as the [toml] crate reads it *)

(** A table: its keys and values in the order of the text.  The model
    reads string values only. *)
Abbreviation table := (list (list ascii * list ascii)).

(** A top-level value: a string, or an array of tables. *)
Inductive tvalue :=
  | VStr (s : list ascii)
  | VTables (ts : list table).

(** The pairs of an inline table from its first key up to [}]; [fuel]
    bounds their number. *)
Fixpoint p_fields (fuel : nat) (l : list ascii) : option (table * list ascii) :=
  match fuel with
  | 0 => None
  | S f =>
      '(k, v, r) ← p_kv (skip_ws l);
      match skip_ws r with
      | d :: r' =>
          if decide (d = ",") then '(t, r'') ← p_fields f r'; Some ((k, v) :: t, r'')
          else if decide (d = "}") then Some ([(k, v)], r')
          else None
      | [] => None
      end
  end.

(** An inline table [{ k = "v", .. }], possibly empty; TOML allows no
    trailing comma in it. *)
Definition p_inline (fuel : nat) (l : list ascii) : option (table * list ascii) :=
  r ← lit ["{"] l;
  match skip_ws r with
  | d :: r' => if decide (d = "}") then Some ([], r') else p_fields fuel (d :: r')
  | [] => None
  end.

(** The inline tables of an array up to its closing bracket, a trailing
    comma allowed; [fuel] bounds their number and their sizes. *)
Fixpoint p_items (fuel : nat) (l : list ascii) : option (list table * list ascii) :=
  match fuel with
  | 0 => None
  | S f =>
      match skip_ws l with
      | [] => None
      | c :: r =>
          if decide (c = "]") then Some ([], r) else
          '(t, r1) ← p_inline fuel (c :: r);
          match skip_ws r1 with
          | [] => None
          | d :: r2 =>
              if decide (d = ",") then '(ts, r3) ← p_items f r2; Some (t :: ts, r3)
              else if decide (d = "]") then Some ([t], r2)
              else None
          end
      end
  end.

(** The value of a top-level key. *)
Definition p_value (fuel : nat) (l : list ascii) : option (tvalue * list ascii) :=
  match l with
  | c :: r =>
      if decide (c = "[") then '(ts, r') ← p_items fuel r; Some (VTables ts, r')
      else '(v, r') ← p_string l; Some (VStr v, r')
  | [] => None
  end.

(** Spaces and tabs inside a line. *)
Fixpoint skip_sp (l : list ascii) : list ascii :=
  match l with
  | c :: r => if decide (c = " " \/ c = ch_tab) then skip_sp r else l
  | [] => []
  end.

(** The end of a line: spaces, then a newline ([\n] or [\r\n]) or a
    comment; the end of the text ends the last line. *)
Definition p_eol (l : list ascii) : option (list ascii) :=
  match skip_sp l with
  | [] => Some []
  | c :: r =>
      if decide (c = ch_nl) then Some r
      else if decide (c = "#") then Some (skip_ws_from true r)
      else if decide (c = ch_cr) then lit [ch_nl] r
      else None
  end.

(** The top-level [key = value] lines, up to the first table header. *)
Fixpoint p_top (fuel : nat) (l : list ascii) : option (list (list ascii * tvalue) * list ascii) :=
  match fuel with
  | 0 => None
  | S f =>
      match skip_ws l with
      | [] => Some ([], [])
      | c :: r =>
          if decide (c = "[") then Some ([], c :: r) else
          let '(k, r1) := p_key (c :: r) in
          if decide (k = []) then None else
          r2 ← lit ["="] (skip_ws r1);
          '(v, r3) ← p_value fuel (skip_ws r2);
          r4 ← p_eol r3;
          '(kvs, r5) ← p_top f r4;
          Some ((k, v) :: kvs, r5)
      end
  end.

(** [[[bookmarks]]]: the header of one more table of the array. *)
Definition p_header (l : list ascii) : option (list ascii) :=
  r ← lit ["["; "["] l;
  r ← lit s_bookmarks (skip_sp r);
  r ← lit ["]"; "]"] (skip_sp r);
  p_eol r.

(** The [key = "value"] lines of a table, up to the next header. *)
Fixpoint p_lines (fuel : nat) (l : list ascii) : option (table * list ascii) :=
  match fuel with
  | 0 => None
  | S f =>
      match skip_ws l with
      | [] => Some ([], [])
      | c :: r =>
          if decide (c = "[") then Some ([], c :: r) else
          '(k, v, r1) ← p_kv (c :: r);
          r2 ← p_eol r1;
          '(t, r3) ← p_lines f r2;
          Some ((k, v) :: t, r3)
      end
  end.

(** The tables [[[bookmarks]]] up to the end of the text, the form the
    [toml] crate prints for a [Vec] of structs. *)
Fixpoint p_tables (fuel : nat) (l : list ascii) : option (list table) :=
  match fuel with
  | 0 => None
  | S f =>
      match skip_ws l with
      | [] => Some []
      | l' =>
          r ← p_header l';
          '(t, r) ← p_lines fuel r;
          ts ← p_tables f r;
          Some (t :: ts)
      end
  end.

Definition keys_unique {V} (kvs : list (list ascii * V)) : bool :=
  bool_decide (NoDup (fst <$> kvs)).

Definition tables_of (doc : list (list ascii * tvalue)) : list table :=
  doc ≫= fun kv => match kv.2 with VTables ts => ts | VStr _ => [] end.

(** [toml::from_str] up to the value tree: the top-level pairs, then the
    tables [[[bookmarks]]] as the array [bookmarks]; a key defined twice in
    a table, or [bookmarks] both as an array and as tables, is an error.
    The fuel is the length of the text, more than the number of lines,
    tables, entries and pairs. *)
Definition toml_parse (l : list ascii) : option (list (list ascii * tvalue)) :=
  '(kvs, r) ← p_top (length l) l;
  ts ← p_tables (length l) r;
  let doc := if decide (ts = []) then kvs else kvs ++ [(s_bookmarks, VTables ts)] in
  if keys_unique doc && forallb keys_unique (tables_of doc) then Some doc else None.

(** ** Deserialization ([serde]) *)

(** The value of a field: the pair with that key. *)
Definition field {V} (k : list ascii) (kvs : list (list ascii * V)) : option V :=
  snd <$> List.find (fun p => bool_decide (p.1 = k)) kvs.

(** [#[derive(Deserialize)] struct Bookmark]: [alias] and [path] are
    required (a missing field is an error), other keys are ignored; a
    [PathBuf] is read from any string, as its bytes. *)
Definition de_bookmark (t : table) : option Bookmark :=
  a ← field s_alias t;
  p ← field s_path t;
  Some (mkBookmark (String.string_of_list_ascii a) p).

(** [#[derive(Deserialize)] struct Config]: [bookmarks] is required and
    must be a sequence; other keys are ignored. *)
Definition de_config (doc : list (list ascii * tvalue)) : option (list Bookmark) :=
  match field s_bookmarks doc with
  | Some (VTables ts) => mapM de_bookmark ts
  | _ => None
  end.

(** [toml::from_str::<Config>]. *)
Definition toml_decode_l (l : list ascii) : option (list Bookmark) :=
  toml_parse l ≫= de_config.

Definition toml_decode (s : string) : option Config :=
  mkConfig <$> toml_decode_l (String.list_ascii_of_string s).

(** [toml::to_string(config)]: one entry per line. *)
Definition enc_item (b : Bookmark) : list ascii :=
  String.list_ascii_of_string "
  { alias = " ++ quote (String.list_ascii_of_string (alias b)) ++
  String.list_ascii_of_string ", path = " ++ quote (path b) ++
  String.list_ascii_of_string " },".

Fixpoint enc_items (bs : list Bookmark) : list ascii :=
  match bs with
  | [] => []
  | b :: bs' => enc_item b ++ enc_items bs'
  end.

Definition toml_encode_l (c : Config) : list ascii :=
  String.list_ascii_of_string "bookmarks = [" ++ enc_items (bookmarks c) ++
  String.list_ascii_of_string "
]
".

(** [toml::to_string(config)]: an error when a path is not UTF-8. *)
Definition toml_encode (c : Config) : option string :=
  if forallb (fun b => utf8_valid (path b)) (bookmarks c)
  then Some (String.string_of_list_ascii (toml_encode_l c)) else None.

(** ** Texts with more fields than pomelo writes

    A later version of the program, or a hand edit, may add keys to an
    entry or at the top of the file; [serde] ignores them. *)

(** A [key = "value"] pair as the printer writes it. *)
Definition enc_kv (kv : list ascii * list ascii) : list ascii :=
  kv.1 ++ String.list_ascii_of_string " = " ++ quote kv.2.

Definition enc_sep_kv (kv : list ascii * list ascii) : list ascii :=
  String.list_ascii_of_string ", " ++ enc_kv kv.

(** The table an entry is read as: [alias], [path], then the extra keys. *)
Definition entry_table (b : Bookmark) (ex : table) : table :=
  (s_alias, String.list_ascii_of_string (alias b)) :: (s_path, path b) :: ex.

(** An entry with the extra pairs [ex] after [alias] and [path]. *)
Definition enc_item_x (b : Bookmark) (ex : table) : list ascii :=
  String.list_ascii_of_string "
  { " ++ enc_kv (s_alias, String.list_ascii_of_string (alias b)) ++
  concat (map enc_sep_kv ((s_path, path b) :: ex)) ++ String.list_ascii_of_string " },".

(** A configuration with the top-level pairs [top] before [bookmarks] and
    the extra pairs [exs] in its entries. *)
Definition toml_encode_x (top : table) (c : Config) (exs : list table) : list ascii :=
  concat (map (fun kv => enc_kv kv ++ [ch_nl]) top) ++
  String.list_ascii_of_string "bookmarks = [" ++ concat (zip_with enc_item_x (bookmarks c) exs) ++
  String.list_ascii_of_string "
]
".

(** A bare key. *)
Definition bare_key (k : list ascii) : Prop := k <> [] /\ Forall (fun c => is_key_char c = true) k.

(** Extra pairs: bare keys, none twice, none of the [reserved] ones. *)
Definition extras_ok (reserved : list (list ascii)) (t : table) : Prop :=
  Forall (fun kv => bare_key kv.1 /\ kv.1 ∉ reserved) t /\ NoDup (fst <$> t).

(** ** The layout of the [toml] crate

    [toml::to_string] writes the [Vec] of a struct as an array of tables:
    a header [[[bookmarks]]] per entry, then its fields one per line, with
    a blank line between two tables; an empty [Vec] is [bookmarks = []].
    The strings are written as basic strings, as [quote] does. *)

(** The [key = "value"] lines of a table. *)
Definition enc_lines (t : table) : list ascii :=
  concat (map (fun kv => enc_kv kv ++ [ch_nl]) t).

Definition s_header : list ascii := String.list_ascii_of_string "[[bookmarks]]" ++ [ch_nl].

(** One table of the array: its header, then its lines. *)
Definition enc_table (t : table) : list ascii := s_header ++ enc_lines t.

(** Tables, each after a line break: a blank line between two of them. *)
Definition tables_text (ts : list table) : list ascii :=
  concat (map (fun t => ch_nl :: enc_table t) ts).

(** [toml::to_string(config)] in the crate's layout. *)
Definition toml_encode_tables_l (c : Config) : list ascii :=
  match bookmarks c with
  | [] => String.list_ascii_of_string "bookmarks = []" ++ [ch_nl]
  | b :: bs =>
      enc_table (entry_table b []) ++
      concat (map (fun b => ch_nl :: enc_table (entry_table b [])) bs)
  end.

(** ** The round trip *)

Lemma key_char_not_ws c :
  is_key_char c = true -> is_ws c = false /\ c <> "#"%char /\ c <> "["%char /\ c <> "}"%char.
Proof. destruct c as [[] [] [] [] [] [] [] []]; intros H; vm_compute in H; done. Qed.

Lemma skip_ws_key c l : is_key_char c = true -> skip_ws (c :: l) = c :: l.
Proof.
  intros (Hw & Hh & _)%key_char_not_ws. unfold skip_ws. cbn. rewrite Hw.
  by rewrite decide_False.
Qed.

Lemma skip_ws_space l : skip_ws (" " :: l) = skip_ws l.
Proof. reflexivity. Qed.

Lemma skip_ws_comma l : skip_ws ("," :: l) = "," :: l.
Proof. reflexivity. Qed.

Lemma p_key_app k r :
  Forall (fun c => is_key_char c = true) k ->
  match r with c :: _ => is_key_char c = false | [] => True end ->
  p_key (k ++ r) = (k, r).
Proof.
  intros Hk Hr. induction Hk as [|c k Hc _ IH]; cbn.
  - destruct r as [|c r]; [done|]. cbn. by rewrite Hr.
  - by rewrite Hc, IH.
Qed.

Lemma quote_app v rest : quote v ++ rest = ch_quote :: esc v ++ ch_quote :: rest.
Proof. unfold quote. cbn. by rewrite <-app_assoc. Qed.

Lemma p_kv_enc kv rest : bare_key kv.1 -> p_kv (enc_kv kv ++ rest) = Some (kv.1, kv.2, rest).
Proof.
  destruct kv as [k v]. intros [Hne Hk]. unfold p_kv, enc_kv. cbn [fst snd].
  rewrite <-!app_assoc, p_key_app by done. rewrite decide_False by done.
  rewrite quote_app. simpl. by rewrite p_body_esc.
Qed.

Lemma enc_kv_key kv l :
  bare_key kv.1 -> exists c r, enc_kv kv ++ l = c :: r /\ is_key_char c = true.
Proof.
  destruct kv as [[|c k] v]; intros [Hne Hk]; [done|].
  inversion Hk; subst. exists c. eexists. split; [|done].
  unfold enc_kv. cbn [fst snd app]. by rewrite <-!app_assoc.
Qed.

Lemma skip_ws_enc_kv kv l : bare_key kv.1 -> skip_ws (enc_kv kv ++ l) = enc_kv kv ++ l.
Proof. intros (c & r & -> & Hc)%(enc_kv_key _ l). by apply skip_ws_key. Qed.

Lemma p_fields_space fuel l : p_fields fuel (" " :: l) = p_fields fuel l.
Proof. by destruct fuel. Qed.

Lemma p_fields_enc fuel kv t rest :
  Forall (fun kv => bare_key kv.1) (kv :: t) -> length t < fuel ->
  p_fields fuel (enc_kv kv ++ concat (map enc_sep_kv t) ++ String.list_ascii_of_string " }" ++ rest)
    = Some (kv :: t, rest).
Proof.
  revert kv fuel. induction t as [|kv' t IH]; intros kv [|f] Hk Hf; cbn [length] in Hf; try lia;
    inversion Hk as [|? ? Hkv Hk']; subst.
  - cbn [p_fields]. rewrite skip_ws_enc_kv, p_kv_enc by done. simpl. by destruct kv.
  - cbn [p_fields]. rewrite skip_ws_enc_kv, p_kv_enc by done.
    cbn [map concat]. unfold enc_sep_kv at 1. rewrite <-!app_assoc. simpl.
    rewrite p_fields_space, IH by (done || lia). simpl. by destruct kv.
Qed.
Lemma p_inline_enc fuel kv t rest :
  Forall (fun kv => bare_key kv.1) (kv :: t) -> length t < fuel ->
  p_inline fuel ("{" :: " " :: enc_kv kv ++ concat (map enc_sep_kv t) ++
                 String.list_ascii_of_string " }" ++ rest) = Some (kv :: t, rest).
Proof.
  intros Hk Hf. pose proof Hk as Hk'. inversion Hk' as [|? ? Hkv _]; subst.
  unfold p_inline. simpl lit. cbn [mbind option_bind]. rewrite skip_ws_space, skip_ws_enc_kv by done.
  destruct (enc_kv_key kv (concat (map enc_sep_kv t) ++ " " :: "}" :: rest) Hkv)
    as (c & r & Heq & Hc).
  rewrite Heq. destruct (key_char_not_ws c Hc) as (_ & _ & _ & Hb).
  rewrite decide_False by done. rewrite <-Heq. exact (p_fields_enc fuel kv t rest Hk Hf).
Qed.

Lemma skip_ws_item b ex r :
  skip_ws (enc_item_x b ex ++ r) =
    "{" :: " " :: enc_kv (s_alias, String.list_ascii_of_string (alias b)) ++
    concat (map enc_sep_kv ((s_path, path b) :: ex)) ++ String.list_ascii_of_string " }" ++ "," :: r.
Proof. unfold enc_item_x. rewrite <-!app_assoc. reflexivity. Qed.

Lemma bare_alias_path : bare_key s_alias /\ bare_key s_path /\ bare_key s_bookmarks.
Proof. split_and!; split; try done; repeat constructor. Qed.

Definition extras_keys_bare (ex : table) : Prop := Forall (fun kv => bare_key kv.1) ex.

Lemma entry_table_bare b ex :
  extras_keys_bare ex -> Forall (fun kv => bare_key kv.1) (entry_table b ex).
Proof. intros Hex. destruct bare_alias_path as (Ha & Hp & _). by repeat constructor. Qed.

Lemma p_items_enc fuel bs exs tail :
  length exs = length bs -> length exs < fuel ->
  Forall (fun ex => length exs + length ex + 1 < fuel) exs -> Forall extras_keys_bare exs ->
  p_items fuel (concat (zip_with enc_item_x bs exs) ++ "010" :: "]" :: tail) =
    Some (zip_with entry_table bs exs, tail).
Proof.
  revert exs fuel. induction bs as [|b bs IH]; intros [|ex exs] [|f] Hlen Hf Hex Hk;
    cbn [length] in *; try lia; [done|].
  inversion Hex as [|? ? Hex1 Hex']; inversion Hk as [|? ? Hk1 Hk']; subst.
  cbn [zip_with concat]. rewrite <-app_assoc. cbn [p_items]. rewrite skip_ws_item.
  rewrite decide_False by done.
  pose proof (entry_table_bare b ex Hk1) as Hb. unfold entry_table in Hb.
  rewrite (p_inline_enc (S f)) by (done || (cbn [length]; lia)).
  cbn [mbind option_bind]. rewrite skip_ws_comma, decide_True by done.
  rewrite IH; [done|lia|lia| |done].
  eapply Forall_impl; [exact Hex'|]. cbn. lia.
Qed.

Lemma p_top_line fuel kv r :
  bare_key kv.1 ->
  p_top (S fuel) (enc_kv kv ++ ch_nl :: r) =
    match p_top fuel r with
    | Some (kvs, r') => Some ((kv.1, VStr kv.2) :: kvs, r')
    | None => None
    end.
Proof.
  intros Hkv. cbn [p_top]. rewrite skip_ws_enc_kv by done.
  destruct kv as [[|c k] v]; destruct Hkv as [Hne Hk]; [done|]. inversion Hk as [|? ? Hc Hk']; subst.
  cbn [fst snd]. unfold enc_kv. cbn [fst snd app]. destruct (key_char_not_ws c Hc) as (_ & _ & Hl & _).
  rewrite decide_False by done.
  rewrite <-!app_assoc, app_comm_cons, p_key_app by done. rewrite decide_False by done.
  rewrite quote_app. simpl. rewrite p_body_esc. simpl. by destruct (p_top fuel r) as [[]|].
Qed.

(** The top-level pairs as the parser reads them. *)
Definition top_values (top : table) : list (list ascii * tvalue) :=
  map (fun kv => (kv.1, VStr kv.2)) top.

Lemma p_top_lines fuel top r :
  Forall (fun kv => bare_key kv.1) top -> length top <= fuel ->
  p_top fuel (concat (map (fun kv => enc_kv kv ++ [ch_nl]) top) ++ r) =
    match p_top (fuel - length top) r with
    | Some (kvs, r') => Some (top_values top ++ kvs, r')
    | None => None
    end.
Proof.
  revert fuel. induction top as [|kv top IH]; intros fuel Hk Hf; cbn [length] in *.
  - rewrite Nat.sub_0_r. cbn. by destruct (p_top fuel r) as [[]|].
  - inversion Hk; subst. destruct fuel as [|f]; [lia|].
    cbn [map concat]. rewrite <-!app_assoc. cbn [app]. rewrite p_top_line by done.
    rewrite IH by (done || lia). cbn [Nat.sub]. by destruct (p_top (f - length top) r) as [[]|].
Qed.

Lemma p_top_bookmarks f items ts :
  p_items (S (S f)) items = Some (ts, [ch_nl]) ->
  p_top (S (S f)) (String.list_ascii_of_string "bookmarks = [" ++ items) =
    Some ([(s_bookmarks, VTables ts)], []).
Proof.
  intros H. cbn [p_top]. remember (S (S f)) as n eqn:Hn.
  simpl. rewrite H. subst n. destruct f; reflexivity.
Qed.

(** *** The fuel: the text is longer than what the parser counts *)

Lemma length_concat_map_ge {A B} (f : A -> list B) l :
  (forall x, 1 <= length (f x)) -> length l <= length (concat (map f l)).
Proof. intros Hf. induction l as [|x l IH]; cbn; [lia|]. rewrite length_app. specialize (Hf x). lia. Qed.

Lemma length_enc_item_x b ex : length ex + 1 <= length (enc_item_x b ex).
Proof.
  unfold enc_item_x. rewrite !length_app.
  assert (H : length ((s_path, path b) :: ex) <= length (concat (map enc_sep_kv ((s_path, path b) :: ex)))).
  { apply length_concat_map_ge. intros kv. unfold enc_sep_kv. cbn. lia. }
  cbn [length] in *. lia.
Qed.

Lemma length_items_ge bs exs :
  length exs = length bs -> length exs <= length (concat (zip_with enc_item_x bs exs)).
Proof.
  revert exs. induction bs as [|b bs IH]; intros [|ex exs] Hl; cbn [length zip_with concat] in *;
    try lia.
  rewrite length_app. pose proof (length_enc_item_x b ex). specialize (IH exs ltac:(lia)). lia.
Qed.

Lemma length_items bs exs :
  length exs = length bs ->
  Forall (fun ex => length exs + length ex <= length (concat (zip_with enc_item_x bs exs))) exs.
Proof.
  revert exs. induction bs as [|b bs IH]; intros [|ex exs] Hl; cbn [length zip_with concat] in *;
    try lia; [constructor|].
  rewrite length_app. pose proof (length_enc_item_x b ex). pose proof (length_items_ge bs exs ltac:(lia)).
  constructor; [lia|]. eapply Forall_impl; [apply IH; lia|]. intros ex' Hex'. cbv beta in *. lia.
Qed.

(** *** The value tree of a text with extra fields *)

Lemma toml_parse_encode_x top c exs :
  length exs = length (bookmarks c) ->
  Forall (fun kv => bare_key kv.1) top -> Forall extras_keys_bare exs ->
  toml_parse (toml_encode_x top c exs) =
    (let doc := top_values top ++
                [(s_bookmarks, VTables (zip_with entry_table (bookmarks c) exs))] in
     if keys_unique doc && forallb keys_unique (tables_of doc) then Some doc else None).
Proof.
  intros Hlen Htop Hexs. unfold toml_parse.
  set (lines := concat (map (fun kv => enc_kv kv ++ [ch_nl]) top)).
  set (items := concat (zip_with enc_item_x (bookmarks c) exs)).
  assert (Hlines : length top <= length lines).
  { apply length_concat_map_ge. intros kv. rewrite length_app. cbn. lia. }
  pose proof (length_items_ge _ _ Hlen) as Hge. pose proof (length_items _ _ Hlen) as Hfor.
  fold items in Hge, Hfor.
  assert (HL : length (toml_encode_x top c exs) = length lines + 16 + length items).
  { unfold toml_encode_x. fold lines items. rewrite !length_app. cbn. lia. }
  rewrite HL. unfold toml_encode_x. fold items.
  rewrite p_top_lines by (done || lia).
  replace (length lines + 16 + length items - length top)
    with (S (S (length lines + 14 + length items - length top))) by lia.
  rewrite (p_top_bookmarks _ (items ++ String.list_ascii_of_string "
]
") (zip_with entry_table (bookmarks c) exs)).
  2:{ apply (p_items_enc _ (bookmarks c) exs [ch_nl]); try done; [lia|].
      eapply Forall_impl; [exact Hfor|]. cbn. lia. }
  replace (length lines + 16 + length items) with (S (length lines + 15 + length items)) by lia.
  cbn. by rewrite decide_True.
Qed.

(** *** Deserialization of the value tree *)

Lemma field_skip {V} k (l l' : list (list ascii * V)) :
  Forall (fun kv => kv.1 <> k) l -> field k (l ++ l') = field k l'.
Proof.
  intros Hl. unfold field. induction Hl as [|kv l Hkv _ IH]; [done|].
  cbn. by rewrite bool_decide_false.
Qed.

Lemma de_bookmark_entry b ex : de_bookmark (entry_table b ex) = Some b.
Proof.
  unfold de_bookmark, entry_table, field. cbn.
  repeat case_bool_decide; try done. cbn.
  rewrite String.string_of_list_ascii_of_string. by destruct b.
Qed.

Lemma mapM_de_bookmark bs exs :
  length exs = length bs -> mapM de_bookmark (zip_with entry_table bs exs) = Some bs.
Proof.
  revert exs. induction bs as [|b bs IH]; intros [|ex exs] Hl; cbn [zip_with length] in *;
    try lia; [done|].
  cbn [mapM]. rewrite de_bookmark_entry. cbn [mbind option_bind]. rewrite IH by lia. done.
Qed.

Lemma tables_of_top top ts : tables_of (top_values top ++ [(s_bookmarks, VTables ts)]) = ts.
Proof. induction top as [|kv top IH]; cbn; [by rewrite app_nil_r|done]. Qed.

Lemma top_values_keys top : fst <$> top_values top = fst <$> top.
Proof. unfold top_values. rewrite <-list_fmap_compose. done. Qed.

(** The general round trip: the text with any extra fields, at the top
    or in the entries, is read as the configuration. *)
Lemma toml_decode_l_encode_x top c exs :
  length exs = length (bookmarks c) ->
  extras_ok [s_bookmarks] top -> Forall (extras_ok [s_alias; s_path]) exs ->
  toml_decode_l (toml_encode_x top c exs) = Some (bookmarks c).
Proof.
  intros Hlen [Htop Hnd] Hexs. unfold toml_decode_l.
  rewrite toml_parse_encode_x; first last.
  { eapply Forall_impl; [exact Hexs|]. intros ex [Hex _]. eapply Forall_impl; [exact Hex|]. naive_solver. }
  { eapply Forall_impl; [exact Htop|]. naive_solver. }
  { done. }
  cbn zeta. rewrite tables_of_top.
  assert (keys_unique (top_values top ++ [(s_bookmarks, VTables (zip_with entry_table (bookmarks c) exs))]) = true) as ->.
  { apply bool_decide_eq_true. rewrite fmap_app, top_values_keys. cbn.
    apply NoDup_app. split_and!; [done| |apply NoDup_singleton].
    intros k Hk ->%list_elem_of_singleton. apply list_elem_of_fmap in Hk as (kv & Hkv & Hin).
    rewrite Forall_forall in Htop. apply Htop in Hin as [_ Hr]. subst. set_solver. }
  assert (forallb keys_unique (zip_with entry_table (bookmarks c) exs) = true) as ->.
  { apply forallb_forall. intros t Hin%list_elem_of_In. apply list_elem_of_lookup in Hin as [i Hi].
    apply lookup_zip_with_Some in Hi as (b & ex & -> & _ & Hex).
    rewrite Forall_lookup in Hexs. apply Hexs in Hex as [Hex Hndx].
    apply bool_decide_eq_true. cbn. constructor; [|constructor].
    - rewrite elem_of_cons. intros [Heq|Hin]; [discriminate|].
      apply list_elem_of_fmap in Hin as (kv & Hk & Hin). rewrite Forall_forall in Hex.
      apply Hex in Hin as [_ Hr]. apply Hr. rewrite <-Hk. apply list_elem_of_here.
    - intros Hin. apply list_elem_of_fmap in Hin as (kv & Hk & Hin). rewrite Forall_forall in Hex.
      apply Hex in Hin as [_ Hr]. apply Hr. rewrite <-Hk. constructor. apply list_elem_of_here.
    - done. }
  cbn. unfold de_config. rewrite field_skip.
  - cbn. rewrite bool_decide_true by done. cbn. by apply mapM_de_bookmark.
  - unfold top_values. apply Forall_fmap. eapply Forall_impl; [exact Htop|]. cbn.
    intros kv [_ Hr] Heq. apply Hr. rewrite Heq. apply list_elem_of_here.
Qed.

(** The text pomelo writes is the one without extra fields. *)
Lemma enc_item_x_nil b : enc_item_x b [] = enc_item b.
Proof.
  unfold enc_item, enc_item_x, enc_sep_kv, enc_kv. cbn [concat map fst snd].
  rewrite app_nil_r, <-!app_assoc. reflexivity.
Qed.

Lemma toml_encode_x_nil c :
  toml_encode_x [] c (replicate (length (bookmarks c)) []) = toml_encode_l c.
Proof.
  unfold toml_encode_x, toml_encode_l. cbn [map concat app]. do 2 f_equal.
  induction (bookmarks c) as [|b bs IH]; [done|].
  cbn [length replicate zip_with concat enc_items]. by rewrite enc_item_x_nil, IH.
Qed.

(** The parser reads back the text the printer writes, whatever the
    bytes of the strings. *)
Lemma toml_decode_l_encode_l c : toml_decode_l (toml_encode_l c) = Some (bookmarks c).
Proof.
  rewrite <-toml_encode_x_nil. apply toml_decode_l_encode_x.
  - by rewrite length_replicate.
  - split; [constructor|constructor].
  - apply Forall_replicate. split; [constructor|constructor].
Qed.

Lemma toml_encode_Some c s :
  toml_encode c = Some s -> s = String.string_of_list_ascii (toml_encode_l c).
Proof. unfold toml_encode. case_match; congruence. Qed.

(** C5: Decoding what the encoder writes gives the configuration back:
    [toml::from_str(&toml::to_string(&c)?)] is [c], whatever the aliases
    and paths. *)
Theorem toml_roundtrip c s : toml_encode c = Some s -> toml_decode s = Some c.
Proof.
  intros ->%toml_encode_Some. unfold toml_decode.
  rewrite String.list_ascii_of_string_of_list_ascii, toml_decode_l_encode_l. by destruct c.
Qed.

(** C25: forward compatibility of the configuration file (specification,
    section 6): a file with more fields than pomelo writes, at the top or
    in the entries (bare keys, none twice, none of [bookmarks], [alias] and
    [path], with any string values), is read as the configuration its
    [bookmarks], [alias] and [path] give; [serde] ignores the rest. *)
Theorem toml_decode_extra_fields top c exs :
  length exs = length (bookmarks c) ->
  extras_ok [s_bookmarks] top -> Forall (extras_ok [s_alias; s_path]) exs ->
  toml_decode (String.string_of_list_ascii (toml_encode_x top c exs)) = Some c.
Proof.
  intros Hl Ht He. unfold toml_decode.
  rewrite String.list_ascii_of_string_of_list_ascii, toml_decode_l_encode_x by done.
  by destruct c.
Qed.

(** *** The crate's layout *)

Lemma p_eol_nl r : p_eol (ch_nl :: r) = Some r.
Proof. reflexivity. Qed.

Lemma p_lines_line fuel kv r :
  bare_key kv.1 ->
  p_lines (S fuel) (enc_kv kv ++ ch_nl :: r) =
    match p_lines fuel r with Some (t, r') => Some (kv :: t, r') | None => None end.
Proof.
  intros Hkv. cbn [p_lines]. rewrite skip_ws_enc_kv by done.
  destruct (enc_kv_key kv (ch_nl :: r) Hkv) as (c & r0 & Heq & Hc). rewrite Heq.
  destruct (key_char_not_ws c Hc) as (_ & _ & Hl & _). rewrite decide_False by done.
  rewrite <-Heq, p_kv_enc by done. cbn [mbind option_bind]. rewrite p_eol_nl.
  cbn [mbind option_bind]. destruct kv. by destruct (p_lines fuel r) as [[]|].
Qed.

Lemma p_lines_lines fuel t r :
  Forall (fun kv => bare_key kv.1) t -> length t <= fuel ->
  p_lines fuel (enc_lines t ++ r) =
    match p_lines (fuel - length t) r with Some (t', r') => Some (t ++ t', r') | None => None end.
Proof.
  revert fuel. induction t as [|kv t IH]; intros fuel Hk Hf; cbn [length] in *.
  - rewrite Nat.sub_0_r. cbn. by destruct (p_lines fuel r) as [[]|].
  - inversion Hk; subst. destruct fuel as [|f]; [lia|]. unfold enc_lines.
    cbn [map concat]. rewrite <-!app_assoc. cbn [app]. rewrite p_lines_line by done.
    fold (enc_lines t). rewrite IH by (done || lia). cbn [Nat.sub].
    by destruct (p_lines (f - length t) r) as [[]|].
Qed.

Lemma p_tables_nl fuel l : p_tables fuel (ch_nl :: l) = p_tables fuel l.
Proof. by destruct fuel. Qed.

Lemma p_tables_tail fuel ts : p_tables fuel (tail (tables_text ts)) = p_tables fuel (tables_text ts).
Proof. destruct ts; [done|]. cbn. by rewrite p_tables_nl. Qed.

Lemma p_lines_stop fuel ts : p_lines (S fuel) (tables_text ts) = Some ([], tail (tables_text ts)).
Proof. by destruct ts. Qed.

Lemma p_tables_table fuel r :
  p_tables (S fuel) (s_header ++ r) =
    '(t, r') ← p_lines (S fuel) r; ts ← p_tables fuel r'; Some (t :: ts).
Proof. reflexivity. Qed.

Lemma p_tables_text fuel ts :
  length ts < fuel ->
  Forall (fun t => Forall (fun kv => bare_key kv.1) t /\ length ts + length t < fuel) ts ->
  p_tables fuel (tables_text ts) = Some ts.
Proof.
  revert fuel. induction ts as [|t ts IH]; intros [|f] Hf Hts; cbn [length] in *; try lia; [done|].
  inversion Hts as [|? ? [Hk Hl] Hts']; subst. unfold tables_text. cbn [map concat app].
  fold (tables_text ts). rewrite p_tables_nl. unfold enc_table. rewrite <-app_assoc, p_tables_table.
  rewrite p_lines_lines by (done || lia). replace (S f - length t) with (S (f - length t)) by lia.
  rewrite p_lines_stop, app_nil_r. cbn [mbind option_bind]. rewrite p_tables_tail, IH; [done|lia|].
  eapply Forall_impl; [exact Hts'|]. intros t' [? ?]. split; [done|lia].
Qed.

Lemma length_tables_text ts : 8 * length ts <= length (tables_text ts).
Proof.
  induction ts as [|t ts IH]; [done|]. unfold tables_text in *. cbn [map concat app length].
  unfold enc_table in *. rewrite !length_app. change (length s_header) with 14. lia.
Qed.

Lemma tail_tables_text t ts :
  tail (tables_text (t :: ts)) = s_header ++ enc_lines t ++ tables_text ts.
Proof. unfold tables_text, enc_table. cbn. by rewrite <-?app_assoc. Qed.

Lemma p_top_header fuel r : p_top (S fuel) (s_header ++ r) = Some ([], s_header ++ r).
Proof. reflexivity. Qed.

Lemma keys_unique_entry b : keys_unique (entry_table b []) = true.
Proof. reflexivity. Qed.

Lemma forallb_keys_unique_entries bs :
  forallb keys_unique (map (fun b => entry_table b []) bs) = true.
Proof. induction bs as [|b bs IH]; [done|]. cbn [map forallb]. by rewrite keys_unique_entry, IH. Qed.

Lemma mapM_de_bookmark_entries bs : mapM de_bookmark (map (fun b => entry_table b []) bs) = Some bs.
Proof.
  induction bs as [|b bs IH]; [done|]. cbn [map mapM].
  rewrite de_bookmark_entry. cbn [mbind option_bind]. by rewrite IH.
Qed.

(** The value tree of the crate's layout: the array [bookmarks] of the
    entries' tables. *)
Lemma toml_parse_tables b bs :
  let ts := map (fun b => entry_table b []) (b :: bs) in
  toml_parse (tail (tables_text ts)) = Some [(s_bookmarks, VTables ts)].
Proof.
  intros ts. pose proof (length_tables_text (map (fun b => entry_table b []) bs)) as Hl.
  rewrite length_map in Hl. unfold toml_parse. subst ts. cbn [map].
  rewrite tail_tables_text, length_app. change (length s_header) with 14.
  change (14 + ?n) with (S (13 + n)). rewrite p_top_header. cbn [mbind option_bind].
  rewrite <-tail_tables_text, p_tables_tail, p_tables_text; cycle 1.
  - cbn [length]. rewrite length_map, !length_app. lia.
  - apply Forall_forall. intros t Ht.
    assert (exists b', t = entry_table b' []) as [b' ->].
    { apply list_elem_of_In in Ht as [<-|(b' & <- & _)%in_map_iff]; eauto. }
    split; [apply entry_table_bare; constructor|]. cbn [length]. rewrite length_map, !length_app.
    change (length (entry_table b' [])) with 2. lia.
  - cbn [mbind option_bind]. rewrite decide_False by done. cbn [app tables_of mbind list_bind].
    unfold keys_unique at 1. rewrite bool_decide_true by (cbn; apply NoDup_singleton).
    cbn [app andb]. rewrite app_nil_r.
    change (entry_table b [] :: map (fun b => entry_table b []) bs)
      with (map (fun b => entry_table b []) (b :: bs)).
    cbn [snd]. by rewrite forallb_keys_unique_entries.
Qed.

(** The parser reads back the text in the crate's layout. *)
Lemma toml_decode_l_tables c : toml_decode_l (toml_encode_tables_l c) = Some (bookmarks c).
Proof.
  unfold toml_encode_tables_l. destruct (bookmarks c) as [|b bs]; [reflexivity|].
  assert (Htxt : enc_table (entry_table b []) ++
      concat (map (fun b => ch_nl :: enc_table (entry_table b [])) bs) =
      tail (tables_text (map (fun b => entry_table b []) (b :: bs)))).
  { unfold tables_text. cbn. by rewrite map_map. }
  rewrite Htxt. unfold toml_decode_l. rewrite toml_parse_tables. cbn [mbind option_bind].
  unfold de_config, field. cbn. rewrite bool_decide_true by done. cbn.
  apply (mapM_de_bookmark_entries (b :: bs)).
Qed.

(** C21: [toml::from_str] reads back the text [toml::to_string] writes in
    the crate's own layout (a [[[bookmarks]]] table per entry, blank lines
    between tables, [bookmarks = []] when there is none): decoding it
    gives the configuration, whatever the bytes of the aliases and paths. *)
Theorem toml_decode_crate_layout c :
  toml_decode (String.string_of_list_ascii (toml_encode_tables_l c)) = Some c.
Proof.
  unfold toml_decode. rewrite String.list_ascii_of_string_of_list_ascii, toml_decode_l_tables.
  by destruct c.
Qed.

Lemma toml_decode_empty : toml_decode EmptyString = None.
Proof. reflexivity. Qed.

Lemma toml_encode_is_Some c :
  is_Some (toml_encode c) <-> Forall (fun b => utf8_valid (path b) = true) (bookmarks c).
Proof.
  unfold toml_encode. rewrite Forall_forall. destruct (forallb _ _) eqn:Hf.
  - rewrite forallb_forall in Hf. split; [|by eexists]. intros _ b Hb.
    by apply Hf, list_elem_of_In.
  - split; [by intros []|]. intros Hall. apply not_true_iff_false in Hf. exfalso. apply Hf.
    apply forallb_forall. intros b Hb. by apply Hall, list_elem_of_In.
Qed.

Lemma quote_utf8 s : utf8_valid s = true -> utf8_valid (quote s) = true.
Proof.
  intros Hs. unfold quote. change (ch_quote :: esc s ++ [ch_quote]) with ([ch_quote] ++ esc s ++ [ch_quote]).
  apply utf8_valid_app; [done|]. apply utf8_valid_app; [by apply esc_utf8|done].
Qed.

(** The text is UTF-8 when every alias and path is. *)
Lemma toml_encode_l_utf8 c :
  Forall (fun b => utf8_valid (String.list_ascii_of_string (alias b)) = true /\
                   utf8_valid (path b) = true) (bookmarks c) ->
  utf8_valid (toml_encode_l c) = true.
Proof.
  intros Hall. unfold toml_encode_l. apply utf8_valid_app; [done|].
  apply utf8_valid_app; [|done]. induction Hall as [|b bs [Ha Hp] _ IH]; [done|].
  simpl. apply utf8_valid_app; [|done]. unfold enc_item.
  repeat (apply utf8_valid_app; [try done; by apply quote_utf8|]). done.
Qed.

#[export] Program Instance toml_codec : ConfigCodec := {|
  encode := toml_encode;
  decode := toml_decode;
  encode_Some := toml_encode_is_Some;
  decode_empty := toml_decode_empty;
|}.
Next Obligation.
  intros c s Hs Hc. pose proof Hs as ->%toml_encode_Some. unfold text_ok.
  rewrite String.list_ascii_of_string_of_list_ascii. apply toml_encode_l_utf8.
  apply Forall_forall. intros b Hb. split.
  - unfold string_ok in Hc. rewrite Forall_forall in Hc. by apply Hc.
  - assert (Hp : Forall (fun b => utf8_valid (path b) = true) (bookmarks c))
      by (apply toml_encode_is_Some; by eexists).
    rewrite Forall_forall in Hp. by apply Hp.
Qed.
Next Obligation.
  intros c s ->%toml_encode_Some. unfold toml_decode.
  rewrite String.list_ascii_of_string_of_list_ascii, toml_decode_l_encode_l. by destruct c.
Qed.

(** A basic string holding [s] verbatim. *)
Definition dq (s : string) : string :=
  String.String ch_quote (s +:+ String.String ch_quote EmptyString).

(** A file edited by hand (a comment, the keys swapped, a literal
    string, a [\u] escape, a trailing comma) is read as the specification's
    schema, the path keeping its bytes; and the same array written as
    tables [[[bookmarks]]], the form of the [toml] crate, is read too. *)
Example toml_decode_hand_edited :
  toml_decode ("[[bookmarks]]
alias = " +:+ dq "home" +:+ "
path = " +:+ dq "/home/u" +:+ "

[[ bookmarks ]]   # second
path = 'C:\x'
alias = " +:+ dq "h" +:+ "
")%string =
  Some (mkConfig [mkBookmark "home" (String.list_ascii_of_string "/home/u");
                  mkBookmark "h" (String.list_ascii_of_string "C:\x")])%string /\
  toml_decode ("# my bookmarks
bookmarks = [
  { path = " +:+ dq "/tmp//x/" +:+ ", alias = " +:+ dq "t" +:+ " },   # scratch
  { alias = 'caf\u00e9', path = " +:+ dq "/caf\u00e9" +:+ " },
]
")%string =
  Some (mkConfig [mkBookmark "t" (String.list_ascii_of_string "/tmp//x/");
                  mkBookmark "caf\u00e9"
                    (String.list_ascii_of_string "/caf" ++ [ascii_of_nat 195; ascii_of_nat 169])])%string.
Proof. split; vm_compute; reflexivity. Qed.

(** A file of a later version: a [version] key at the top, a [tags] field
    in the entry. *)
Definition c_extra : Config :=
  mkConfig [mkBookmark "home" (String.list_ascii_of_string "/home/u")].
Definition top_extra : table :=
  [(String.list_ascii_of_string "version", String.list_ascii_of_string "2")].
Definition exs_extra : list table :=
  [[(String.list_ascii_of_string "tags", String.list_ascii_of_string "work, home")]].

Ltac decide_by_eval := apply (bool_decide_unpack _); vm_compute; exact I.

Lemma toml_decode_extra_fields_witness :
  length exs_extra = length (bookmarks c_extra) /\ extras_ok [s_bookmarks] top_extra /\
  Forall (extras_ok [s_alias; s_path]) exs_extra /\
  toml_decode (String.string_of_list_ascii (toml_encode_x top_extra c_extra exs_extra)) =
    Some c_extra.
Proof.
  assert (H1 : length exs_extra = length (bookmarks c_extra)) by reflexivity.
  assert (H2 : extras_ok [s_bookmarks] top_extra).
  { split; [repeat constructor; try done; decide_by_eval|decide_by_eval]. }
  assert (H3 : Forall (extras_ok [s_alias; s_path]) exs_extra).
  { repeat constructor; try done; decide_by_eval. }
  split_and!; [exact H1|exact H2|exact H3|].
  apply (toml_decode_extra_fields top_extra c_extra exs_extra H1 H2 H3).
Defined.
