(* ===== verification/Main.v ===== *)
(** * Main: the commands of pomelo and one invocation of the program

    [enum Commands] and [fn main] of [src/main.rs]: the configuration is
    loaded, one command runs on it, and [Add], [Remove] and [Edit] save it
    back.  [main] receives the command [Cli::parse()] parsed ([Cli.v]
    models the parse).  The theorems relate each command to the abstract collection
    of [Bookmarks.Spec] followed by a save, and an [invocation] relation
    strings runs of the program together. *)

From stdpp Require Import base list gmap strings pretty relations.
From S2P Require Import Prelude Utf8 Paths Bookmarks FileSys ConfigStore.

(** [enum Commands] *)
Inductive Commands :=
  | Add (alias : string)
  | Remove (alias : string)
  | List
  | Edit (alias new : string)
  | Jump (alias : string).

Definition msg_cwd := "Failed to get current directory"%string.

(** The panic message of [Vec::remove] out of range. *)
Definition msg_vec_remove (index len : nat) : string :=
  "removal index (is " +:+ pretty index +:+ ") should be < len (is " +:+ pretty len +:+ ")".

Definition msg_added (alias : string) := "Added bookmark with alias '" +:+ alias +:+ "'".
Definition msg_removed (alias : string) := "Removed bookmark with alias '" +:+ alias +:+ "'".
Definition msg_not_found (alias : string) := "No bookmark found with alias '" +:+ alias +:+ "'".
Definition msg_updated (alias new : string) :=
  "Updated alias '" +:+ alias +:+ "' to '" +:+ new +:+ "'".
Definition msg_no_bookmarks := "You have no bookmarks."%string.
Definition msg_your_bookmarks := "Your bookmarks:"%string.

(** The [for (index, bookmark) in config.bookmarks.iter().enumerate()] loop
    of the [List] command, from [index]. *)
Fixpoint print_bookmarks (index : nat) (bs : list Bookmark) : IO unit :=
  match bs with
  | [] => mret tt
  | b :: bs' => _ ← println (bookmark_line index b); print_bookmarks (S index) bs'
  end.

Section Main.
Context `{!ConfigCodec}.

(** The [Remove] arm up to its save: the configuration it saves. *)
Definition remove_arm (alias : string) (config : Config) : IO Config :=
  match find_position alias (bookmarks config) with
  | Some index =>
      bs ← expect_some (vec_remove index (bookmarks config))
             (msg_vec_remove index (length (bookmarks config)));
      _ ← println (msg_removed alias);
      mret (mkConfig bs)
  | None => _ ← println (msg_not_found alias); mret config
  end.

(** The [Edit] arm up to its save. *)
Definition edit_arm (alias new : string) (config : Config) : IO Config :=
  match find_position alias (bookmarks config) with
  | Some index =>
      let config' := mkConfig (alter (set_alias new) index (bookmarks config)) in
      _ ← println (msg_updated alias new);
      mret config'
  | None => _ ← println (msg_not_found alias); mret config
  end.

(** The [List] arm. *)
Definition list_arm (config : Config) : IO unit :=
  if decide (bookmarks config = []) then println msg_no_bookmarks
  else _ ← println msg_your_bookmarks; print_bookmarks 0 (bookmarks config).

(** [fn main()], after [Cli::parse()]. *)
Definition main (cmd : Commands) : IO unit :=
  config ← load_or_initialize_config;
  match cmd with
  | Add alias =>
      r ← current_dir;
      current_dir ← expect r msg_cwd;
      let bookmark := mkBookmark alias current_dir in
      _ ← save_config (push_bookmark config bookmark);
      println (msg_added alias)
  | Remove alias =>
      config' ← remove_arm alias config;
      save_config config'
  | Edit alias new =>
      config' ← edit_arm alias new config;
      save_config config'
  | List => list_arm config
  | Jump alias => mret tt
  end.
End Main.

(** A [String] argument of clap is UTF-8: clap refuses the others before
    [main] runs. *)
Definition cmd_ok (cmd : Commands) : Prop :=
  match cmd with
  | Add a | Remove a | Jump a => text_ok a = true
  | Edit a n => text_ok a = true /\ text_ok n = true
  | List => True
  end.

(** One invocation of the program, whatever its outcome: a panic ends the
    process but its effects on disk stay. *)
Inductive invocation `{!ConfigCodec} : relation World :=
  | invoke cmd w o w' : cmd_ok cmd -> run (main cmd) w = (o, w') -> invocation w w'.

(** ** Lemmas on the command arms *)

Lemma run_println line w :
  run (println line) w = (Done tt, set_stdout (w_stdout w ++ [line]) w).
Proof. reflexivity. Qed.

(** A world in which [~/.pomelo] resolves to the directory [d] and saving
    the configuration file there succeeds. *)
Definition store_ready (h : PathBuf) (d : Loc) (w : World) : Prop :=
  w_home w = Some h /\ locate w (config_dir_of h) = Ok d /\ d ∈ w_dirs w /\
  (cfg_loc d ∉ w_dirs w) /\ (cfg_loc d ∉ w_denied w) /\ w_nospace w = false.

Section MainProofs.
Context `{!ConfigCodec}.

(** The [Remove] arm removes the first bookmark with the alias, or
    reports that there is none and keeps the configuration. *)
Lemma remove_arm_spec a c w :
  run (remove_arm a c) w =
    (Done (mkConfig (Spec.remove_first a (bookmarks c))),
     set_stdout (w_stdout w ++
       [match find_position a (bookmarks c) with Some _ => msg_removed a | None => msg_not_found a end]) w).
Proof.
  unfold remove_arm. destruct (find_position a (bookmarks c)) as [i|] eqn:Hi.
  - rewrite (vec_remove_find_position _ _ i Hi). io_norm. done.
  - rewrite remove_first_not_found by done. io_norm. by destruct c.
Qed.

(** The [Edit] arm renames the first bookmark with the alias in place, or
    reports that there is none. *)
Lemma edit_arm_spec a n c w :
  run (edit_arm a n c) w =
    (Done (mkConfig (Spec.rename_first a n (bookmarks c))),
     set_stdout (w_stdout w ++
       [match find_position a (bookmarks c) with Some _ => msg_updated a n | None => msg_not_found a end]) w).
Proof.
  unfold edit_arm. destruct (find_position a (bookmarks c)) as [i|] eqn:Hi.
  - rewrite (alter_find_position _ _ _ i Hi). io_norm. done.
  - rewrite rename_first_not_found by done. io_norm. by destruct c.
Qed.

Lemma print_bookmarks_spec i bs w :
  run (print_bookmarks i bs) w =
    (Done tt, set_stdout (w_stdout w ++ zip_with bookmark_line (seq i (length bs)) bs) w).
Proof.
  revert i w. induction bs as [|b bs IH]; intros i w; simpl.
  - rewrite app_nil_r. by destruct w.
  - rewrite run_bind, run_println, IH. autorewrite with pomelo_exec.
    rewrite <- app_assoc. by destruct w.
Qed.

(** [Remove]: print the outcome, then save the configuration without its
    first bookmark with the alias (unchanged when there is none). *)
Lemma run_main_remove a c w :
  run load_or_initialize_config w = (Done c, w) ->
  run (main (Remove a)) w =
    run (save_config (mkConfig (Spec.remove_first a (bookmarks c))))
      (set_stdout (w_stdout w ++
        [match find_position a (bookmarks c) with Some _ => msg_removed a | None => msg_not_found a end]) w).
Proof. intros Hl. unfold main. rewrite run_bind, Hl. cbn -[run]. by rewrite run_bind, remove_arm_spec. Qed.

(** [Edit]: print the outcome, then save the configuration with the first
    bookmark with the alias renamed in place. *)
Lemma run_main_edit a n c w :
  run load_or_initialize_config w = (Done c, w) ->
  run (main (Edit a n)) w =
    run (save_config (mkConfig (Spec.rename_first a n (bookmarks c))))
      (set_stdout (w_stdout w ++
        [match find_position a (bookmarks c) with Some _ => msg_updated a n | None => msg_not_found a end]) w).
Proof. intros Hl. unfold main. rewrite run_bind, Hl. cbn -[run]. by rewrite run_bind, edit_arm_spec. Qed.

(** [Add]: save the configuration with the working directory appended,
    then print the confirmation; without a working directory, panic. *)
Lemma run_main_add a c w :
  run load_or_initialize_config w = (Done c, w) ->
  run (main (Add a)) w =
    match w_cwd w with
    | Some l => run (_ ← save_config (mkConfig (Spec.add a (loc_path l) (bookmarks c)));
                     println (msg_added a)) w
    | None => (Panicked msg_cwd, w)
    end.
Proof.
  intros Hl. unfold main. rewrite run_bind, Hl. cbn -[run save_config].
  rewrite run_bind. unfold run at 1, current_dir. by destruct (w_cwd w).
Qed.

Lemma list_arm_stdout c w : exists out, run (list_arm c) w = (Done tt, set_stdout out w).
Proof.
  unfold list_arm. case_decide; [eexists; apply run_println|].
  rewrite run_bind, run_println, print_bookmarks_spec. autorewrite with pomelo_exec.
  by eexists.
Qed.

(** C14: [List] prints "You have no bookmarks." when there is none;
    otherwise "Your bookmarks:" and then, for the bookmark at index [i],
    the line "[i+1]. Alias: '<alias>', Path: '<path>'" (numbered from 1,
    the path as [display] shows it), in the order of the file; nothing
    else changes. *)
Theorem main_list c w :
  run load_or_initialize_config w = (Done c, w) ->
  run (main List) w =
    (Done tt, set_stdout (w_stdout w ++
       if decide (bookmarks c = []) then ["You have no bookmarks."%string]
       else "Your bookmarks:"%string ::
              imap (fun i b => pretty (S i) +:+ ". Alias: '" +:+ alias b +:+ "', Path: '"
                                 +:+ display (path b) +:+ "'") (bookmarks c)) w).
Proof.
  intros Hl. unfold main. rewrite run_bind, Hl. cbn -[run]. unfold list_arm.
  case_decide; [done|]. rewrite run_bind, run_println, print_bookmarks_spec.
  autorewrite with pomelo_exec. rewrite <- app_assoc, zip_with_seq_imap.
  erewrite imap_ext; [reflexivity|]. intros i b _. cbn. unfold bookmark_line. by rewrite Nat.add_1_r.
Qed.


(** The encoding of a configuration whose paths are among those of an
    encodable one exists. *)
Lemma encode_paths c c' :
  is_Some (encode c) ->
  (Forall (fun b => utf8_valid (path b) = true) (bookmarks c) ->
   Forall (fun b => utf8_valid (path b) = true) (bookmarks c')) ->
  is_Some (encode c').
Proof. rewrite !encode_Some. auto. Qed.

(** Save on a ready store after printing. *)
Lemma save_ready c s h d o w :
  store_ready h d w -> encode c = Some s ->
  run (save_config c) (set_stdout o w) =
    (Done tt, set_files (<[cfg_loc d := s]> (w_files w)) (set_stdout o w)).
Proof.
  intros (Hh & Hd & Hdir & Hc & Hden & Hns) Hs.
  rewrite (save_config_existing_dir c s _ h d); autorewrite with pomelo_exec; try done.
  eapply locate_mono; [| |exact Hd]; by autorewrite with pomelo_exec.
Qed.

(** C1: [Remove] on a stored configuration: the file afterwards holds the
    configuration without the first bookmark with the alias. *)
Theorem remove_persists a c s h d w :
  store_ready h d w -> w_files w !! cfg_loc d = Some s -> encode c = Some s -> string_ok c ->
  exists s', encode (mkConfig (Spec.remove_first a (bookmarks c))) = Some s' /\
  run (main (Remove a)) w =
    (Done tt,
     set_files (<[cfg_loc d := s']> (w_files w))
       (set_stdout (w_stdout w ++
          [match find_position a (bookmarks c) with
           | Some _ => msg_removed a | None => msg_not_found a end]) w)).
Proof.
  intros Hr Hf Hs Hc. pose proof Hr as (Hh & Hd & Hdir & _ & Hden & _).
  destruct (encode_paths c (mkConfig (Spec.remove_first a (bookmarks c)))) as [s' Hs'];
    [by eexists|apply remove_first_Forall|].
  exists s'. split; [done|]. rewrite (run_main_remove a c) by (by eapply load_stored).
  by rewrite (save_ready _ s' h d).
Qed.

(** C2: [Edit] on a stored configuration: the file afterwards holds the
    configuration with the first bookmark with the alias renamed. *)
Theorem edit_persists a n c s h d w :
  store_ready h d w -> w_files w !! cfg_loc d = Some s -> encode c = Some s -> string_ok c ->
  exists s', encode (mkConfig (Spec.rename_first a n (bookmarks c))) = Some s' /\
  run (main (Edit a n)) w =
    (Done tt,
     set_files (<[cfg_loc d := s']> (w_files w))
       (set_stdout (w_stdout w ++
          [match find_position a (bookmarks c) with
           | Some _ => msg_updated a n | None => msg_not_found a end]) w)).
Proof.
  intros Hr Hf Hs Hc. pose proof Hr as (Hh & Hd & Hdir & _ & Hden & _).
  destruct (encode_paths c (mkConfig (Spec.rename_first a n (bookmarks c)))) as [s' Hs'];
    [by eexists|apply rename_first_Forall; by simpl|].
  exists s'. split; [done|]. rewrite (run_main_edit a n c) by (by eapply load_stored).
  by rewrite (save_ready _ s' h d).
Qed.

(** C3: [Add] on a stored configuration, in a working directory whose
    path is UTF-8: the file afterwards holds the configuration with the
    working directory appended under the alias, and the confirmation is
    printed after the save. *)
Theorem add_persists a c s h d l w :
  store_ready h d w -> w_files w !! cfg_loc d = Some s -> encode c = Some s -> string_ok c ->
  w_cwd w = Some l -> utf8_valid (loc_path l) = true ->
  exists s', encode (mkConfig (Spec.add a (loc_path l) (bookmarks c))) = Some s' /\
  run (main (Add a)) w =
    (Done tt,
     set_stdout (w_stdout w ++ [msg_added a])
       (set_files (<[cfg_loc d := s']> (w_files w)) w)).
Proof.
  intros Hr Hf Hs Hc Hcwd Hl. pose proof Hr as (Hh & Hd & Hdir & _ & Hden & _).
  destruct (encode_paths c (mkConfig (Spec.add a (loc_path l) (bookmarks c)))) as [s' Hs'];
    [by eexists|intros; by apply add_Forall|].
  exists s'. split; [done|]. rewrite (run_main_add a c) by (by eapply load_stored).
  rewrite Hcwd, run_bind. pose proof (save_ready _ s' h d (w_stdout w) w Hr Hs') as Hsv.
  rewrite set_stdout_id in Hsv. rewrite Hsv, run_println. by autorewrite with pomelo_exec.
Qed.
End MainProofs.

(** ** Removing an alias for good *)

Section Liveness.
Context `{!ConfigCodec}.

(** A save on a ready store leaves it ready. *)
Lemma store_ready_saved h d s o w :
  store_ready h d w -> store_ready h d (set_files (<[cfg_loc d := s]> (w_files w)) (set_stdout o w)).
Proof.
  intros (Hh & Hd & Hdir & Hc & Hden & Hns). split_and!; autorewrite with pomelo_exec; try done.
  eapply locate_mono; [| |exact Hd]; by autorewrite with pomelo_exec.
Qed.

(** One [Remove] on a ready store whose file holds [c]: the next world,
    ready again, whose file holds [c] without its first match. *)
Lemma remove_step a c s h d w :
  store_ready h d w -> w_files w !! cfg_loc d = Some s -> encode c = Some s -> string_ok c ->
  exists s1, encode (mkConfig (Spec.remove_first a (bookmarks c))) = Some s1 /\
    store_ready h d (snd (run (main (Remove a)) w)) /\
    w_files (snd (run (main (Remove a)) w)) !! cfg_loc d = Some s1.
Proof.
  intros Hr Hf Hs Hc. pose proof Hr as (Hh & Hd & Hdir & _ & Hden & _).
  destruct (encode_paths c (mkConfig (Spec.remove_first a (bookmarks c)))) as [s1 Hs1];
    [by eexists|apply remove_first_Forall|].
  exists s1. rewrite (run_main_remove a c) by (by eapply load_stored).
  rewrite (save_ready _ s1 h d) by done. simpl. split_and!; [done|by apply store_ready_saved|].
  by rewrite lookup_insert_eq.
Qed.

(** C26: Running [Remove a] as many times as there are bookmarks with the
    alias [a] leaves a configuration file that holds exactly the other
    bookmarks, in their order: every bookmark with the alias is
    eventually removed, one per invocation. *)
Theorem remove_repeated_until_gone a c s h d w :
  store_ready h d w -> w_files w !! cfg_loc d = Some s -> encode c = Some s -> string_ok c ->
  exists s', encode (mkConfig (filter (fun b => alias b <> a) (bookmarks c))) = Some s' /\
    w_files (Nat.iter (length (filter (fun b => alias b = a) (bookmarks c)))
               (fun w => snd (run (main (Remove a)) w)) w) !! cfg_loc d = Some s'.
Proof.
  remember (length (filter (fun b => alias b = a) (bookmarks c))) as k eqn:Hk.
  revert c s w Hk. induction k as [|k IH]; intros c s w Hk Hr Hf Hs Hc.
  - exists s. rewrite without_alias_all by done. by destruct c.
  - rewrite Nat.iter_succ_r.
    destruct (remove_step a c s h d w) as (s1 & Hs1 & Hr1 & Hf1); [done..|].
    destruct (IH (mkConfig (Spec.remove_first a (bookmarks c))) s1 (snd (run (main (Remove a)) w)))
      as (s' & Hs' & Hf');
      [cbn [bookmarks]; by rewrite (remove_first_with _ _ k)|done..|by apply remove_first_Forall|].
    exists s'. simpl in Hs'. by rewrite remove_first_without in Hs'.
Qed.

(** C13: [Add a] then [Remove a], with an alias no bookmark has yet and
    a working directory whose path is UTF-8, give the world back: the
    configuration file holds the same text again, no file or directory is
    left behind, and the only trace is the two confirmations printed. *)
Theorem add_then_remove a c s h d l w :
  store_ready h d w -> w_files w !! cfg_loc d = Some s -> encode c = Some s -> string_ok c ->
  w_cwd w = Some l -> utf8_valid (loc_path l) = true -> text_ok a = true ->
  Forall (fun b => alias b <> a) (bookmarks c) ->
  run (main (Remove a)) (snd (run (main (Add a)) w)) =
    (Done tt, set_stdout (w_stdout w ++ [msg_added a; msg_removed a]) w).
Proof.
  intros Hr Hf Hs Hc Hcwd Hl Ha Hn. pose proof Hr as (Hh & Hd & Hdir & _ & Hden & _).
  destruct (encode_paths c (mkConfig (Spec.add a (loc_path l) (bookmarks c)))) as [s1 Hs1];
    [by eexists|intros; by apply add_Forall|].
  rewrite (run_main_add a c) by (by eapply load_stored).
  rewrite Hcwd, run_bind. pose proof (save_ready _ s1 h d (w_stdout w) w Hr Hs1) as Hsv.
  rewrite set_stdout_id in Hsv. rewrite Hsv, run_println. autorewrite with pomelo_exec. cbn [snd].
  assert (set_stdout (w_stdout w ++ [msg_added a]) (set_files (<[cfg_loc d:=s1]> (w_files w)) w) =
          set_files (<[cfg_loc d:=s1]> (w_files w)) (set_stdout (w_stdout w ++ [msg_added a]) w))
    as -> by (by destruct w).
  pose proof (store_ready_saved h d s1 (w_stdout w ++ [msg_added a]) w Hr) as Hr1.
  pose proof Hr1 as (Hh1 & Hd1 & Hdir1 & _ & Hden1 & _).
  rewrite (run_main_remove a (mkConfig (Spec.add a (loc_path l) (bookmarks c)))); cycle 1.
  { eapply load_stored; try done; [|by apply add_Forall]. autorewrite with pomelo_exec. by rewrite lookup_insert_eq. }
  cbn [bookmarks]. rewrite find_position_add, remove_first_add by done.
  replace (mkConfig (bookmarks c)) with c by (by destruct c).
  rewrite (save_ready _ s h d) by done. f_equal.
  destruct w; unfold set_files, set_stdout; cbn in *.
  rewrite insert_insert_eq, insert_id, <-app_assoc by done. done.
Qed.
End Liveness.

(** ** The configuration file stays readable across invocations *)

Lemma read_file_Ok_inv w p s :
  read_file w p = Ok s ->
  exists l, locate w p = Ok l /\ (l ∉ w_denied w) /\ w_files w !! l = Some s /\ text_ok s = true.
Proof.
  unfold read_file. destruct (locate w p) as [l|]; [|done]. case_decide; [done|].
  destruct (w_files w !! l) eqn:Hf; [|by case_decide].
  unfold text_ok. case_match; [|done]. intros [= <-]. by exists l.
Qed.

Section Invariant.
Context `{!ConfigCodec}.

(** The configuration file, when it can be read, satisfies [P]. *)
Definition config_file_ok (P : string -> Prop) (w : World) : Prop :=
  forall h s, w_home w = Some h -> read_file w (config_path_of h) = Ok s -> P s.

(** A text that decodes to a configuration whose aliases are UTF-8. *)
Definition valid_text (s : string) : Prop := exists c, decode s = Some c /\ string_ok c.

Definition config_ok : World -> Prop := config_file_ok valid_text.

(** The environment: a well-formed file system, a disk that does not
    fill up, and a home directory without [..]. *)
Definition env_ok (w : World) : Prop :=
  wf_world w /\ w_nospace w = false /\ (forall h, w_home w = Some h -> CParent ∉ comps h).

Definition inv (w : World) : Prop := env_ok w /\ config_ok w.

Lemma inv_set_stdout o w : inv w -> inv (set_stdout o w).
Proof.
  intros [(Hwf & Hns & Hh) Hok]. split; [split_and!|].
  - by destruct w.
  - by autorewrite with pomelo_exec.
  - by autorewrite with pomelo_exec.
  - intros h s. autorewrite with pomelo_exec. rewrite read_file_set_stdout. apply Hok.
Qed.

(** New directories do not make another file the configuration file. *)
Lemma config_file_ok_grow P w ds :
  env_ok w -> w_dirs w ⊆ ds -> config_file_ok P w -> config_file_ok P (set_dirs ds w).
Proof.
  intros (Hwf & _ & Hhome) Hsub Hok h s Hh Hr. autorewrite with pomelo_exec in Hh.
  destruct (read_file_Ok_inv _ _ _ Hr) as (l & Hl & Hden & Hf & Hs).
  autorewrite with pomelo_exec in *. apply (Hok h s Hh). apply (read_file_Ok w _ l s); try done.
  eapply locate_back; [done| |by apply config_path_no_parent, Hhome|exact Hl|].
  - by autorewrite with pomelo_exec.
  - destruct Hwf as (_ & _ & Hfiles & _). right. by apply (Hfiles l s Hf).
Qed.

Lemma load_valid w c w' : config_ok w ->
  run load_or_initialize_config w = (Done c, w') -> string_ok c.
Proof.
  intros Hok Hl. destruct (w_home w) as [h|] eqn:Hh.
  - rewrite (load_spec _ h Hh) in Hl. revert Hl.
    destruct (read_file w _) as [s|] eqn:Hr; [|intros [= <- _]; constructor].
    destruct (Hok h s Hh Hr) as (c' & Hd & Hv). rewrite Hd. by intros [= <- _].
  - unfold load_or_initialize_config, get_config_path in Hl. io_norm. by rewrite Hh in Hl.
Qed.

(** A save keeps the invariant, panic or not. *)
Lemma inv_save c w : inv w -> string_ok c -> inv (snd (run (save_config c) w)).
Proof.
  intros [Henv Hok] Hc. pose proof Henv as (Hwf & Hns & Hhome).
  destruct (save_config_cases c w Hwf Hns)
    as (ds & Hsub & Hwf' & [Heq | (h & s & l & Hh & Hs & Hl & Heq & Hwf'')]); rewrite Heq.
  - split; [|by apply config_file_ok_grow]. split_and!; by autorewrite with pomelo_exec.
  - rewrite Heq in Hwf''. split; [split_and!; by autorewrite with pomelo_exec|].
    intros h' s' Hh' Hr. autorewrite with pomelo_exec in Hh'. rewrite Hh in Hh'.
    injection Hh' as <-. destruct (read_file_Ok_inv _ _ _ Hr) as (l' & Hl' & _ & Hf & _).
    rewrite (locate_mono (set_dirs ds w) _ _ l) in Hl'; [|by autorewrite with pomelo_exec..|done].
    injection Hl' as <-. autorewrite with pomelo_exec in Hf. rewrite lookup_insert_eq in Hf.
    injection Hf as <-. exists c. split; [by apply (decode_encode c s)|done].
Qed.

Lemma string_ok_remove a c :
  string_ok c -> string_ok (mkConfig (Spec.remove_first a (bookmarks c))).
Proof. apply remove_first_Forall. Qed.
Lemma string_ok_rename a n c :
  text_ok n = true -> string_ok c -> string_ok (mkConfig (Spec.rename_first a n (bookmarks c))).
Proof. intros Hn. by apply rename_first_Forall. Qed.
Lemma string_ok_add a p c :
  text_ok a = true -> string_ok c -> string_ok (mkConfig (Spec.add a p (bookmarks c))).
Proof. intros Ha Hc. by apply add_Forall. Qed.

#[local] Hint Resolve string_ok_remove string_ok_rename string_ok_add : pomelo.

(** A save after printing keeps the invariant, panic or not. *)
Lemma inv_after_save c o w r w' :
  inv w -> string_ok c -> run (save_config c) (set_stdout o w) = (r, w') -> inv w'.
Proof.
  intros Hinv Hv Hrun. replace w' with (snd (run (save_config c) (set_stdout o w)))
    by (by rewrite Hrun).
  apply inv_save; [by apply inv_set_stdout|done].
Qed.

(** One invocation, whatever its command and outcome, keeps the invariant. *)
Lemma invocation_inv w w' : inv w -> invocation w w' -> inv w'.
Proof.
  intros Hinv Hstep. inversion Hstep as [cmd w1 o w2 Hcmd Hrun]; subst w1 w2; clear Hstep.
  destruct (run load_or_initialize_config w) as [[c|m] w0] eqn:Hl;
    pose proof (load_read_only w) as Hro; rewrite Hl in Hro; simpl in Hro; subst w0;
    [|by unfold main in Hrun; rewrite run_bind, Hl in Hrun; simplify_eq].
  pose proof (load_valid w c w (proj2 Hinv) Hl) as Hv.
  destruct cmd as [a|a| |a n|a]; simpl in Hcmd.
  - rewrite (run_main_add a c) in Hrun by done.
    destruct (w_cwd w) as [l|]; [|by simplify_eq]. rewrite run_bind in Hrun.
    pose proof (inv_save (mkConfig (Spec.add a (loc_path l) (bookmarks c))) w Hinv) as Hs.
    destruct (run (save_config _) w) as [[[]|m] w1]; simpl in *;
      [rewrite run_println in Hrun|]; simplify_eq; [apply inv_set_stdout|];
      apply Hs; eauto with pomelo.
  - rewrite (run_main_remove a c) in Hrun by done.
    eapply inv_after_save; [exact Hinv| |exact Hrun]. eauto with pomelo.
  - unfold main in Hrun. rewrite run_bind, Hl in Hrun. cbn -[run] in Hrun.
    destruct (list_arm_stdout c w) as [out Hout]. rewrite Hout in Hrun. simplify_eq.
    by apply inv_set_stdout.
  - rewrite (run_main_edit a n c) in Hrun by done.
    eapply inv_after_save; [exact Hinv| |exact Hrun]. destruct Hcmd. eauto with pomelo.
  - unfold main in Hrun. rewrite run_bind, Hl in Hrun. cbn in Hrun. rewrite run_ret in Hrun. by simplify_eq.
Qed.

(** Any number of invocations keep the invariant. *)
Lemma reachable_inv w w' : inv w -> rtc invocation w w' -> inv w'.
Proof. intros Hinv Hr. induction Hr; eauto using invocation_inv. Qed.

(** C6: With a disk that never fills and a home directory without [..],
    starting from a well-formed world whose configuration file (if it can
    be read) decodes, no later invocation ever panics while parsing the
    configuration. *)
Theorem reachable_load_never_fails_to_parse w w' :
  inv w -> rtc invocation w w' ->
  fst (run load_or_initialize_config w') <> Panicked msg_parse.
Proof.
  intros Hinv Hr. destruct (reachable_inv w w' Hinv Hr) as [_ Hok].
  destruct (w_home w') as [h|] eqn:Hh.
  - rewrite (load_spec _ h Hh). simpl.
    destruct (read_file w' _) as [s|] eqn:Hf; [|done].
    destruct (Hok h s Hh Hf) as (c & -> & _). done.
  - unfold load_or_initialize_config, get_config_path. io_norm. by rewrite Hh.
Qed.
End Invariant.

(** ** What the commands do that the specification does not say *)

Section Findings.
Context `{!ConfigCodec}.

(** C10: The [Remove] arm never panics: [Vec::remove] is only called at an
    index that [position] found. *)
Theorem remove_arm_never_panics a c w :
  exists c', fst (run (remove_arm a c) w) = Done c'.
Proof. rewrite remove_arm_spec. by eexists. Qed.

(** C15: [List] when the configuration file cannot be read (on a first
    run, where it does not exist yet): the friendly message, and no file
    is created. *)
Theorem list_unreadable_config w h e :
  w_home w = Some h -> read_file w (config_path_of h) = Err e ->
  run (main List) w = (Done tt, set_stdout (w_stdout w ++ [msg_no_bookmarks]) w).
Proof.
  intros Hh Hr. unfold main. rewrite run_bind, (load_spec _ h Hh), Hr.
  cbn -[run]. unfold list_arm. by rewrite decide_True.
Qed.

(** On a first run the configuration file cannot be read: its directory
    is missing. *)
Lemma read_file_missing_dir w h d :
  locate w (config_dir_of h) = Ok d -> d ∉ w_dirs w ->
  exists e, read_file w (config_path_of h) = Err e.
Proof.
  intros Hd Hdir. unfold read_file. rewrite locate_config_path, Hd. unfold descend.
  rewrite decide_False by done. case_decide; by eexists.
Qed.

(** C11: [Remove] of an alias that does not exist, on a first run, still
    saves: it creates [~/.pomelo] and a configuration file with an empty
    array, although nothing was mutated. *)
Theorem remove_missing_alias_creates_file a w h d :
  wf_world w -> w_home w = Some h -> locate w (config_dir_of h) = Ok d ->
  d ∉ w_dirs w -> w_files w !! d = None -> d ∉ w_denied w -> cfg_loc d ∉ w_denied w ->
  w_nospace w = false ->
  exists s0, encode (mkConfig []) = Some s0 /\
  run (main (Remove a)) w =
    (Done tt, set_files (<[cfg_loc d := s0]> (w_files w))
                (set_dirs ({[d]} ∪ w_dirs w)
                   (set_stdout (w_stdout w ++ [msg_not_found a]) w))).
Proof.
  intros Hwf Hh Hd Hdir Hf Hdd Hden Hns.
  destruct (proj2 (encode_Some (mkConfig [])) (Forall_nil_2 _)) as [s0 Hs0].
  exists s0. split; [done|].
  destruct (read_file_missing_dir w h d Hd Hdir) as [e He].
  rewrite (run_main_remove a (mkConfig [])) by (by rewrite (load_spec _ h Hh), He).
  rewrite (save_config_fresh_dir _ s0 _ h d); autorewrite with pomelo_exec; try done.
  all: first [ by apply wf_world_set_stdout
             | eapply locate_mono; [| |exact Hd]; by autorewrite with pomelo_exec ].
Qed.

(** C12: [Remove] prints its confirmation before saving: when the save then
    fails on a full disk, the user reads that the bookmark was removed,
    the process panics, and the configuration file is left empty. *)
Theorem remove_reports_before_failed_save a c s h d w i :
  w_home w = Some h -> locate w (config_dir_of h) = Ok d -> d ∈ w_dirs w ->
  cfg_loc d ∉ w_dirs w -> cfg_loc d ∉ w_denied w -> w_nospace w = true ->
  w_files w !! cfg_loc d = Some s -> encode c = Some s -> string_ok c ->
  find_position a (bookmarks c) = Some i ->
  run (main (Remove a)) w =
    (Panicked msg_write,
     set_files (<[cfg_loc d := EmptyString]> (w_files w))
       (set_stdout (w_stdout w ++ [msg_removed a]) w)).
Proof.
  intros Hh Hd Hdir Hc Hden Hns Hf Hs Hok Hi.
  destruct (encode_paths c (mkConfig (Spec.remove_first a (bookmarks c)))) as [s' Hs'];
    [by eexists|apply remove_first_Forall|].
  rewrite (run_main_remove a c) by (by eapply load_stored). rewrite Hi.
  rewrite (save_config_write_fails _ s' _ h d); autorewrite with pomelo_exec; try done.
  eapply locate_mono; [| |exact Hd]; by autorewrite with pomelo_exec.
Qed.

(** The specification says an alias is never empty; [Add] accepts the
    empty alias and stores a bookmark that breaks that invariant. *)
Theorem add_accepts_empty_alias c s h d l w :
  store_ready h d w -> w_files w !! cfg_loc d = Some s -> encode c = Some s -> string_ok c ->
  w_cwd w = Some l -> utf8_valid (loc_path l) = true ->
  exists w', run (main (Add EmptyString)) w = (Done tt, w') /\
    w_files w' !! cfg_loc d = encode (mkConfig (bookmarks c ++ [mkBookmark EmptyString (loc_path l)])) /\
    Spec.wf (bookmarks c ++ [mkBookmark EmptyString (loc_path l)]) = false.
Proof.
  intros Hr Hf Hs Hok Hcwd Hl.
  destruct (encode_paths c (mkConfig (Spec.add EmptyString (loc_path l) (bookmarks c)))) as [s' Hs'];
    [by eexists|intros; by apply add_Forall|].
  rewrite (run_main_add EmptyString c) by (destruct Hr as (? & ? & ? & _ & ? & _); by eapply load_stored).
  rewrite Hcwd, run_bind. pose proof (save_ready _ s' h d (w_stdout w) w Hr Hs') as Hsv.
  rewrite set_stdout_id in Hsv. rewrite Hsv, run_println. eexists. split; [done|].
  autorewrite with pomelo_exec. rewrite lookup_insert_eq. split; [done|].
  unfold Spec.wf. rewrite forallb_app. simpl. by rewrite andb_false_r.
Qed.

(** C23: [Add] in a working directory whose path is not UTF-8 panics with
    "Failed to serialize the config" ([Serialize for Path] refuses it):
    nothing is printed and the configuration file is left as it was. *)
Theorem add_non_utf8_cwd_panics a c s h d l w :
  store_ready h d w -> w_files w !! cfg_loc d = Some s -> encode c = Some s -> string_ok c ->
  w_cwd w = Some l -> utf8_valid (loc_path l) = false ->
  run (main (Add a)) w = (Panicked msg_serialize, w).
Proof.
  intros Hr Hf Hs Hok Hcwd Hl. pose proof Hr as (Hh & Hd & Hdir & _).
  rewrite (run_main_add a c) by (destruct Hr as (? & ? & ? & _ & ? & _); by eapply load_stored).
  rewrite Hcwd, run_bind, (run_save_config _ w h Hh), (save_dir_existing w h d) by done.
  rewrite save_file_no_encoding; [done|].
  destruct (encode (mkConfig (Spec.add a (loc_path l) (bookmarks c)))) eqn:He;
    [|done]. exfalso.
  assert (Hp : Forall (fun b => utf8_valid (path b) = true)
                 (bookmarks (mkConfig (Spec.add a (loc_path l) (bookmarks c)))))
    by (apply encode_Some; by eexists).
  unfold Spec.add in Hp. simpl in Hp. apply Forall_app in Hp as [_ Hp].
  apply Forall_cons in Hp as [Hp _]. simpl in Hp. congruence.
Qed.

(** C24: A configuration file that is not UTF-8 is read as no
    configuration, and the next [Add] overwrites it with a file that
    holds the new bookmark alone: every bookmark it held is lost. *)
Theorem add_overwrites_non_utf8_config a s h d l w :
  store_ready h d w -> w_files w !! cfg_loc d = Some s -> text_ok s = false ->
  w_cwd w = Some l -> utf8_valid (loc_path l) = true ->
  exists s', encode (mkConfig [mkBookmark a (loc_path l)]) = Some s' /\
  run (main (Add a)) w =
    (Done tt, set_stdout (w_stdout w ++ [msg_added a])
                (set_files (<[cfg_loc d := s']> (w_files w)) w)).
Proof.
  intros Hr Hf Hs Hcwd Hl. pose proof Hr as (Hh & Hd & Hdir & _ & Hden & _).
  destruct (proj2 (encode_Some (mkConfig [mkBookmark a (loc_path l)]))) as [s' Hs'];
    [by repeat constructor|].
  exists s'. split; [done|].
  rewrite (run_main_add a (mkConfig [])) by (rewrite (load_spec _ h Hh);
    by rewrite (read_config_file w h d s), Hs).
  rewrite Hcwd, run_bind. change (Spec.add a (loc_path l) (bookmarks (mkConfig []))) with [mkBookmark a (loc_path l)].
  pose proof (save_ready _ s' h d (w_stdout w) w Hr Hs') as Hsv.
  rewrite set_stdout_id in Hsv. rewrite Hsv, run_println. by autorewrite with pomelo_exec.
Qed.
End Findings.
