(* ===== verification/Cli.v ===== *)
(** * Cli: the command line, [struct Cli] and [Cli::parse()] (clap 4)

    [#[derive(Parser)] struct Cli] with [#[command(subcommand)] command:
    Commands] and the [#[arg(short, long, required = true)]] fields of
    [enum Commands] declare the command line; [Cli::parse()] (line 96) is
    clap's parser run on [env::args_os()].  The parser is library code: it
    is modelled here as clap 4 runs it on the [Command] this derive builds
    ([Parser::get_matches_with], [parse_long_arg], [parse_short_arg],
    [parse_opt_value], [react], [resolve_pending], the help subcommand, the
    [Validator] and the derived [from_arg_matches]).

    The derive gives the top-level command the flags [-h/--help] and
    [-V/--version] and the subcommands [add], [remove], [list], [edit],
    [jump] and clap's [help]; each subcommand has [-h/--help] and its
    options: [-a/--alias <ALIAS>] and, for [edit], [-n/--new <NEW>], each
    taking one value, required, given at most once ([ArgAction::Set]).
    An argument is an [OsString], a sequence of bytes; a value becomes a
    [String] through [StringValueParser], which refuses bytes that are not
    UTF-8.  On an error [Cli::parse] prints the message and exits with
    code 2, or 0 for [--help] and [--version]: [main] never runs.

    [pomelo] is the whole process: [Cli::parse()] then [Main.main].  The
    theorems: each command is read back from every spelling of its options
    ([parse_render]); a repeated option is refused before any file is
    read ([option_twice_conflict]); the values clap passes are UTF-8, so
    every run of the process is a clap exit or an [invocation] of [main]
    ([pomelo_invocation]). *)

From stdpp Require Import base list strings sets.
From Stdlib Require Import Ascii.
From S2P Require Import Prelude Utf8 Paths Bookmarks FileSys ConfigStore Main.

#[local] Open Scope pomelo_scope.

(** An argument as the operating system passes it. *)
Abbreviation OsString := (list ascii).

Definition bytes (s : string) : OsString := String.list_ascii_of_string s.

(** [clap::error::ErrorKind]: the kinds of error [Cli::parse] ends with. *)
Inductive ErrorKind :=
  | InvalidValue
  | UnknownArgument
  | InvalidSubcommand
  | TooManyValues
  | WrongNumberOfValues
  | ArgumentConflict
  | MissingRequiredArgument
  | MissingSubcommand
  | InvalidUtf8
  | DisplayHelp
  | DisplayHelpOnMissingArgumentOrSubcommand
  | DisplayVersion.

#[export] Instance ErrorKind_eq_dec : EqDecision ErrorKind.
Proof. solve_decision. Qed.

(** [Error::use_stderr], and the code [Error::exit] exits with. *)
Definition use_stderr (k : ErrorKind) : bool :=
  match k with
  | DisplayHelp | DisplayVersion => false
  | _ => true
  end.

Definition clap_exit_code (k : ErrorKind) : nat := if use_stderr k then 2 else 0.

(** [ArgAction]: [Set] for a [String] field, [Help] and [Version] for the
    generated flags. *)
Inductive ArgAction := ActSet | ActHelp | ActVersion.

(** [clap::Arg] as the derive builds it: its id (the field name), its
    short and long names, its action and [required]. *)
Record Arg := mkArg {
  arg_id : string;
  arg_short : ascii;
  arg_long : OsString;
  arg_action : ArgAction;
  arg_required : bool
}.

Definition takes_value (a : Arg) : bool :=
  match arg_action a with ActSet => true | _ => false end.

Definition arg_help := mkArg "help" "h" (bytes "help") ActHelp false.
Definition arg_version := mkArg "version" "V" (bytes "version") ActVersion false.

(** [#[arg(short, long, required = true)] alias: String] *)
Definition arg_alias := mkArg "alias" "a" (bytes "alias") ActSet true.

(** [#[arg(short, long, required = true)] new: String] *)
Definition arg_new := mkArg "new" "n" (bytes "new") ActSet true.

(** [clap::Command]: its arguments and the names of its subcommands. *)
Record Command := mkCommand {
  cmd_args : list Arg;
  cmd_subcommands : list OsString
}.

Definition name_add := bytes "add".
Definition name_remove := bytes "remove".
Definition name_list := bytes "list".
Definition name_edit := bytes "edit".
Definition name_jump := bytes "jump".
Definition name_help := bytes "help".

(** [#[command(author, version, about)] struct Cli] with
    [#[command(subcommand)]]: the flags [--help], [--version], the variants
    of [Commands] in kebab case, and clap's [help] subcommand. *)
Definition top_command : Command :=
  mkCommand [arg_help; arg_version]
    [name_add; name_remove; name_list; name_edit; name_jump; name_help].

(** The subcommand a variant of [enum Commands] derives. *)
Definition subcommand_of (name : OsString) : Command :=
  if decide (name = name_edit) then mkCommand [arg_alias; arg_new; arg_help] []
  else if decide (name = name_list) then mkCommand [arg_help] []
  else if decide (name = name_help) then mkCommand [arg_help] []
  else mkCommand [arg_alias; arg_help] [].

(** [Cli]: the parsed command line. *)
Record Cli := mkCli { command : Commands }.

(** ** [clap_lex]: what a token is *)

Definition ch_dash : ascii := "-".
Definition ch_eq : ascii := "=".

(** [RawOsStr::split_once("=")]. *)
Fixpoint split_eq (s : OsString) : OsString * option OsString :=
  match s with
  | [] => ([], None)
  | c :: s' =>
      if decide (c = ch_eq) then ([], Some s')
      else let '(n, v) := split_eq s' in (c :: n, v)
  end.

(** [ParsedArg::is_escape] ([--]), [to_long] ([--name] or [--name=value]),
    [to_short] ([-] and at least one more byte, not a second [-]); the
    rest, [-] alone included, is a value. *)
Inductive token :=
  | TEscape
  | TLong (name : OsString) (value : option OsString)
  | TShort (c : ascii) (rest : OsString)
  | TValue.

Definition classify (t : OsString) : token :=
  match t with
  | d :: r =>
      if decide (d = ch_dash) then
        match r with
        | [] => TValue
        | d' :: r' =>
            if decide (d' = ch_dash) then
              match r' with
              | [] => TEscape
              | _ => let '(n, v) := split_eq r' in TLong n v
              end
            else TShort d' r'
        end
      else TValue
  | [] => TValue
  end.

(** ** The matcher: the values found so far, and the option waiting for
    its value ([ArgMatcher::pending]) *)

Record Matcher := mkMatcher {
  m_args : list (string * string);
  m_pending : option (Arg * list OsString)
}.

Definition matcher_empty := mkMatcher [] None.

Definition find_long (cmd : Command) (name : OsString) : option Arg :=
  List.find (fun a => bool_decide (arg_long a = name)) (cmd_args cmd).

Definition find_short (cmd : Command) (c : ascii) : option Arg :=
  List.find (fun a => bool_decide (arg_short a = c)) (cmd_args cmd).

(** [Parser::verify_num_args]: an option takes exactly one value, a flag
    none; an option without its value is [Error::empty_value]. *)
Definition verify_num_args (a : Arg) (vals : list OsString) : result unit ErrorKind :=
  match arg_action a, vals with
  | ActSet, [_] => Ok tt
  | ActSet, [] => Err InvalidValue
  | ActSet, _ => Err WrongNumberOfValues
  | _, [] => Ok tt
  | _, _ => Err WrongNumberOfValues
  end.

(** [Parser::push_arg_values] through [StringValueParser]. *)
Fixpoint push_arg_values (id : string) (vals : list OsString)
    (acc : list (string * string)) : result (list (string * string)) ErrorKind :=
  match vals with
  | [] => Ok acc
  | v :: vs =>
      if utf8_valid v then push_arg_values id vs (acc ++ [(id, String.string_of_list_ascii v)])
      else Err InvalidUtf8
  end.

(** [Parser::react] once the pending option is resolved: [ArgAction::Set]
    refuses a second occurrence ([args_override_self] is off) before it
    parses the value; [Help] and [Version] end the parse. *)
Definition react_action (a : Arg) (vals : list OsString) (m : Matcher) : result Matcher ErrorKind :=
  let? _ := verify_num_args a vals in
  match arg_action a with
  | ActHelp => Err DisplayHelp
  | ActVersion => Err DisplayVersion
  | ActSet =>
      if decide (arg_id a ∈ fst <$> m_args m) then Err ArgumentConflict
      else let? args := push_arg_values (arg_id a) vals (m_args m) in
           Ok (mkMatcher args (m_pending m))
  end.

(** [Parser::resolve_pending]. *)
Definition resolve_pending (m : Matcher) : result Matcher ErrorKind :=
  match m_pending m with
  | None => Ok m
  | Some (a, vals) => react_action a vals (mkMatcher (m_args m) None)
  end.

(** [Parser::react]: it starts by resolving the pending option. *)
Definition react (a : Arg) (vals : list OsString) (m : Matcher) : result Matcher ErrorKind :=
  let? m' := resolve_pending m in react_action a vals m'.

(** [Parser::parse_opt_value]: an attached value is taken at once;
    otherwise the option waits for the next token. *)
Definition parse_opt_value (a : Arg) (attached : option OsString) (m : Matcher)
    : result Matcher ErrorKind :=
  match attached with
  | Some v => react a [v] m
  | None => let? m' := resolve_pending m in Ok (mkMatcher (m_args m') (Some (a, [])))
  end.

(** [Parser::parse_long_arg]: a flag given a value ([--help=x]) is
    [UnneededAttachedValue]. *)
Definition parse_long_arg (cmd : Command) (name : OsString) (value : option OsString)
    (m : Matcher) : result Matcher ErrorKind :=
  match find_long cmd name with
  | None => Err UnknownArgument
  | Some a =>
      if takes_value a then parse_opt_value a value m
      else match value with
           | Some _ => Err TooManyValues
           | None => react a [] m
           end
  end.

(** The value attached to a short option: the rest of the token, without
    the [=] it may start with; none when nothing follows the letter. *)
Definition short_attached (rest : OsString) : option OsString :=
  match rest with
  | [] => None
  | c :: rest' => if decide (c = ch_eq) then Some rest' else Some rest
  end.

(** [Parser::parse_short_arg] on the first letter of the cluster: an
    option takes the rest as its value; a flag here is [--help] or
    [--version], which ends the parse, so no later letter is read. *)
Definition parse_short_arg (cmd : Command) (c : ascii) (rest : OsString) (m : Matcher)
    : result Matcher ErrorKind :=
  match find_short cmd c with
  | None => Err UnknownArgument
  | Some a =>
      if takes_value a then parse_opt_value a (short_attached rest) m
      else react a [] m
  end.

(** [Parser::match_arg_error]: a stray word is an unknown subcommand where
    there are subcommands, an unexpected argument otherwise. *)
Definition match_arg_error (cmd : Command) (t : OsString) (trailing : bool) : ErrorKind :=
  if trailing && bool_decide (t ∈ cmd_subcommands cmd) then UnknownArgument
  else if bool_decide (cmd_subcommands cmd = []) then UnknownArgument
  else InvalidSubcommand.

(** Where the loop of [get_matches_with] stops: at the end of the tokens,
    or at a subcommand with the tokens after it. *)
Inductive loop_end :=
  | LoopDone (m : Matcher)
  | LoopSub (name : OsString) (rest : list OsString).

(** [Parser::get_matches_with], its loop over the tokens. *)
Fixpoint get_matches_with (cmd : Command) (toks : list OsString) (trailing : bool)
    (m : Matcher) : result loop_end ErrorKind :=
  match toks with
  | [] => Ok (LoopDone m)
  | t :: rest =>
      if trailing then Err (match_arg_error cmd t true)
      else if decide (t ∈ cmd_subcommands cmd) then Ok (LoopSub t rest)
      else match classify t with
           | TEscape => get_matches_with cmd rest true m
           | TLong n v =>
               let? m' := parse_long_arg cmd n v m in get_matches_with cmd rest false m'
           | TShort c r =>
               let? m' := parse_short_arg cmd c r m in get_matches_with cmd rest false m'
           | TValue =>
               match m_pending m with
               | Some (a, []) =>
                   get_matches_with cmd rest false (mkMatcher (m_args m) (Some (a, [t])))
               | _ => Err (match_arg_error cmd t false)
               end
           end
  end.

(** [Validator::validate_required]. *)
Definition validate_required (cmd : Command) (m : Matcher) : result unit ErrorKind :=
  if forallb (fun a => negb (arg_required a) || bool_decide (arg_id a ∈ fst <$> m_args m))
       (cmd_args cmd)
  then Ok tt else Err MissingRequiredArgument.

(** [ArgMatches::remove_one::<String>] of a required field. *)
Definition remove_one (id : string) (m : Matcher) : result string ErrorKind :=
  match List.find (fun p => bool_decide (fst p = id)) (m_args m) with
  | Some p => Ok (snd p)
  | None => Err MissingRequiredArgument
  end.

(** [Commands::from_arg_matches], as [#[derive(Parser)]] writes it. *)
Definition from_arg_matches (name : OsString) (m : Matcher) : result Commands ErrorKind :=
  if decide (name = name_add) then let? a := remove_one "alias" m in Ok (Add a)
  else if decide (name = name_remove) then let? a := remove_one "alias" m in Ok (Remove a)
  else if decide (name = name_list) then Ok List
  else if decide (name = name_edit) then
    let? a := remove_one "alias" m in let? n := remove_one "new" m in Ok (Edit a n)
  else if decide (name = name_jump) then let? a := remove_one "alias" m in Ok (Jump a)
  else Err InvalidSubcommand.

(** [Parser::parse_help_subcommand]: [help] followed by a path of
    subcommands prints the help of the last one. *)
Fixpoint help_walk (subs : list OsString) (cmds : list OsString) : ErrorKind :=
  match cmds with
  | [] => DisplayHelp
  | c :: cs =>
      if decide (c ∈ subs) then help_walk (cmd_subcommands (subcommand_of c)) cs
      else InvalidSubcommand
  end.

(** [Parser::parse_subcommand]: the subcommand's own loop, then its
    pending option, its validation and the derived conversion. *)
Definition parse_subcommand (name : OsString) (rest : list OsString) : result Commands ErrorKind :=
  let cmd := subcommand_of name in
  let? r := get_matches_with cmd rest false matcher_empty in
  match r with
  | LoopSub _ _ => Err InvalidSubcommand
  | LoopDone m =>
      let? m' := resolve_pending m in
      let? _ := validate_required cmd m' in
      from_arg_matches name m'
  end.

(** [Command::try_get_matches_from] on the arguments after the program
    name, then [Cli::from_arg_matches]: with no subcommand, the help is
    printed as an error ([arg_required_else_help]). *)
Definition get_matches_from (args : list OsString) : result Commands ErrorKind :=
  let? r := get_matches_with top_command args false matcher_empty in
  match r with
  | LoopDone m =>
      let? m' := resolve_pending m in
      if bool_decide (m_args m' = []) then Err DisplayHelpOnMissingArgumentOrSubcommand
      else Err MissingSubcommand
  | LoopSub name rest =>
      if decide (name = name_help) then Err (help_walk (cmd_subcommands top_command) rest)
      else parse_subcommand name rest
  end.

(** [Cli::parse()] on [env::args_os()]: the first argument is the program
    name. *)
Definition cli_parse (argv : list OsString) : result Cli ErrorKind :=
  let? c := get_matches_from (tail argv) in Ok (mkCli c).

(** ** The process: [Cli::parse()], then the rest of [main] *)

(** How the process ends: clap exits before [main]'s body, or [main]'s
    body returns or panics. *)
Inductive status :=
  | ClapExit (k : ErrorKind)
  | MainExit (o : outcome unit).

(** The exit code: clap's, 0 when [main] returns, 101 on a panic. *)
Definition exit_code (s : status) : nat :=
  match s with
  | ClapExit k => clap_exit_code k
  | MainExit (Done _) => 0
  | MainExit (Panicked _) => 101
  end.

Section Process.
Context `{!ConfigCodec}.

(** [fn main()]: [let cli = Cli::parse();] then the body of [Main.main]. *)
Definition pomelo (argv : list OsString) (w : World) : status * World :=
  match cli_parse argv with
  | Err k => (ClapExit k, w)
  | Ok cli => let '(o, w') := run (main (command cli)) w in (MainExit o, w')
  end.
End Process.

(** ** The spellings of an option on the command line *)

(** [--alias v], [--alias=v], [-a v], [-a=v] and [-av]. *)
Inductive spelling := LongSep | LongEq | ShortSep | ShortEq | ShortAttached.

Definition spell (s : spelling) (a : Arg) (v : OsString) : list OsString :=
  match s with
  | LongSep => [ch_dash :: ch_dash :: arg_long a; v]
  | LongEq => [ch_dash :: ch_dash :: arg_long a ++ ch_eq :: v]
  | ShortSep => [[ch_dash; arg_short a]; v]
  | ShortEq => [ch_dash :: arg_short a :: ch_eq :: v]
  | ShortAttached => [ch_dash :: arg_short a :: v]
  end.

Definition is_value (t : OsString) : bool :=
  match classify t with TValue => true | _ => false end.

(** A value given as a token of its own must read as a value; an attached
    value after the letter must not start with [=]. *)
Definition spelling_ok (s : spelling) (v : OsString) : bool :=
  match s with
  | LongSep | ShortSep => is_value v
  | ShortAttached => match v with c :: _ => negb (bool_decide (c = ch_eq)) | [] => false end
  | LongEq | ShortEq => true
  end.

(** A command line that spells each option of [c] in the given way, the
    two options of [edit] in either order. *)
Definition render (s1 s2 : spelling) (swap : bool) (c : Commands) : list OsString :=
  match c with
  | Add a => name_add :: spell s1 arg_alias (bytes a)
  | Remove a => name_remove :: spell s1 arg_alias (bytes a)
  | List => [name_list]
  | Edit a n =>
      name_edit :: (if swap then spell s2 arg_new (bytes n) ++ spell s1 arg_alias (bytes a)
                    else spell s1 arg_alias (bytes a) ++ spell s2 arg_new (bytes n))
  | Jump a => name_jump :: spell s1 arg_alias (bytes a)
  end.

Definition render_ok (s1 s2 : spelling) (c : Commands) : bool :=
  match c with
  | Add a | Remove a | Jump a => spelling_ok s1 (bytes a)
  | List => true
  | Edit a n => spelling_ok s1 (bytes a) && spelling_ok s2 (bytes n)
  end.

(** An option [a] of a command without subcommands, found by both its
    names, whose names read as flags. *)
Definition opt_ok (cmd : Command) (a : Arg) : Prop :=
  cmd_subcommands cmd = [] /\ find_long cmd (arg_long a) = Some a /\
  find_short cmd (arg_short a) = Some a /\ arg_action a = ActSet /\
  arg_long a <> [] /\ (ch_eq ∉ arg_long a) /\ arg_short a <> ch_dash.

(** The values a matcher holds are valid [String]s. *)
Definition vals_ok (m : Matcher) : Prop :=
  Forall (fun p => text_ok (snd p) = true) (m_args m).

Lemma opt_ok_set cmd a : opt_ok cmd a -> arg_action a = ActSet.
Proof. by intros (_ & _ & _ & ? & _). Qed.

(** ** Lemmas on the tokens *)

Lemma split_eq_no_eq l : ch_eq ∉ l -> split_eq l = (l, None).
Proof.
  induction l as [|c l IH]; intros Hl; [done|].
  rewrite elem_of_cons in Hl. cbn. rewrite decide_False by naive_solver.
  by rewrite IH by naive_solver.
Qed.

Lemma split_eq_app l v : ch_eq ∉ l -> split_eq (l ++ ch_eq :: v) = (l, Some v).
Proof.
  induction l as [|c l IH]; intros Hl; cbn.
  - by rewrite decide_True.
  - rewrite elem_of_cons in Hl. rewrite decide_False by naive_solver.
    by rewrite IH by naive_solver.
Qed.

Lemma classify_long l v :
  l <> [] -> ch_eq ∉ l ->
  classify (ch_dash :: ch_dash :: l) = TLong l None /\
  classify (ch_dash :: ch_dash :: l ++ ch_eq :: v) = TLong l (Some v).
Proof.
  intros Hne Hl. destruct l as [|c l']; [done|]. unfold classify.
  rewrite !decide_True by done. cbn [app].
  by rewrite split_eq_no_eq, app_comm_cons, split_eq_app.
Qed.

Lemma classify_short c r : c <> ch_dash -> classify (ch_dash :: c :: r) = TShort c r.
Proof.
  intros Hc. unfold classify. rewrite decide_True by done. by rewrite decide_False.
Qed.

Lemma short_attached_eq v : short_attached (ch_eq :: v) = Some v.
Proof. cbn. by rewrite decide_True. Qed.

(** ** Lemmas on [react] *)

Lemma react_action_set_ok a v m :
  arg_action a = ActSet -> arg_id a ∉ fst <$> m_args m -> utf8_valid v = true ->
  react_action a [v] m =
    Ok (mkMatcher (m_args m ++ [(arg_id a, String.string_of_list_ascii v)]) (m_pending m)).
Proof.
  intros Ha Hid Hv. unfold react_action, verify_num_args. rewrite Ha. cbn.
  by rewrite decide_False, Hv.
Qed.

Lemma react_action_pending a vals m m' :
  react_action a vals m = Ok m' -> m_pending m' = m_pending m.
Proof.
  unfold react_action. destruct (verify_num_args a vals); [|done]. cbn.
  destruct (arg_action a); try done.
  case_decide; try (intros; discriminate);
    destruct (push_arg_values _ _ _); try done; cbn; by intros [= <-].
Qed.

Lemma resolve_pending_settled m m0 : resolve_pending m = Ok m0 -> m_pending m0 = None.
Proof.
  unfold resolve_pending. destruct (m_pending m) as [[a vals]|] eqn:E.
  - by intros ->%react_action_pending.
  - by intros [= <-].
Qed.

(** The option waiting for [v], resolved, is the option given [v]. *)
Lemma resolve_waiting a v m0 :
  m_pending m0 = None ->
  resolve_pending (mkMatcher (m_args m0) (Some (a, [v]))) = react_action a [v] m0.
Proof. destruct m0; cbn. by intros ->. Qed.

(** ** One option of a subcommand, in any spelling *)

(** An occurrence either leaves its option waiting with its value, or
    reacts at once; in both cases it comes to [react_action a [v]] on the
    matcher resolved so far. *)
Lemma get_matches_spell cmd a s v rest m m0 :
  opt_ok cmd a -> spelling_ok s v = true -> resolve_pending m = Ok m0 ->
  get_matches_with cmd (spell s a v ++ rest) false m =
    get_matches_with cmd rest false (mkMatcher (m_args m0) (Some (a, [v]))) \/
  get_matches_with cmd (spell s a v ++ rest) false m =
    (let? m1 := react_action a [v] m0 in get_matches_with cmd rest false m1).
Proof.
  intros (Hsub & Hlong & Hshort & Hset & Hne & Heq & Hdash) Hs Hm.
  destruct (classify_long (arg_long a) v Hne Heq) as [Hl1 Hl2].
  pose proof (classify_short (arg_short a) [] Hdash) as Hs1.
  pose proof (classify_short (arg_short a) (ch_eq :: v) Hdash) as Hs2.
  pose proof (classify_short (arg_short a) v Hdash) as Hs3.
  pose proof (resolve_pending_settled _ _ Hm) as Hp.
  destruct s; cbn [spell app get_matches_with]; rewrite Hsub, decide_False by set_solver;
    [rewrite Hl1|rewrite Hl2|rewrite Hs1|rewrite Hs2|rewrite Hs3];
    unfold parse_long_arg, parse_short_arg; rewrite ?Hlong, ?Hshort;
    unfold takes_value; rewrite Hset; cbn [short_attached];
    unfold parse_opt_value, react; rewrite ?Hm; cbn [result_bind].
  - left. rewrite decide_False by set_solver.
    unfold spelling_ok, is_value in Hs. by destruct (classify v).
  - by right.
  - left. rewrite decide_False by set_solver.
    unfold spelling_ok, is_value in Hs. by destruct (classify v).
  - right. by rewrite decide_True.
  - right. destruct v as [|c v']; [done|]. cbn in Hs |- *.
    by rewrite decide_False by (intros ->; by rewrite bool_decide_true in Hs).
Qed.

Lemma get_matches_spell_ok cmd a s v rest m m0 m2 :
  opt_ok cmd a -> spelling_ok s v = true -> resolve_pending m = Ok m0 ->
  react_action a [v] m0 = Ok m2 ->
  exists m1, resolve_pending m1 = Ok m2 /\
    get_matches_with cmd (spell s a v ++ rest) false m = get_matches_with cmd rest false m1.
Proof.
  intros Ha Hs Hm Hr. pose proof (resolve_pending_settled _ _ Hm) as Hp.
  destruct (get_matches_spell cmd a s v rest m m0 Ha Hs Hm) as [H|H].
  - eexists. split; [|exact H]. by rewrite resolve_waiting.
  - exists m2. split; [|by rewrite H, Hr].
    unfold resolve_pending. by rewrite (react_action_pending _ _ _ _ Hr), Hp.
Qed.

Lemma get_matches_spell_err cmd a s v m m0 e :
  opt_ok cmd a -> spelling_ok s v = true -> resolve_pending m = Ok m0 ->
  react_action a [v] m0 = Err e ->
  get_matches_with cmd (spell s a v) false m = Err e \/
  exists m1, get_matches_with cmd (spell s a v) false m = Ok (LoopDone m1) /\
             resolve_pending m1 = Err e.
Proof.
  intros Ha Hs Hm Hr. pose proof (resolve_pending_settled _ _ Hm) as Hp.
  rewrite <-(app_nil_r (spell s a v)).
  destruct (get_matches_spell cmd a s v [] m m0 Ha Hs Hm) as [H|H]; rewrite H.
  - right. eexists. split; [done|]. by rewrite resolve_waiting.
  - left. by rewrite Hr.
Qed.

(** A subcommand whose loop ends with the matcher [m1] ends as the
    validation and conversion of what [m1] resolves to. *)
Lemma parse_subcommand_done name toks m1 m2 :
  get_matches_with (subcommand_of name) toks false matcher_empty = Ok (LoopDone m1) ->
  resolve_pending m1 = Ok m2 ->
  parse_subcommand name toks =
    (let? _ := validate_required (subcommand_of name) m2 in from_arg_matches name m2).
Proof. intros H1 H2. unfold parse_subcommand. rewrite H1. cbn. by rewrite H2. Qed.

Lemma get_matches_from_sub name toks :
  name ∈ cmd_subcommands top_command -> name <> name_help ->
  get_matches_from (name :: toks) = parse_subcommand name toks.
Proof.
  intros Hin Hh. unfold get_matches_from. cbn [get_matches_with].
  rewrite decide_True by done. cbn. by rewrite decide_False.
Qed.

Lemma parse_subcommand_one name a s v :
  opt_ok (subcommand_of name) a -> spelling_ok s v = true -> utf8_valid v = true ->
  parse_subcommand name (spell s a v) =
    (let m := mkMatcher [(arg_id a, String.string_of_list_ascii v)] None in
     let? _ := validate_required (subcommand_of name) m in from_arg_matches name m).
Proof.
  intros Ha Hs Hv. pose proof (opt_ok_set _ _ Ha) as Hset.
  destruct (get_matches_spell_ok _ a s v [] matcher_empty matcher_empty
    (mkMatcher [(arg_id a, String.string_of_list_ascii v)] None) Ha Hs)
    as (m1 & Hm1 & Hg); [done|by rewrite react_action_set_ok by set_solver|].
  rewrite app_nil_r in Hg. by apply (parse_subcommand_done _ _ m1).
Qed.

Lemma parse_subcommand_two name a1 a2 s1 s2 v1 v2 :
  opt_ok (subcommand_of name) a1 -> opt_ok (subcommand_of name) a2 -> arg_id a1 <> arg_id a2 ->
  spelling_ok s1 v1 = true -> spelling_ok s2 v2 = true ->
  utf8_valid v1 = true -> utf8_valid v2 = true ->
  parse_subcommand name (spell s1 a1 v1 ++ spell s2 a2 v2) =
    (let m := mkMatcher [(arg_id a1, String.string_of_list_ascii v1);
                         (arg_id a2, String.string_of_list_ascii v2)] None in
     let? _ := validate_required (subcommand_of name) m in from_arg_matches name m).
Proof.
  intros Ha1 Ha2 Hid Hs1 Hs2 Hv1 Hv2.
  pose proof (opt_ok_set _ _ Ha1) as Hset1. pose proof (opt_ok_set _ _ Ha2) as Hset2.
  destruct (get_matches_spell_ok _ a1 s1 v1 (spell s2 a2 v2) matcher_empty matcher_empty
    (mkMatcher [(arg_id a1, String.string_of_list_ascii v1)] None) Ha1 Hs1)
    as (m1 & Hm1 & Hg1); [done|by rewrite react_action_set_ok by set_solver|].
  destruct (get_matches_spell_ok _ a2 s2 v2 [] m1 _
    (mkMatcher [(arg_id a1, String.string_of_list_ascii v1);
                (arg_id a2, String.string_of_list_ascii v2)] None) Ha2 Hs2 Hm1)
    as (m2 & Hm2 & Hg2); [by rewrite react_action_set_ok by set_solver|].
  rewrite app_nil_r in Hg2. apply (parse_subcommand_done _ _ m2); [|done].
  by rewrite Hg1, Hg2.
Qed.

(** A second occurrence of an option ends the parse with what [react]
    makes of it on the first one's value, whatever spellings they have. *)
Lemma parse_subcommand_twice name a s1 s2 v1 v2 e :
  opt_ok (subcommand_of name) a -> spelling_ok s1 v1 = true -> spelling_ok s2 v2 = true ->
  utf8_valid v1 = true ->
  react_action a [v2] (mkMatcher [(arg_id a, String.string_of_list_ascii v1)] None) = Err e ->
  parse_subcommand name (spell s1 a v1 ++ spell s2 a v2) = Err e.
Proof.
  intros Ha Hs1 Hs2 Hv1 He. pose proof (opt_ok_set _ _ Ha) as Hset.
  destruct (get_matches_spell_ok _ a s1 v1 (spell s2 a v2) matcher_empty matcher_empty
    (mkMatcher [(arg_id a, String.string_of_list_ascii v1)] None) Ha Hs1)
    as (m1 & Hm1 & Hg1); [done|by rewrite react_action_set_ok by set_solver|].
  unfold parse_subcommand. rewrite Hg1.
  destruct (get_matches_spell_err _ a s2 v2 m1 _ e Ha Hs2 Hm1 He) as [->|(m3 & -> & Hm3)]; [done|].
  cbn. by rewrite Hm3.
Qed.

Lemma opt_ok_alias name :
  name <> name_list -> name <> name_help -> opt_ok (subcommand_of name) arg_alias.
Proof.
  intros Hl Hh. unfold subcommand_of.
  case_decide; [|rewrite !decide_False by done];
    split_and!; try done; apply (bool_decide_unpack _); vm_compute; exact I.
Qed.

Lemma opt_ok_new : opt_ok (subcommand_of name_edit) arg_new.
Proof. split_and!; try done. apply (bool_decide_unpack _); vm_compute; exact I. Qed.

(** ** The values of a parse are [String]s *)

Ltac inv_bind H := apply result_bind_Ok in H as (? & ? & H).

Lemma text_ok_of_bytes v : text_ok (String.string_of_list_ascii v) = utf8_valid v.
Proof. unfold text_ok. by rewrite String.list_ascii_of_string_of_list_ascii. Qed.

Lemma push_arg_values_ok id vals acc acc' :
  Forall (fun p => text_ok (snd p) = true) acc -> push_arg_values id vals acc = Ok acc' ->
  Forall (fun p => text_ok (snd p) = true) acc'.
Proof.
  revert acc. induction vals as [|v vals IH]; intros acc Hacc; cbn; [by intros [= <-]|].
  destruct (utf8_valid v) eqn:Hv; [|done]. apply IH.
  apply Forall_app. split; [done|]. constructor; [|done]. cbn [snd]. by rewrite text_ok_of_bytes.
Qed.

Lemma react_action_ok a vals m m' : vals_ok m -> react_action a vals m = Ok m' -> vals_ok m'.
Proof.
  intros Hm H. unfold react_action in H. inv_bind H.
  destruct (arg_action a); try done.
  case_decide; try done; inv_bind H; injection H as <-; by eapply push_arg_values_ok.
Qed.

Lemma resolve_pending_ok m m' : vals_ok m -> resolve_pending m = Ok m' -> vals_ok m'.
Proof.
  unfold resolve_pending. destruct (m_pending m) as [[a vals]|].
  - intros Hm. by apply react_action_ok.
  - by intros ? [= <-].
Qed.

Lemma react_ok a vals m m' : vals_ok m -> react a vals m = Ok m' -> vals_ok m'.
Proof.
  intros Hm H. unfold react in H. inv_bind H.
  eapply react_action_ok; [|done]. by eapply resolve_pending_ok.
Qed.

Lemma parse_opt_value_ok a v m m' : vals_ok m -> parse_opt_value a v m = Ok m' -> vals_ok m'.
Proof.
  intros Hm H. destruct v; cbn in H; [by eapply react_ok|].
  apply result_bind_Ok in H as (m0 & Hr & [= <-]).
  exact (resolve_pending_ok m m0 Hm Hr).
Qed.

Lemma parse_long_arg_ok cmd n v m m' :
  vals_ok m -> parse_long_arg cmd n v m = Ok m' -> vals_ok m'.
Proof.
  intros Hm H. unfold parse_long_arg in H. destruct (find_long _ _); [|done].
  destruct (takes_value _); [by eapply parse_opt_value_ok|].
  destruct v; [done|]. by eapply react_ok.
Qed.

Lemma parse_short_arg_ok cmd c r m m' :
  vals_ok m -> parse_short_arg cmd c r m = Ok m' -> vals_ok m'.
Proof.
  intros Hm H. unfold parse_short_arg in H. destruct (find_short _ _); [|done].
  destruct (takes_value _); [by eapply parse_opt_value_ok|by eapply react_ok].
Qed.

Lemma get_matches_with_ok cmd toks trailing m m' :
  vals_ok m -> get_matches_with cmd toks trailing m = Ok (LoopDone m') -> vals_ok m'.
Proof.
  revert trailing m. induction toks as [|t toks IH]; intros trailing m Hm H; cbn in H.
  - by injection H as <-.
  - destruct trailing; [done|]. case_decide; [done|].
    destruct (classify t).
    + by eapply IH.
    + inv_bind H. eapply IH; [|done]. by eapply parse_long_arg_ok.
    + inv_bind H. eapply IH; [|done]. by eapply parse_short_arg_ok.
    + destruct (m_pending m) as [[a [|]]|]; try done. eapply IH; [|done]. exact Hm.
Qed.

Lemma remove_one_ok id m s : vals_ok m -> remove_one id m = Ok s -> text_ok s = true.
Proof.
  unfold remove_one. destruct (List.find _ _) as [p|] eqn:E; [|done].
  intros Hm [= <-]. apply List.find_some in E as [Hin _].
  exact (proj1 (List.Forall_forall _ _) Hm p Hin).
Qed.

Lemma from_arg_matches_ok name m c : vals_ok m -> from_arg_matches name m = Ok c -> cmd_ok c.
Proof.
  intros Hm H. unfold from_arg_matches in H.
  repeat case_decide; try done;
    repeat (let H' := fresh in apply result_bind_Ok in H as (? & H' & H);
            apply remove_one_ok in H'; [|done]);
    injection H as <-; cbn; auto.
Qed.

(** Whatever command [Cli::parse] gives [main], its arguments are UTF-8. *)
Lemma cli_parse_cmd_ok argv cli : cli_parse argv = Ok cli -> cmd_ok (command cli).
Proof.
  unfold cli_parse, get_matches_from. intros H. inv_bind H. injection H as <-.
  match goal with Hr : result_bind _ _ = Ok _ |- _ => inv_bind Hr end.
  destruct x0 as [m|name rest]; [inv_bind H0; by case_bool_decide|].
  case_decide; [done|]. unfold parse_subcommand in H0. inv_bind H0.
  destruct x0 as [m|]; [|done]. inv_bind H0. inv_bind H0.
  eapply from_arg_matches_ok; [|done]. eapply resolve_pending_ok; [|done].
  eapply get_matches_with_ok; [|done]. constructor.
Qed.

(** ** Properties of the command line *)

Lemma top_sub_name name :
  name ∈ [name_add; name_remove; name_list; name_edit; name_jump] ->
  name ∈ cmd_subcommands top_command /\ name <> name_help.
Proof. rewrite !elem_of_cons, elem_of_nil. intros Hn. by split; [set_solver|]; naive_solver. Qed.

Lemma bytes_string s : String.string_of_list_ascii (bytes s) = s.
Proof. apply String.string_of_list_ascii_of_string. Qed.

(** C30: every command is read back from a command line that spells it:
    each option as [--alias v], [--alias=v], [-a v], [-a=v] or [-av],
    the two options of [edit] in either order, a value of its own token
    read as a value and an attached one not starting with [=]; whatever
    the program name. *)
Theorem parse_render bin s1 s2 swap c :
  cmd_ok c -> render_ok s1 s2 c = true -> cli_parse (bin :: render s1 s2 swap c) = Ok (mkCli c).
Proof.
  intros Hc Hr. unfold cli_parse. cbn [tail].
  destruct c as [a|a| |a n|a]; cbn [render render_ok cmd_ok] in *;
    (rewrite get_matches_from_sub by (apply top_sub_name; set_solver)).
  - rewrite parse_subcommand_one by (done || by apply opt_ok_alias).
    cbn. by rewrite bytes_string.
  - rewrite parse_subcommand_one by (done || by apply opt_ok_alias).
    cbn. by rewrite bytes_string.
  - done.
  - apply andb_prop in Hr as [Hr1 Hr2]. destruct Hc as [Ha Hn]. destruct swap;
      rewrite parse_subcommand_two
        by (done || apply opt_ok_new || by apply opt_ok_alias);
      cbn; by rewrite !bytes_string.
  - rewrite parse_subcommand_one by (done || by apply opt_ok_alias).
    cbn. by rewrite bytes_string.
Qed.

Lemma alias_sub_name name :
  name ∈ [name_add; name_remove; name_edit; name_jump] ->
  name ∈ [name_add; name_remove; name_list; name_edit; name_jump] /\
  opt_ok (subcommand_of name) arg_alias.
Proof.
  rewrite !elem_of_cons, elem_of_nil.
  intros [->|[->|[->|[->|[]]]]]; (split; [set_solver|by apply opt_ok_alias]).
Qed.

Section ProcessProofs.
Context `{!ConfigCodec}.

(** the whole process refines the [invocation] relation of [Main]:
    either clap exits before [main]'s body and nothing of the world
    changes, or the run is an invocation of [main] on a command whose
    arguments are UTF-8. *)
Theorem pomelo_invocation argv w s w' :
  pomelo argv w = (s, w') -> (exists k, s = ClapExit k /\ w' = w) \/ invocation w w'.
Proof.
  unfold pomelo. destruct (cli_parse argv) as [cli|k] eqn:Hp.
  - destruct (run (main (command cli)) w) as [o w''] eqn:Hr. intros [= <- <-].
    right. econstructor; [by eapply cli_parse_cmd_ok|exact Hr].
  - intros [= <- <-]. left. eauto.
Qed.

(** C31: an option given twice to [add], [remove], [edit] or [jump], in
    any spellings, is refused with [ArgumentConflict] (exit code 2) once
    its first value is a valid [String]: the process ends before loading
    the configuration, and the world is left as it was. *)
Theorem option_twice_conflict bin name s1 s2 v1 v2 :
  name ∈ [name_add; name_remove; name_edit; name_jump] ->
  spelling_ok s1 v1 = true -> spelling_ok s2 v2 = true -> utf8_valid v1 = true ->
  cli_parse (bin :: name :: spell s1 arg_alias v1 ++ spell s2 arg_alias v2) = Err ArgumentConflict /\
  forall w, pomelo (bin :: name :: spell s1 arg_alias v1 ++ spell s2 arg_alias v2) w =
            (ClapExit ArgumentConflict, w).
Proof.
  intros (Hn & Ha)%alias_sub_name Hs1 Hs2 Hv.
  assert (cli_parse (bin :: name :: spell s1 arg_alias v1 ++ spell s2 arg_alias v2)
          = Err ArgumentConflict) as Hp.
  { unfold cli_parse. cbn [tail].
    rewrite get_matches_from_sub by (by apply top_sub_name).
    assert (react_action arg_alias [v2]
              (mkMatcher [(arg_id arg_alias, String.string_of_list_ascii v1)] None)
            = Err ArgumentConflict) as Hc.
    { unfold react_action, verify_num_args. cbn. by rewrite decide_True by set_solver. }
    by rewrite (parse_subcommand_twice _ _ _ _ _ _ ArgumentConflict). }
  split; [done|]. intros w. unfold pomelo. by rewrite Hp.
Qed.

(** C32: a required option left out is refused with
    [MissingRequiredArgument] (exit code 2): [add], [remove], [edit] and
    [jump] without options, and [edit] given only one of [--alias] and
    [--new], in any spelling; the process ends before loading the
    configuration, and the world is left as it was. *)
Theorem missing_option_refused bin s v w :
  spelling_ok s v = true -> utf8_valid v = true ->
  (forall name, name ∈ [name_add; name_remove; name_edit; name_jump] ->
     pomelo [bin; name] w = (ClapExit MissingRequiredArgument, w)) /\
  pomelo (bin :: name_edit :: spell s arg_alias v) w = (ClapExit MissingRequiredArgument, w) /\
  pomelo (bin :: name_edit :: spell s arg_new v) w = (ClapExit MissingRequiredArgument, w).
Proof.
  intros Hs Hv. unfold pomelo, cli_parse. cbn [tail].
  destruct (top_sub_name name_edit) as [Hin Hh]; [set_solver|].
  split_and!.
  - intros name Hn. rewrite !elem_of_cons, elem_of_nil in Hn.
    destruct Hn as [->|[->|[->|[->|[]]]]]; reflexivity.
  - rewrite get_matches_from_sub, parse_subcommand_one by (done || by apply opt_ok_alias).
    reflexivity.
  - rewrite get_matches_from_sub, parse_subcommand_one by (done || apply opt_ok_new).
    reflexivity.
Qed.
End ProcessProofs.

(** ** Witnesses *)

Lemma parse_render_witness :
  cmd_ok (Edit "home" "h") /\ render_ok ShortAttached LongEq (Edit "home" "h") = true /\
  cli_parse (bytes "pomelo" :: render ShortAttached LongEq true (Edit "home" "h")) =
    Ok (mkCli (Edit "home" "h")).
Proof.
  split_and!; [split; reflexivity|reflexivity|].
  apply parse_render; [split; reflexivity|reflexivity].
Defined.
