(* ===== verification/Concurrency.v ===== *)
(** * Concurrency: invocations that run at the same time

    The specification (section 5) notes that the configuration file is
    shared by invocations that may run at once, with no locking, so that
    one update can be lost.  Here an invocation of [main] is cut at the
    points where another process can observe or change the file: after the
    load (line 98), after [File::create] (line 83, which truncates the
    file), and after [write_all] (line 84).  [pc] is the program counter of
    one invocation; [proc_step] runs the code between two such points as
    one atomic step of the file system; a system is a world and the
    program counters of the running invocations, and a schedule picks
    which one moves.

    [phases_refine_main] shows that the phases run in sequence are [main];
    the theorems then exhibit the interleavings the specification warns
    about and one it does not mention. *)

From stdpp Require Import base list gmap strings relations.
From S2P Require Import Prelude Utf8 Paths Bookmarks FileSys ConfigStore Main.

(** Where an invocation stands. *)
Inductive pc :=
  | PStart (cmd : Commands)
  | PLoaded (cmd : Commands) (config : Config)
  | POpened (cmd : Commands) (file : Loc) (toml : string)
  | PExit (o : outcome unit).

Section Concurrency.
Context `{!ConfigCodec}.

(** Run [m] as one atomic step; a panic ends the invocation. *)
Definition phase {A} (m : IO A) (k : A -> pc) : IO pc :=
  fun w =>
    match run m w with
    | (Done a, w') => (Done (k a), w')
    | (Panicked e, w') => (Done (PExit (Panicked e)), w')
    end.

(** The arm of [main] from the loaded configuration up to [File::create]. *)
Definition arm_open (cmd : Commands) (config : Config) : IO pc :=
  match cmd with
  | Add alias =>
      phase (r ← current_dir;
             current_dir ← expect r msg_cwd;
             save_open (push_bookmark config (mkBookmark alias current_dir)))
            (fun '(file, toml) => POpened cmd file toml)
  | Remove alias =>
      phase (config' ← remove_arm alias config; save_open config')
            (fun '(file, toml) => POpened cmd file toml)
  | Edit alias new =>
      phase (config' ← edit_arm alias new config; save_open config')
            (fun '(file, toml) => POpened cmd file toml)
  | List => phase (list_arm config) (fun _ => PExit (Done tt))
  | Jump _ => mret (PExit (Done tt))
  end.

(** From [write_all] to the end of the arm. *)
Definition arm_close (cmd : Commands) (file : Loc) (toml : string) : IO pc :=
  match cmd with
  | Add alias =>
      phase (_ ← save_write file toml; println (msg_added alias)) (fun _ => PExit (Done tt))
  | _ => phase (save_write file toml) (fun _ => PExit (Done tt))
  end.

Definition proc_step (p : pc) : option (IO pc) :=
  match p with
  | PStart cmd => Some (phase load_or_initialize_config (PLoaded cmd))
  | PLoaded cmd config => Some (arm_open cmd config)
  | POpened cmd file toml => Some (arm_close cmd file toml)
  | PExit _ => None
  end.

(** One invocation alone, [n] steps at most. *)
Fixpoint run_proc (n : nat) (p : pc) (w : World) : pc * World :=
  match n with
  | 0 => (p, w)
  | S n' =>
      match proc_step p with
      | None => (p, w)
      | Some m =>
          match run m w with
          | (Done p', w') => run_proc n' p' w'
          | (Panicked e, w') => (PExit (Panicked e), w')
          end
      end
  end.

(** A system: the world and the invocations running on it. *)
Definition sys : Type := World * list pc.

(** The invocation [i] moves one step, if it can. *)
Definition sched_step (s : sys) (i : nat) : sys :=
  let '(w, ps) := s in
  match ps !! i ≫= proc_step with
  | Some m =>
      match run m w with
      | (Done p', w') => (w', <[i := p']> ps)
      | (Panicked e, w') => (w', <[i := PExit (Panicked e)]> ps)
      end
  | None => s
  end.

Definition run_sched (sched : list nat) (s : sys) : sys := foldl sched_step s sched.

(** The interleavings as a relation: any running invocation may move. *)
Inductive sys_step : relation sys :=
  | sys_step_proc w ps i p m p' w' :
      ps !! i = Some p -> proc_step p = Some m -> run m w = (Done p', w') ->
      sys_step (w, ps) (w', <[i := p']> ps).


(** ** The phases of one invocation are [main] *)

Lemma run_phase {A} (m : IO A) k w :
  run (phase m k) w =
    (Done (match fst (run m w) with Done a => k a | Panicked e => PExit (Panicked e) end),
     snd (run m w)).
Proof. change (run (phase m k) w) with (phase m k w). unfold phase. by destruct (run m w) as [[]]. Qed.

Lemma run_proc_exit n o w : run_proc n (PExit o) w = (PExit o, w).
Proof. by destruct n. Qed.

(** [p] runs in [n] steps as the program [prog] does. *)
Definition runs_as (n : nat) (p : pc) (prog : IO unit) : Prop :=
  forall w, run_proc n p w = (PExit (fst (run prog w)), snd (run prog w)).

Lemma runs_as_phase n p {A} (m : IO A) k (g : A -> IO unit) prog :
  proc_step p = Some (phase m k) -> (forall a, runs_as n (k a) (g a)) ->
  (forall w, run prog w = run (m ≫= g) w) -> runs_as (S n) p prog.
Proof.
  intros Hp Hk Hprog w. rewrite Hprog, run_bind. cbn [run_proc]. rewrite Hp, run_phase.
  destruct (run m w) as [[a|e] w']; cbn [fst snd]; [apply Hk|by rewrite run_proc_exit].
Qed.

Lemma runs_as_end n p (m : IO unit) prog :
  proc_step p = Some (phase m (fun _ => PExit (Done tt))) -> (forall w, run prog w = run m w) ->
  runs_as (S n) p prog.
Proof.
  intros Hp Hprog. apply (runs_as_phase n p m (fun _ => PExit (Done tt)) (fun _ => mret tt)); [done|intros ? ?; by rewrite run_proc_exit|].
  intros w. rewrite Hprog, run_bind. by destruct (run m w) as [[[]|] ?].
Qed.

(** [save_config] followed by more code is its two halves followed by it. *)
Lemma run_save_config_bind c {A} (k : unit -> IO A) w :
  run (save_config c ≫= k) w = run ('(file, toml) ← save_open c; save_write file toml ≫= k) w.
Proof.
  rewrite run_bind, save_config_split, !run_bind.
  destruct (run (save_open c) w) as [[[f t]|e] w']; [|done]. cbn. by rewrite run_bind.
Qed.

(** Cutting [main] at the load and at [File::create] changes
    nothing: the three phases of an invocation, run in sequence with no
    other invocation in between, end as [main] ends, with the same world. *)
Theorem phases_refine_main cmd w :
  run_proc 3 (PStart cmd) w = (PExit (fst (run (main cmd) w)), snd (run (main cmd) w)).
Proof.
  revert w. eapply runs_as_phase; [done| |intros w; unfold main; reflexivity].
  intros config. destruct cmd as [a|a| |a n|a].
  - eapply (runs_as_phase _ _ _ (fun '(file, toml) => POpened (Add a) file toml)
             (fun '(file, toml) => _ ← save_write file toml; println (msg_added a)));
      [done|intros [f t]; by eapply runs_as_end|].
    intros w. do 2 (rewrite run_bind_assoc; apply run_bind_ext; intros ? ?).
    rewrite run_save_config_bind. apply run_bind_ext. by intros [f t] ?.
  - eapply (runs_as_phase _ _ _ (fun '(file, toml) => POpened (Remove a) file toml)
             (fun '(file, toml) => save_write file toml));
      [done|intros [f t]; by eapply runs_as_end|].
    intros w. rewrite run_bind_assoc. apply run_bind_ext. intros ? ?. by rewrite save_config_split.
  - by eapply runs_as_end.
  - eapply (runs_as_phase _ _ _ (fun '(file, toml) => POpened (Edit a n) file toml)
             (fun '(file, toml) => save_write file toml));
      [done|intros [f t]; by eapply runs_as_end|].
    intros w. rewrite run_bind_assoc. apply run_bind_ext. intros ? ?. by rewrite save_config_split.
  - intros w. reflexivity.
Qed.

(** ** Steps of [Add] on a ready store *)

Lemma sched_step_run w ps i p m p' w' :
  ps !! i = Some p -> proc_step p = Some m -> run m w = (Done p', w') ->
  sched_step (w, ps) i = (w', <[i := p']> ps).
Proof. intros Hi Hp Hm. unfold sched_step. by rewrite Hi; cbn; rewrite Hp, Hm. Qed.

Lemma load_step cmd c w :
  run load_or_initialize_config w = (Done c, w) ->
  run (phase load_or_initialize_config (PLoaded cmd)) w = (Done (PLoaded cmd c), w).
Proof. intros Hl. by rewrite run_phase, Hl. Qed.

(** [Add] up to [File::create] truncates the configuration file. *)
Lemma add_open_step a c s h d l w :
  store_ready h d w -> w_cwd w = Some l ->
  encode (push_bookmark c (mkBookmark a (loc_path l))) = Some s ->
  run (arm_open (Add a) c) w =
    (Done (POpened (Add a) (cfg_loc d) s), set_files (<[cfg_loc d := EmptyString]> (w_files w)) w).
Proof.
  intros (Hh & Hd & Hdir & Hc & Hden & _) Hcwd Hs. cbn [arm_open]. rewrite run_phase.
  assert (Hcd : run current_dir w = (Done (Ok (loc_path l)), w)) by (cbv [run current_dir]; by rewrite Hcwd).
  rewrite run_bind, Hcd. cbn -[save_open]. rewrite bind_ret_l.
  change (save_open ?x w) with (run (save_open x) w). by rewrite (save_open_existing_dir _ s w h d).
Qed.

(** [Add] from [write_all]: the file receives the text, then the
    confirmation is printed. *)
Lemma add_close_step a f t w :
  w_nospace w = false ->
  run (arm_close (Add a) f t) w =
    (Done (PExit (Done tt)),
     set_stdout (w_stdout w ++ [msg_added a]) (set_files (<[f := t]> (w_files w)) w)).
Proof.
  intros Hns. cbn [arm_close]. rewrite run_phase, run_bind, save_write_spec, Hns. done.
Qed.

Lemma store_ready_files h d f w :
  store_ready h d w -> store_ready h d (set_files (<[cfg_loc d := f]> (w_files w)) w).
Proof.
  intros (Hh & Hd & Hdir & Hc & Hden & Hns). split_and!; autorewrite with pomelo_exec; try done.
  eapply locate_mono; [| |exact Hd]; by autorewrite with pomelo_exec.
Qed.

(** A ready store stays ready when only files and output change. *)
Lemma store_ready_ext h d w w' :
  w_home w' = w_home w -> w_cwd w' = w_cwd w -> w_dirs w' = w_dirs w ->
  w_denied w' = w_denied w -> w_nospace w' = w_nospace w ->
  store_ready h d w -> store_ready h d w'.
Proof.
  intros Hh' Hc' Hd' Hden' Hns' (Hh & Hd & Hdir & Hc & Hden & Hns).
  split_and!; rewrite ?Hh', ?Hd', ?Hden', ?Hns'; try done.
  eapply (locate_mono w); [by rewrite Hd'|done|exact Hd].
Qed.

(** Move invocation [i] by one step, the step given by [t]. *)
Ltac sched_with t := erewrite sched_step_run; [|reflexivity|reflexivity|t].

(** C27: Last writer wins.  Two [Add]s started together on a ready store
    from the same directory, both loading before either saves: both
    report success, and the file holds the configuration with the
    second bookmark only; the first one is lost. *)
Theorem lost_update a1 a2 c s h d l w :
  store_ready h d w -> w_files w !! cfg_loc d = Some s -> encode c = Some s -> string_ok c ->
  w_cwd w = Some l -> utf8_valid (loc_path l) = true ->
  exists s2, encode (mkConfig (Spec.add a2 (loc_path l) (bookmarks c))) = Some s2 /\
    let '(w', ps) := run_sched [0; 1; 0; 0; 1; 1] (w, [PStart (Add a1); PStart (Add a2)]) in
    ps = [PExit (Done tt); PExit (Done tt)] /\ w_files w' !! cfg_loc d = Some s2.
Proof.
  intros Hr Hf Hs Hc Hcwd Hl. pose proof Hr as (Hh & Hd & Hdir & _ & Hden & Hns).
  assert (Hload : run load_or_initialize_config w = (Done c, w)) by (by eapply load_stored).
  destruct (encode_paths c (mkConfig (Spec.add a1 (loc_path l) (bookmarks c)))) as [s1 Hs1];
    [by eexists|intros; by apply add_Forall|].
  destruct (encode_paths c (mkConfig (Spec.add a2 (loc_path l) (bookmarks c)))) as [s2 Hs2];
    [by eexists|intros; by apply add_Forall|].
  exists s2. split; [done|]. unfold run_sched. cbn [foldl].
  do 2 sched_with ltac:(by apply load_step).
  sched_with ltac:(by eapply add_open_step). sched_with ltac:(by apply add_close_step).
  sched_with ltac:(eapply add_open_step; [|by autorewrite with pomelo_exec|done];
                   eapply store_ready_ext; [..|exact Hr]; by autorewrite with pomelo_exec).
  sched_with ltac:(apply add_close_step; by autorewrite with pomelo_exec).
  split; [done|]. autorewrite with pomelo_exec. by rewrite lookup_insert_eq.
Qed.

(** Loading the empty file panics: it has no [bookmarks] key. *)
Lemma load_truncated h d w :
  store_ready h d w -> w_files w !! cfg_loc d = Some EmptyString ->
  run load_or_initialize_config w = (Panicked msg_parse, w).
Proof.
  intros (Hh & Hd & Hdir & _ & Hden & _) Hf.
  rewrite (load_spec w h Hh), (read_config_file w h d EmptyString) by done. cbn. by rewrite decode_empty.
Qed.

(** C28: An invocation that loads while another one is between
    [File::create] and [write_all] reads the empty file and panics with
    the parse error, whatever its command; the file is empty at that
    point. *)
Theorem load_during_save_panics a cmd c s h d l w :
  store_ready h d w -> w_files w !! cfg_loc d = Some s -> encode c = Some s -> string_ok c ->
  w_cwd w = Some l -> utf8_valid (loc_path l) = true ->
  let '(w', ps) := run_sched [0; 0; 1] (w, [PStart (Add a); PStart cmd]) in
  ps !! 1 = Some (PExit (Panicked msg_parse)) /\ w_files w' !! cfg_loc d = Some EmptyString.
Proof.
  intros Hr Hf Hs Hc Hcwd Hl. pose proof Hr as (Hh & Hd & Hdir & _ & Hden & Hns).
  assert (Hload : run load_or_initialize_config w = (Done c, w)) by (by eapply load_stored).
  destruct (encode_paths c (mkConfig (Spec.add a (loc_path l) (bookmarks c)))) as [s1 Hs1];
    [by eexists|intros; by apply add_Forall|].
  unfold run_sched. cbn [foldl].
  sched_with ltac:(by apply load_step). sched_with ltac:(by eapply add_open_step).
  assert (Hr1 : store_ready h d (set_files (<[cfg_loc d := EmptyString]> (w_files w)) w))
    by (eapply store_ready_ext; [..|exact Hr]; by autorewrite with pomelo_exec).
  assert (Hf1 : w_files (set_files (<[cfg_loc d := EmptyString]> (w_files w)) w) !! cfg_loc d =
                 Some EmptyString) by (autorewrite with pomelo_exec; apply lookup_insert_eq).
  sched_with ltac:(by rewrite run_phase, (load_truncated h d)).
  split; [done|exact Hf1].
Qed.
End Concurrency.

(** ** What any interleaving keeps *)

Section ConcurrentInvariant.
Context `{!ConfigCodec}.

(** The configuration file, when it can be read, is empty (an invocation
    is between [File::create] and [write_all]) or a valid text. *)
Definition file_ok : World -> Prop := config_file_ok (fun s => s = EmptyString \/ valid_text s).

(** What each invocation holds: a UTF-8 command, a loaded configuration
    with UTF-8 aliases, or the text it will write and the file, which is
    the configuration file. *)
Definition pc_ok (w : World) (p : pc) : Prop :=
  match p with
  | PStart cmd => cmd_ok cmd
  | PLoaded cmd c => cmd_ok cmd /\ string_ok c
  | POpened _ f t =>
      valid_text t /\ is_Some (w_files w !! f) /\
      forall h, w_home w = Some h -> locate w (config_path_of h) = Ok f
  | PExit _ => True
  end.

Definition sys_ok (w : World) (ps : list pc) : Prop :=
  env_ok w /\ file_ok w /\ Forall (pc_ok w) ps.

Lemma pc_ok_mono w w' p :
  w_home w' = w_home w -> w_cwd w' = w_cwd w -> w_dirs w ⊆ w_dirs w' ->
  (forall l, is_Some (w_files w !! l) -> is_Some (w_files w' !! l)) ->
  pc_ok w p -> pc_ok w' p.
Proof.
  intros Hh Hc Hd Hf. destruct p as [| | cmd f t|]; simpl; try done.
  intros (Ht & Hft & Hl). split_and!; [done|by apply Hf|].
  intros h Hh'. rewrite Hh in Hh'. eapply locate_mono; [done|done|by apply Hl].
Qed.

Lemma sys_ok_stdout o w ps : sys_ok w ps -> sys_ok (set_stdout o w) ps.
Proof.
  intros ((Hwf & Hns & Hh) & Hok & Hps). unfold sys_ok, env_ok. split_and!.
  - by destruct w.
  - by autorewrite with pomelo_exec.
  - by autorewrite with pomelo_exec.
  - intros h s. autorewrite with pomelo_exec. rewrite read_file_set_stdout. apply Hok.
  - eapply Forall_impl; [exact Hps|]. intros p. apply pc_ok_mono; by autorewrite with pomelo_exec.
Qed.

Lemma sys_ok_dirs ds w ps :
  sys_ok w ps -> w_dirs w ⊆ ds -> wf_world (set_dirs ds w) -> sys_ok (set_dirs ds w) ps.
Proof.
  intros (Henv & Hok & Hps) Hsub Hwf. pose proof Henv as (_ & Hns & Hh). unfold sys_ok, env_ok.
  split_and!.
  - done.
  - by autorewrite with pomelo_exec.
  - by autorewrite with pomelo_exec.
  - by apply config_file_ok_grow.
  - eapply Forall_impl; [exact Hps|]. intros p. apply pc_ok_mono; by autorewrite with pomelo_exec.
Qed.

(** Writing [s] at the location of the configuration file. *)
Lemma sys_ok_write w ps l s :
  sys_ok w ps -> wf_world (set_files (<[l := s]> (w_files w)) w) ->
  (forall h, w_home w = Some h -> locate w (config_path_of h) = Ok l) ->
  s = EmptyString \/ valid_text s ->
  sys_ok (set_files (<[l := s]> (w_files w)) w) ps.
Proof.
  intros (Henv & Hok & Hps) Hwf Hl Hs. pose proof Henv as (_ & Hns & Hh). unfold sys_ok, env_ok.
  split_and!.
  - done.
  - by autorewrite with pomelo_exec.
  - by autorewrite with pomelo_exec.
  - intros h s' Hh' Hr. autorewrite with pomelo_exec in Hh'.
    destruct (read_file_Ok_inv _ _ _ Hr) as (l' & Hl' & _ & Hf & _).
    rewrite (locate_mono w _ _ l) in Hl' by (by autorewrite with pomelo_exec || by apply Hl).
    injection Hl' as <-. autorewrite with pomelo_exec in Hf. rewrite lookup_insert_eq in Hf.
    by injection Hf as <-.
  - eapply Forall_impl; [exact Hps|]. intros p. apply pc_ok_mono; autorewrite with pomelo_exec; try done.
    intros l' [? Hl']. destruct (decide (l' = l)) as [->|]; [by rewrite lookup_insert_eq|].
    rewrite lookup_insert_ne by done. by eexists.
Qed.

(** Replacing the text of a file keeps the world well formed. *)
Lemma wf_world_update_file w l s :
  wf_world w -> is_Some (w_files w !! l) -> wf_world (set_files (<[l := s]> (w_files w)) w).
Proof.
  intros (Hroot & Hdirs & Hfiles & Hdisj & Hcwd) [s0 Hf]. unfold wf_world.
  autorewrite with pomelo_exec. split_and!; try done.
  - intros l' s' H'. destruct (decide (l' = l)) as [->|]; [by eapply Hfiles|].
    rewrite lookup_insert_ne in H' by done. by eapply Hfiles.
  - intros l' Hl'. destruct (decide (l' = l)) as [->|]; [by rewrite (Hdisj l Hl') in Hf|].
    rewrite lookup_insert_ne by done. auto.
Qed.

(** A load that succeeds gives aliases that are UTF-8: the empty file
    does not decode. *)
Lemma load_string_ok w c w' :
  file_ok w -> run load_or_initialize_config w = (Done c, w') -> string_ok c.
Proof.
  intros Hok Hl. destruct (w_home w) as [h|] eqn:Hh.
  - rewrite (load_spec _ h Hh) in Hl. revert Hl.
    destruct (read_file w _) as [s|] eqn:Hr; [|intros [= <- _]; constructor].
    destruct (Hok h s Hh Hr) as [->|(c' & Hd & Hv)]; [by rewrite decode_empty|].
    rewrite Hd. by intros [= <- _].
  - unfold load_or_initialize_config, get_config_path in Hl. io_norm. by rewrite Hh in Hl.
Qed.

(** The first half of a save of a configuration with UTF-8 aliases keeps
    the invariant, and what it opens is the configuration file with a
    valid text to write. *)
Lemma sys_ok_open c w ps o w' :
  sys_ok w ps -> string_ok c -> run (save_open c) w = (o, w') ->
  sys_ok w' ps /\
  forall f t, o = Done (f, t) ->
    valid_text t /\ is_Some (w_files w' !! f) /\
    forall h, w_home w' = Some h -> locate w' (config_path_of h) = Ok f.
Proof.
  intros Hok Hc Hrun. pose proof Hok as ((Hwf & _) & _).
  destruct (save_open_cases c w o w' Hwf Hrun)
    as (ds & Hsub & Hwf' & [(e & -> & ->)|(h & s & l & Hh & Hs & Hl & -> & -> & Hwf'')]).
  { split; [by apply sys_ok_dirs|done]. }
  pose proof (sys_ok_dirs ds w ps Hok Hsub Hwf') as Hok'.
  assert (Hloc : forall h', w_home (set_dirs ds w) = Some h' -> locate (set_dirs ds w) (config_path_of h') = Ok l).
  { intros h'. autorewrite with pomelo_exec. rewrite Hh. by intros [= <-]. }
  replace (w_files w) with (w_files (set_dirs ds w)) in * by (by autorewrite with pomelo_exec).
  split; [apply sys_ok_write; auto|].
  intros f t [= <- <-]. split_and!.
  - exists c. split; [by apply (decode_encode c s)|done].
  - by rewrite w_files_set_files, lookup_insert_eq.
  - intros h'. autorewrite with pomelo_exec. intros Hh'. eapply locate_mono; [| |by apply Hloc];
      by autorewrite with pomelo_exec.
Qed.

Lemma sys_ok_insert w ps i p : sys_ok w ps -> pc_ok w p -> sys_ok w (<[i := p]> ps).
Proof. intros (Henv & Hok & Hps) Hp. split_and!; [done|done|by apply Forall_insert]. Qed.

(** After the first half of a save, the invocation holds what it opened,
    or has ended with a panic. *)
Lemma sys_ok_after_open cmd c w ps o w' :
  sys_ok w ps -> string_ok c -> run (save_open c) w = (o, w') ->
  sys_ok w' ps /\
  pc_ok w' (match o with Done (f, t) => POpened cmd f t | Panicked e => PExit (Panicked e) end).
Proof.
  intros Hok Hc Hrun. destruct (sys_ok_open c w ps o w' Hok Hc Hrun) as [Hok' Ho].
  split; [done|]. destruct o as [[f t]|e]; [by apply Ho|done].
Qed.

Lemma run_add_open a c w :
  run (r ← current_dir; current_dir ← expect r msg_cwd;
       save_open (push_bookmark c (mkBookmark a current_dir))) w =
    match w_cwd w with
    | Some l => run (save_open (push_bookmark c (mkBookmark a (loc_path l)))) w
    | None => (Panicked msg_cwd, w)
    end.
Proof. rewrite run_bind. cbv [run current_dir]. by destruct (w_cwd w). Qed.

(** One move of one invocation keeps the invariant. *)
Lemma sys_ok_step w ps w' ps' : sys_ok w ps -> sys_step (w, ps) (w', ps') -> sys_ok w' ps'.
Proof.
  intros Hok Hstep. inversion Hstep as [? ? i p m p' ? Hi Hp Hm]; subst. clear Hstep.
  assert (Hpc : pc_ok w p) by (eapply Forall_lookup_1; [apply Hok|exact Hi]).
  cut (sys_ok w' ps /\ pc_ok w' p'); [intros [??]; by apply sys_ok_insert|].
  pose proof Hok as ((Hwf & Hns & _) & _).
  destruct p as [cmd|cmd c|cmd f t|o]; simplify_eq/=.
  - rewrite run_phase, load_read_only in Hm. injection Hm as <- <-. split; [done|].
    destruct (run load_or_initialize_config w) as [[c|e] w0] eqn:Hl; [|done].
    split; [done|]. eapply load_string_ok; [apply Hok|exact Hl].
  - destruct Hpc as [Hcmd Hc].
    destruct cmd as [a|a| |a n|a]; cbn [arm_open] in Hm; rewrite ?run_phase in Hm.
    + rewrite run_add_open in Hm. destruct (w_cwd w) as [l|]; [|by simplify_eq].
      destruct (run (save_open _) w) as [o w1] eqn:Hrun. injection Hm as <- <-.
      destruct (sys_ok_after_open (Add a) _ w ps o w1 Hok (string_ok_add a (loc_path l) c Hcmd Hc) Hrun)
        as [Hok1 Ho].
      split; [done|]. by destruct o as [[]|].
    + rewrite run_bind, remove_arm_spec in Hm.
      destruct (run (save_open _) _) as [o w1] eqn:Hrun. injection Hm as <- <-.
      destruct (sys_ok_after_open (Remove a) _ _ ps o w1 (sys_ok_stdout _ _ _ Hok)
                  (string_ok_remove a c Hc) Hrun) as [Hok1 Ho].
      split; [done|]. by destruct o as [[]|].
    + destruct (list_arm_stdout c w) as [out Hout]. rewrite Hout in Hm. injection Hm as <- <-.
      split; [by apply sys_ok_stdout|done].
    + rewrite run_bind, edit_arm_spec in Hm.
      destruct (run (save_open _) _) as [o w1] eqn:Hrun. injection Hm as <- <-.
      destruct (sys_ok_after_open (Edit a n) _ _ ps o w1 (sys_ok_stdout _ _ _ Hok)
                  (string_ok_rename a n c (proj2 Hcmd) Hc) Hrun) as [Hok1 Ho].
      split; [done|]. by destruct o as [[]|].
    + rewrite run_ret in Hm. by simplify_eq.
  - destruct Hpc as (Ht & Hf & Hl).
    assert (Hw : sys_ok (set_files (<[f := t]> (w_files w)) w) ps)
      by (apply sys_ok_write; auto using wf_world_update_file).
    destruct cmd; cbn [arm_close] in Hm; rewrite run_phase in Hm;
      rewrite ?run_bind, save_write_spec, Hns in Hm; cbn in Hm; injection Hm as <- <-;
      split; try done; by apply sys_ok_stdout.
Qed.

Lemma sys_reachable_ok s s' : sys_ok s.1 s.2 -> rtc sys_step s s' -> sys_ok s'.1 s'.2.
Proof.
  intros Hok Hr. induction Hr as [s|[w ps] [w' ps'] s3 Hstep _ IH]; [done|].
  apply IH. by eapply sys_ok_step.
Qed.

(** C29: Under any interleaving of any number of invocations, with a
    disk that never fills and a home without [..], a load panics while
    parsing only when the configuration file it reads is the empty file
    that another invocation's [File::create] left before its
    [write_all]. *)
Theorem interleaved_parse_panic_is_truncation s s' h :
  sys_ok s.1 s.2 -> rtc sys_step s s' -> w_home s'.1 = Some h ->
  fst (run load_or_initialize_config s'.1) = Panicked msg_parse ->
  read_file s'.1 (config_path_of h) = Ok EmptyString.
Proof.
  intros Hok Hr Hh Hp. destruct (sys_reachable_ok s s' Hok Hr) as (_ & Hfile & _).
  rewrite (load_spec _ h Hh) in Hp. simpl in Hp.
  destruct (read_file _ _) as [t|] eqn:Hf; [|done].
  destruct (Hfile h t Hh Hf) as [->|(c & Hd & _)]; [done|]. by rewrite Hd in Hp.
Qed.

(** The steps of an invocation never panic: a panic ends it in [PExit]. *)
Lemma proc_step_done p m w :
  proc_step p = Some m -> exists p' w', run m w = (Done p', w').
Proof.
  destruct p as [cmd|[] c|[] f t|o]; intros [= <-]; rewrite ?run_phase, ?run_ret; by eexists _, _.
Qed.

(** A schedule runs the step relation. *)
Lemma run_sched_rtc sched s : rtc sys_step s (run_sched sched s).
Proof.
  revert s. induction sched as [|i sched IH]; intros [w ps]; [apply rtc_refl|].
  cbn [run_sched foldl]. unfold sched_step at 2.
  destruct (ps !! i) as [p|] eqn:Hi; cbn; [|apply IH].
  destruct (proc_step p) as [m|] eqn:Hp; [|apply IH].
  destruct (proc_step_done p m w Hp) as (p' & w' & Hm). rewrite Hm.
  eapply rtc_l; [by econstructor|apply IH].
Qed.
End ConcurrentInvariant.
