(* ===== verification/Scenario.v ===== *)
(** * Scenario: pomelo run on concrete worlds

    The scenarios of the specification (section 8) executed on the model
    with the TOML codec of [Toml.v], and the main theorems that have
    hypotheses applied at a concrete world where they hold:
    - [w_first]: a first run in [/home/u], no [~/.pomelo] yet;
    - [w_xyx]: a configuration file holding
      [[("x", /p1); ("y", /p2); ("x", /p3)]], working directory [/p4];
    - [w_xyx_full]: the same on a full disk;
    - [w_garbage]: a configuration file that is UTF-8 but not the schema;
    - [w_latin]: working directory [/caf\xe9] (a Latin-1 name, not UTF-8);
    - [w_binary]: a configuration file holding the byte [\xff]. *)

From stdpp Require Import base list gmap strings pretty relations.
From Stdlib Require Import Ascii.
From S2P Require Import Prelude Utf8 Paths Bookmarks FileSys ConfigStore Toml Main Cli Concurrency.

(** Paths as the bytes of an ASCII string. *)
Definition p_ (s : string) : PathBuf := String.list_ascii_of_string s.

Definition home_u : PathBuf := p_ "/home/u".
Definition loc_home : Loc := ["home"; "u"]%string.
Definition loc_pomelo : Loc := loc_home ++ [".pomelo"%string].
Definition cfg_u : Loc := cfg_loc loc_pomelo.

(** The Latin-1 directory name [caf\xe9]. *)
Definition latin_name : string := String.String "c" (String.String "a" (String.String "f"
  (String.String (ascii_of_nat 233) EmptyString))).
Definition loc_latin : Loc := [latin_name].

(** The specification's example collection, and its file. *)
Definition c_xyx : Config :=
  mkConfig [mkBookmark "x" (p_ "/p1"); mkBookmark "y" (p_ "/p2"); mkBookmark "x" (p_ "/p3")].

Definition s_xyx : string :=
  ("bookmarks = [
  { alias = " +:+ dq "x" +:+ ", path = " +:+ dq "/p1" +:+ " },
  { alias = " +:+ dq "y" +:+ ", path = " +:+ dq "/p2" +:+ " },
  { alias = " +:+ dq "x" +:+ ", path = " +:+ dq "/p3" +:+ " },
]
")%string.

Definition dirs_xyx : gset Loc := {[ []; ["home"%string]; loc_home; loc_pomelo; ["p4"%string] ]}.

Definition w_first : World :=
  mkWorld (Some home_u) (Some loc_home) {[ []; ["home"%string]; loc_home ]} ∅ ∅ false [].

Definition w_xyx : World :=
  mkWorld (Some home_u) (Some ["p4"%string]) dirs_xyx {[ cfg_u := s_xyx ]} ∅ false [].

Definition w_xyx_full : World :=
  mkWorld (Some home_u) (Some ["p4"%string]) dirs_xyx {[ cfg_u := s_xyx ]} ∅ true [].

Definition w_garbage : World :=
  mkWorld (Some home_u) (Some loc_home) {[ []; ["home"%string]; loc_home; loc_pomelo ]}
    {[ cfg_u := "bookmarks = 3"%string ]} ∅ false [].

Definition w_latin : World :=
  mkWorld (Some home_u) (Some loc_latin) ({[ loc_latin ]} ∪ dirs_xyx)
    {[ cfg_u := s_xyx ]} ∅ false [].

Definition w_empty : World :=
  mkWorld (Some home_u) (Some ["p4"%string]) dirs_xyx ∅ ∅ false [].

Definition s_binary : string := String.String (ascii_of_nat 255) EmptyString.

Definition w_binary : World :=
  mkWorld (Some home_u) (Some ["p4"%string]) dirs_xyx {[ cfg_u := s_binary ]} ∅ false [].

Definition step (cmd : Commands) (w : World) : World := snd (run (main cmd) w).

(** Decide a proposition of a concrete world by evaluation. *)
Ltac eval_decide := apply (bool_decide_eq_true_1 _); vm_compute; reflexivity.
Ltac by_eval := first [reflexivity | eval_decide | vm_compute; reflexivity].
Ltac wf_by_eval := apply wf_worldb_sound; vm_compute; reflexivity.

Lemma store_ready_xyx : store_ready home_u loc_pomelo w_xyx.
Proof. split_and!; by_eval. Qed.
Lemma encode_xyx : encode c_xyx = Some s_xyx.
Proof. by_eval. Qed.
Lemma string_ok_xyx : string_ok c_xyx.
Proof. repeat constructor. Qed.

(** Discharge the hypotheses of a witness, its conclusion being [H]. *)
Ltac witness_by H :=
  split_and!; first [exact H | assumption | exact encode_xyx | exact string_ok_xyx | by_eval].

(** ** The scenarios of the specification *)

(** The end-to-end scenario of the specification: from no configuration
    file, [add -a home] in [/home/u], [list], [edit -a home -n h],
    [remove -a h]: the outputs, and a configuration file that ends with an
    empty array but still exists. *)
Example end_to_end :
  let w1 := step (Add "home") w_first in
  let w2 := step List w1 in
  let w3 := step (Edit "home" "h") w2 in
  let w4 := step (Remove "h") w3 in
  w_files w1 !! cfg_u = toml_encode (mkConfig [mkBookmark "home" home_u]) /\
  loc_pomelo ∈ w_dirs w1 /\
  w_stdout w4 = ["Added bookmark with alias 'home'"; "Your bookmarks:";
                 "1. Alias: 'home', Path: '/home/u'"; "Updated alias 'home' to 'h'";
                 "Removed bookmark with alias 'h'"]%string /\
  w_files w3 !! cfg_u = toml_encode (mkConfig [mkBookmark "h" home_u]) /\
  w_files w4 !! cfg_u = Some "bookmarks = [
]
"%string.
Proof. split_and!; by_eval. Qed.

(** Remove-first-match and rename-first-match of the specification, run
    through [main] on [[("x", /p1); ("y", /p2); ("x", /p3)]]. *)
Example remove_first_match :
  w_files (step (Remove "x") w_xyx) !! cfg_u =
    toml_encode (mkConfig [mkBookmark "y" (p_ "/p2"); mkBookmark "x" (p_ "/p3")]).
Proof. by_eval. Qed.

Example rename_first_match :
  w_files (step (Edit "x" "z") w_xyx) !! cfg_u =
    toml_encode (mkConfig [mkBookmark "z" (p_ "/p1"); mkBookmark "y" (p_ "/p2");
                           mkBookmark "x" (p_ "/p3")]).
Proof. by_eval. Qed.

(** Remove of an absent alias leaves the collection as it was. *)
Example remove_not_found_no_change :
  w_files (step (Remove "nope") w_xyx) !! cfg_u = Some s_xyx /\
  w_stdout (step (Remove "nope") w_xyx) = ["No bookmark found with alias 'nope'"%string].
Proof. split; by_eval. Qed.

(** [Add] in [/caf\xe9] panics and changes nothing; [Add] over the binary
    file drops the three bookmarks it does not see. *)
Example add_latin_and_binary :
  run (main (Add "c")) w_latin = (Panicked msg_serialize, w_latin) /\
  w_files (step (Add "b") w_binary) !! cfg_u =
    toml_encode (mkConfig [mkBookmark "b" (p_ "/p4")]).
Proof. split; by_eval. Qed.

(** ** The theorems at concrete worlds *)

Lemma remove_persists_witness :
  store_ready home_u loc_pomelo w_xyx /\ w_files w_xyx !! cfg_u = Some s_xyx /\
  encode c_xyx = Some s_xyx /\ string_ok c_xyx /\
  exists s', encode (mkConfig (Spec.remove_first "x" (bookmarks c_xyx))) = Some s' /\
  run (main (Remove "x")) w_xyx =
    (Done tt,
     set_files (<[cfg_u := s']> (w_files w_xyx))
       (set_stdout (w_stdout w_xyx ++
          [match find_position "x" (bookmarks c_xyx) with
           | Some _ => msg_removed "x" | None => msg_not_found "x" end]) w_xyx)).
Proof.
  split_and!; [exact store_ready_xyx|by_eval|exact encode_xyx|exact string_ok_xyx|].
  exact (remove_persists "x" c_xyx s_xyx home_u loc_pomelo w_xyx
           store_ready_xyx eq_refl encode_xyx string_ok_xyx).
Defined.

Lemma edit_persists_witness :
  store_ready home_u loc_pomelo w_xyx /\ w_files w_xyx !! cfg_u = Some s_xyx /\
  encode c_xyx = Some s_xyx /\ string_ok c_xyx /\
  exists s', encode (mkConfig (Spec.rename_first "x" "z" (bookmarks c_xyx))) = Some s' /\
  run (main (Edit "x" "z")) w_xyx =
    (Done tt,
     set_files (<[cfg_u := s']> (w_files w_xyx))
       (set_stdout (w_stdout w_xyx ++
          [match find_position "x" (bookmarks c_xyx) with
           | Some _ => msg_updated "x" "z" | None => msg_not_found "x" end]) w_xyx)).
Proof.
  split_and!; [exact store_ready_xyx|by_eval|exact encode_xyx|exact string_ok_xyx|].
  exact (edit_persists "x" "z" c_xyx s_xyx home_u loc_pomelo w_xyx
           store_ready_xyx eq_refl encode_xyx string_ok_xyx).
Defined.

Lemma add_persists_witness :
  store_ready home_u loc_pomelo w_xyx /\ w_files w_xyx !! cfg_u = Some s_xyx /\
  encode c_xyx = Some s_xyx /\ string_ok c_xyx /\ w_cwd w_xyx = Some ["p4"%string] /\
  utf8_valid (loc_path ["p4"%string]) = true /\
  exists s', encode (mkConfig (Spec.add "w" (loc_path ["p4"%string]) (bookmarks c_xyx))) = Some s' /\
  run (main (Add "w")) w_xyx =
    (Done tt,
     set_stdout (w_stdout w_xyx ++ [msg_added "w"])
       (set_files (<[cfg_u := s']> (w_files w_xyx)) w_xyx)).
Proof.
  split_and!; [exact store_ready_xyx|by_eval|exact encode_xyx|exact string_ok_xyx|by_eval|by_eval|].
  exact (add_persists "w" c_xyx s_xyx home_u loc_pomelo ["p4"%string] w_xyx
           store_ready_xyx eq_refl encode_xyx string_ok_xyx eq_refl eq_refl).
Defined.

Lemma add_then_remove_witness :
  store_ready home_u loc_pomelo w_xyx /\ w_files w_xyx !! cfg_u = Some s_xyx /\
  encode c_xyx = Some s_xyx /\ string_ok c_xyx /\ w_cwd w_xyx = Some ["p4"%string] /\
  utf8_valid (loc_path ["p4"%string]) = true /\ text_ok "w" = true /\
  Forall (fun b => alias b <> "w"%string) (bookmarks c_xyx) /\
  run (main (Remove "w")) (snd (run (main (Add "w")) w_xyx)) =
    (Done tt, set_stdout (w_stdout w_xyx ++ [msg_added "w"; msg_removed "w"]) w_xyx).
Proof.
  assert (Hn : Forall (fun b => alias b <> "w"%string) (bookmarks c_xyx)) by (repeat constructor; done).
  split_and!; [exact store_ready_xyx|by_eval|exact encode_xyx|exact string_ok_xyx|by_eval|by_eval|by_eval|exact Hn|].
  exact (add_then_remove "w" c_xyx s_xyx home_u loc_pomelo ["p4"%string] w_xyx
           store_ready_xyx eq_refl encode_xyx string_ok_xyx eq_refl eq_refl eq_refl Hn).
Defined.

Lemma add_non_utf8_cwd_panics_witness :
  store_ready home_u loc_pomelo w_latin /\ w_files w_latin !! cfg_u = Some s_xyx /\
  encode c_xyx = Some s_xyx /\ string_ok c_xyx /\ w_cwd w_latin = Some loc_latin /\
  utf8_valid (loc_path loc_latin) = false /\
  run (main (Add "c")) w_latin = (Panicked msg_serialize, w_latin).
Proof.
  assert (Hr : store_ready home_u loc_pomelo w_latin) by (split_and!; by_eval).
  split_and!; [exact Hr|by_eval|exact encode_xyx|exact string_ok_xyx|by_eval|by_eval|].
  exact (add_non_utf8_cwd_panics "c" c_xyx s_xyx home_u loc_pomelo loc_latin w_latin
           Hr eq_refl encode_xyx string_ok_xyx eq_refl eq_refl).
Defined.

Lemma add_overwrites_non_utf8_config_witness :
  store_ready home_u loc_pomelo w_binary /\ w_files w_binary !! cfg_u = Some s_binary /\
  text_ok s_binary = false /\ w_cwd w_binary = Some ["p4"%string] /\
  utf8_valid (loc_path ["p4"%string]) = true /\
  exists s', encode (mkConfig [mkBookmark "b" (loc_path ["p4"%string])]) = Some s' /\
  run (main (Add "b")) w_binary =
    (Done tt, set_stdout (w_stdout w_binary ++ [msg_added "b"])
                (set_files (<[cfg_u := s']> (w_files w_binary)) w_binary)).
Proof.
  assert (Hr : store_ready home_u loc_pomelo w_binary) by (split_and!; by_eval).
  split_and!; [exact Hr|by_eval|by_eval|by_eval|by_eval|].
  exact (add_overwrites_non_utf8_config "b" s_binary home_u loc_pomelo ["p4"%string] w_binary
           Hr eq_refl eq_refl eq_refl eq_refl).
Defined.

Lemma load_after_save_witness :
  string_ok c_xyx /\
  run (save_config c_xyx) w_first = (Done tt, snd (run (save_config c_xyx) w_first)) /\
  run load_or_initialize_config (snd (run (save_config c_xyx) w_first)) =
    (Done c_xyx, snd (run (save_config c_xyx) w_first)).
Proof.
  assert (H : run (save_config c_xyx) w_first = (Done tt, snd (run (save_config c_xyx) w_first)))
    by by_eval.
  split_and!; [exact string_ok_xyx|exact H|].
  exact (load_after_save c_xyx w_first _ string_ok_xyx H).
Defined.

Lemma toml_roundtrip_witness :
  toml_encode c_xyx = Some s_xyx /\ toml_decode s_xyx = Some c_xyx.
Proof. split; [exact encode_xyx|]. exact (toml_roundtrip c_xyx s_xyx encode_xyx). Defined.

Lemma inv_first : inv w_first.
Proof.
  split; [split_and!|].
  - wf_by_eval.
  - reflexivity.
  - intros h [= <-]. eval_decide.
  - intros h s [= <-].
    assert (read_file w_first (config_path_of home_u) = Err NotFound) as -> by by_eval.
    discriminate.
Qed.

Lemma reachable_load_never_fails_to_parse_witness :
  inv w_first /\ rtc invocation w_first (step (Add "home") w_first) /\
  fst (run load_or_initialize_config (step (Add "home") w_first)) <> Panicked msg_parse.
Proof.
  assert (H : rtc invocation w_first (step (Add "home") w_first)).
  { eapply rtc_l; [|apply rtc_refl]. eapply (invoke (Add "home")); [by_eval|].
    apply surjective_pairing. }
  split_and!; [exact inv_first|exact H|].
  exact (reachable_load_never_fails_to_parse _ _ inv_first H).
Defined.

Lemma failed_save_breaks_load_witness :
  w_home w_xyx_full = Some home_u /\ locate w_xyx_full (config_dir_of home_u) = Ok loc_pomelo /\
  loc_pomelo ∈ w_dirs w_xyx_full /\ encode c_xyx = Some s_xyx /\
  (cfg_u ∉ w_dirs w_xyx_full) /\ (cfg_u ∉ w_denied w_xyx_full) /\ w_nospace w_xyx_full = true /\
  (let w' := snd (run (save_config c_xyx) w_xyx_full) in
   fst (run (save_config c_xyx) w_xyx_full) = Panicked msg_write /\
   run load_or_initialize_config w' = (Panicked msg_parse, w')).
Proof.
  assert (H2 : locate w_xyx_full (config_dir_of home_u) = Ok loc_pomelo) by by_eval.
  assert (H3 : loc_pomelo ∈ w_dirs w_xyx_full) by by_eval.
  assert (H5 : cfg_u ∉ w_dirs w_xyx_full) by by_eval.
  assert (H6 : cfg_u ∉ w_denied w_xyx_full) by by_eval.
  split_and!; try assumption; [reflexivity|exact encode_xyx|reflexivity|].
  exact (failed_save_breaks_load c_xyx s_xyx w_xyx_full home_u loc_pomelo eq_refl H2 H3
           encode_xyx H5 H6 eq_refl).
Defined.

Lemma remove_missing_alias_creates_file_witness :
  wf_world w_first /\ w_home w_first = Some home_u /\
  locate w_first (config_dir_of home_u) = Ok loc_pomelo /\
  (loc_pomelo ∉ w_dirs w_first) /\ w_files w_first !! loc_pomelo = None /\
  (loc_pomelo ∉ w_denied w_first) /\ (cfg_u ∉ w_denied w_first) /\ w_nospace w_first = false /\
  exists s0, encode (mkConfig []) = Some s0 /\
  run (main (Remove "nope")) w_first =
    (Done tt, set_files (<[cfg_u := s0]> (w_files w_first))
                (set_dirs ({[loc_pomelo]} ∪ w_dirs w_first)
                   (set_stdout (w_stdout w_first ++ [msg_not_found "nope"]) w_first))).
Proof.
  assert (H1 : wf_world w_first) by wf_by_eval.
  assert (H3 : locate w_first (config_dir_of home_u) = Ok loc_pomelo) by by_eval.
  assert (H4 : loc_pomelo ∉ w_dirs w_first) by by_eval.
  assert (H6 : loc_pomelo ∉ w_denied w_first) by by_eval.
  assert (H7 : cfg_u ∉ w_denied w_first) by by_eval.
  split_and!; try assumption; try reflexivity.
  exact (remove_missing_alias_creates_file "nope" w_first home_u loc_pomelo H1 eq_refl H3 H4
           eq_refl H6 H7 eq_refl).
Defined.

Lemma remove_reports_before_failed_save_witness :
  w_home w_xyx_full = Some home_u /\ locate w_xyx_full (config_dir_of home_u) = Ok loc_pomelo /\
  loc_pomelo ∈ w_dirs w_xyx_full /\
  (cfg_u ∉ w_dirs w_xyx_full) /\ (cfg_u ∉ w_denied w_xyx_full) /\ w_nospace w_xyx_full = true /\
  w_files w_xyx_full !! cfg_u = Some s_xyx /\ encode c_xyx = Some s_xyx /\ string_ok c_xyx /\
  find_position "y" (bookmarks c_xyx) = Some 1 /\
  run (main (Remove "y")) w_xyx_full =
    (Panicked msg_write,
     set_files (<[cfg_u := EmptyString]> (w_files w_xyx_full))
       (set_stdout (w_stdout w_xyx_full ++ [msg_removed "y"]) w_xyx_full)).
Proof.
  assert (H2 : locate w_xyx_full (config_dir_of home_u) = Ok loc_pomelo) by by_eval.
  assert (H3 : loc_pomelo ∈ w_dirs w_xyx_full) by by_eval.
  assert (H4 : cfg_u ∉ w_dirs w_xyx_full) by by_eval.
  assert (H5 : cfg_u ∉ w_denied w_xyx_full) by by_eval.
  pose proof (remove_reports_before_failed_save "y" c_xyx s_xyx home_u loc_pomelo w_xyx_full 1
           eq_refl H2 H3 H4 H5 eq_refl eq_refl encode_xyx string_ok_xyx eq_refl) as H.
  witness_by H.
Defined.

Lemma main_list_witness :
  run load_or_initialize_config w_xyx = (Done c_xyx, w_xyx) /\
  run (main List) w_xyx =
    (Done tt, set_stdout (w_stdout w_xyx ++
       if decide (bookmarks c_xyx = []) then ["You have no bookmarks."%string]
       else "Your bookmarks:"%string ::
              imap (fun i b => pretty (S i) +:+ ". Alias: '" +:+ alias b +:+ "', Path: '"
                                 +:+ display (path b) +:+ "'") (bookmarks c_xyx)) w_xyx).
Proof.
  assert (H1 : run load_or_initialize_config w_xyx = (Done c_xyx, w_xyx)) by by_eval.
  pose proof (main_list c_xyx w_xyx H1) as H. witness_by H.
Defined.

Lemma list_unreadable_config_witness :
  w_home w_first = Some home_u /\ read_file w_first (config_path_of home_u) = Err NotFound /\
  run (main List) w_first = (Done tt, set_stdout (w_stdout w_first ++ [msg_no_bookmarks]) w_first).
Proof.
  assert (H2 : read_file w_first (config_path_of home_u) = Err NotFound) by by_eval.
  pose proof (list_unreadable_config w_first home_u NotFound eq_refl H2) as H. witness_by H.
Defined.

Lemma load_missing_is_empty_witness :
  w_home w_empty = Some home_u /\ locate w_empty (config_dir_of home_u) = Ok loc_pomelo /\
  loc_pomelo ∈ w_dirs w_empty /\ (cfg_u ∉ w_denied w_empty) /\ w_files w_empty !! cfg_u = None /\
  (cfg_u ∉ w_dirs w_empty) /\
  run load_or_initialize_config w_empty = (Done (mkConfig []), w_empty).
Proof.
  assert (H2 : locate w_empty (config_dir_of home_u) = Ok loc_pomelo) by by_eval.
  assert (H3 : loc_pomelo ∈ w_dirs w_empty) by by_eval.
  assert (H4 : cfg_u ∉ w_denied w_empty) by by_eval.
  assert (H6 : cfg_u ∉ w_dirs w_empty) by by_eval.
  pose proof (load_missing_is_empty w_empty home_u loc_pomelo eq_refl H2 H3 H4 eq_refl H6) as H.
  witness_by H.
Defined.

Lemma load_malformed_panics_witness :
  w_home w_garbage = Some home_u /\ locate w_garbage (config_dir_of home_u) = Ok loc_pomelo /\
  loc_pomelo ∈ w_dirs w_garbage /\ (cfg_u ∉ w_denied w_garbage) /\
  w_files w_garbage !! cfg_u = Some "bookmarks = 3"%string /\
  text_ok "bookmarks = 3" = true /\ decode "bookmarks = 3"%string = None /\
  run load_or_initialize_config w_garbage = (Panicked msg_parse, w_garbage).
Proof.
  assert (H2 : locate w_garbage (config_dir_of home_u) = Ok loc_pomelo) by by_eval.
  assert (H3 : loc_pomelo ∈ w_dirs w_garbage) by by_eval.
  assert (H4 : cfg_u ∉ w_denied w_garbage) by by_eval.
  pose proof (load_malformed_panics w_garbage home_u loc_pomelo _ eq_refl H2 H3 H4 eq_refl
                eq_refl eq_refl) as H.
  witness_by H.
Defined.

Lemma save_config_panics_witness :
  run (save_config c_xyx) w_xyx_full =
    (Panicked msg_write, snd (run (save_config c_xyx) w_xyx_full)) /\
  msg_write ∈ [msg_home; msg_mkdir; msg_serialize; msg_create; msg_write].
Proof.
  assert (H1 : run (save_config c_xyx) w_xyx_full =
                 (Panicked msg_write, snd (run (save_config c_xyx) w_xyx_full))) by by_eval.
  pose proof (save_config_panics c_xyx w_xyx_full msg_write _ H1) as H. witness_by H.
Defined.

Definition c_latin : Config := mkConfig [mkBookmark "c" (loc_path loc_latin)].

Lemma save_config_serialize_fails_witness :
  encode c_latin = None /\
  exists m ds, run (save_config c_latin) w_first = (Panicked m, set_dirs ds w_first) /\
    w_dirs w_first ⊆ ds.
Proof.
  assert (H1 : encode c_latin = None) by by_eval.
  pose proof (save_config_serialize_fails c_latin w_first H1) as H. witness_by H.
Defined.

(** [/caf\xe9] is displayed [/caf\xef\xbf\xbd]: the byte [\xe9] starts a
    three-byte sequence that stops short. *)
Example display_latin :
  display (loc_path loc_latin) =
    String.string_of_list_ascii (p_ "/caf" ++ [ascii_of_nat 239; ascii_of_nat 191; ascii_of_nat 189]).
Proof. by_eval. Qed.

(** U+00E9 is the two bytes [\xc3\xa9], and [/caf\xe9] spells no [char]s. *)
Example utf8_chars_cafe :
  utf8_encode_all [47; 99; 97; 102; 233]%N = Some (p_ "/caf" ++ [ascii_of_nat 195; ascii_of_nat 169]) /\
  utf8_valid (loc_path loc_latin) = false /\ utf8_encode 55296%N = None.
Proof. split_and!; by_eval. Qed.

Lemma remove_repeated_until_gone_witness :
  store_ready home_u loc_pomelo w_xyx /\ w_files w_xyx !! cfg_u = Some s_xyx /\
  encode c_xyx = Some s_xyx /\ string_ok c_xyx /\
  exists s', encode (mkConfig (filter (fun b => alias b <> "x"%string) (bookmarks c_xyx))) = Some s' /\
    w_files (Nat.iter (length (filter (fun b => alias b = "x"%string) (bookmarks c_xyx)))
               (fun w => snd (run (main (Remove "x")) w)) w_xyx) !! cfg_u = Some s'.
Proof.
  pose proof (remove_repeated_until_gone "x" c_xyx s_xyx home_u loc_pomelo w_xyx
                store_ready_xyx eq_refl encode_xyx string_ok_xyx) as H.
  split_and!; [exact store_ready_xyx|by_eval|exact encode_xyx|exact string_ok_xyx|exact H].
Defined.

(** Two [Add]s from [/p4] on [w_xyx], loading before either saves, and a
    [List] that loads while an [Add] is between [File::create] and
    [write_all]. *)
Lemma lost_update_witness :
  store_ready home_u loc_pomelo w_xyx /\ w_files w_xyx !! cfg_u = Some s_xyx /\
  encode c_xyx = Some s_xyx /\ string_ok c_xyx /\ w_cwd w_xyx = Some ["p4"%string] /\
  utf8_valid (loc_path ["p4"%string]) = true /\
  exists s2, encode (mkConfig (Spec.add "b" (loc_path ["p4"%string]) (bookmarks c_xyx))) = Some s2 /\
    let '(w', ps) := run_sched [0; 1; 0; 0; 1; 1] (w_xyx, [PStart (Add "a"); PStart (Add "b")]) in
    ps = [PExit (Done tt); PExit (Done tt)] /\ w_files w' !! cfg_u = Some s2.
Proof.
  pose proof (lost_update "a" "b" c_xyx s_xyx home_u loc_pomelo ["p4"%string] w_xyx
                store_ready_xyx eq_refl encode_xyx string_ok_xyx eq_refl eq_refl) as H.
  split_and!; [exact store_ready_xyx|by_eval|exact encode_xyx|exact string_ok_xyx|by_eval|by_eval|exact H].
Defined.

Lemma load_during_save_panics_witness :
  store_ready home_u loc_pomelo w_xyx /\ w_files w_xyx !! cfg_u = Some s_xyx /\
  encode c_xyx = Some s_xyx /\ string_ok c_xyx /\ w_cwd w_xyx = Some ["p4"%string] /\
  utf8_valid (loc_path ["p4"%string]) = true /\
  let '(w', ps) := run_sched [0; 0; 1] (w_xyx, [PStart (Add "a"); PStart List]) in
  ps !! 1 = Some (PExit (Panicked msg_parse)) /\ w_files w' !! cfg_u = Some EmptyString.
Proof.
  pose proof (load_during_save_panics "a" List c_xyx s_xyx home_u loc_pomelo ["p4"%string] w_xyx
                store_ready_xyx eq_refl encode_xyx string_ok_xyx eq_refl eq_refl) as H.
  split_and!; [exact store_ready_xyx|by_eval|exact encode_xyx|exact string_ok_xyx|by_eval|by_eval|exact H].
Defined.

(** The serial schedule keeps both bookmarks; the interleaved one keeps
    the second only. *)
Example serial_keeps_both :
  w_files (run_sched [0; 0; 0; 1; 1; 1] (w_xyx, [PStart (Add "a"); PStart (Add "b")])).1 !! cfg_u =
    toml_encode (mkConfig (bookmarks c_xyx ++ [mkBookmark "a" (p_ "/p4"); mkBookmark "b" (p_ "/p4")])) /\
  w_files (run_sched [0; 1; 0; 0; 1; 1] (w_xyx, [PStart (Add "a"); PStart (Add "b")])).1 !! cfg_u =
    toml_encode (mkConfig (bookmarks c_xyx ++ [mkBookmark "b" (p_ "/p4")])).
Proof. split; by_eval. Qed.

Lemma sys_ok_xyx : sys_ok w_xyx [PStart (Add "a"); PStart List].
Proof.
  unfold sys_ok, env_ok. split_and!.
  - wf_by_eval.
  - reflexivity.
  - intros h [= <-]. eval_decide.
  - intros h s [= <-]. assert (read_file w_xyx (config_path_of home_u) = Ok s_xyx) as -> by by_eval.
    intros [= <-]. right. exists c_xyx. split; [by_eval|exact string_ok_xyx].
  - repeat constructor; by_eval.
Qed.

Lemma interleaved_parse_panic_is_truncation_witness :
  sys_ok w_xyx [PStart (Add "a"); PStart List] /\
  rtc sys_step (w_xyx, [PStart (Add "a"); PStart List])
    (run_sched [0; 0; 1] (w_xyx, [PStart (Add "a"); PStart List])) /\
  w_home (run_sched [0; 0; 1] (w_xyx, [PStart (Add "a"); PStart List])).1 = Some home_u /\
  fst (run load_or_initialize_config (run_sched [0; 0; 1] (w_xyx, [PStart (Add "a"); PStart List])).1)
    = Panicked msg_parse /\
  read_file (run_sched [0; 0; 1] (w_xyx, [PStart (Add "a"); PStart List])).1 (config_path_of home_u)
    = Ok EmptyString.
Proof.
  assert (H2 := run_sched_rtc [0; 0; 1] (w_xyx, [PStart (Add "a"); PStart List])).
  assert (H3 : w_home (run_sched [0; 0; 1] (w_xyx, [PStart (Add "a"); PStart List])).1 = Some home_u)
    by by_eval.
  assert (H4 : fst (run load_or_initialize_config
                      (run_sched [0; 0; 1] (w_xyx, [PStart (Add "a"); PStart List])).1)
                 = Panicked msg_parse) by by_eval.
  pose proof (interleaved_parse_panic_is_truncation (w_xyx, [PStart (Add "a"); PStart List]) _ home_u
                sys_ok_xyx H2 H3 H4) as H.
  split_and!; [exact sys_ok_xyx|exact H2|exact H3|exact H4|exact H].
Defined.

(** [pomelo add --alias home] on a first run. *)
Definition argv_add_home : list OsString :=
  [bytes "pomelo"; bytes "add"; bytes "--alias"; bytes "home"].

Lemma option_twice_conflict_witness :
  name_add ∈ [name_add; name_remove; name_edit; name_jump] /\
  spelling_ok ShortSep (bytes "x") = true /\ spelling_ok LongEq (bytes "y") = true /\
  utf8_valid (bytes "x") = true /\
  pomelo (bytes "pomelo" :: name_add :: spell ShortSep arg_alias (bytes "x") ++
          spell LongEq arg_alias (bytes "y")) w_xyx = (ClapExit ArgumentConflict, w_xyx).
Proof.
  split_and!; [by left|by_eval..|].
  apply (option_twice_conflict (bytes "pomelo") name_add ShortSep LongEq (bytes "x") (bytes "y"));
    [by left|by_eval..].
Defined.

Lemma missing_option_refused_witness :
  spelling_ok LongSep (bytes "home") = true /\ utf8_valid (bytes "home") = true /\
  pomelo [bytes "pomelo"; name_add] w_xyx = (ClapExit MissingRequiredArgument, w_xyx) /\
  pomelo (bytes "pomelo" :: name_edit :: spell LongSep arg_alias (bytes "home")) w_xyx =
    (ClapExit MissingRequiredArgument, w_xyx).
Proof.
  assert (Hs : spelling_ok LongSep (bytes "home") = true) by by_eval.
  assert (Hv : utf8_valid (bytes "home") = true) by by_eval.
  destruct (missing_option_refused (bytes "pomelo") LongSep (bytes "home") w_xyx Hs Hv)
    as (H1 & H2 & _).
  split_and!; [exact Hs|exact Hv|apply H1; by left|exact H2].
Defined.
